(** * Starry Night: the canvas particle system of [starry-night.js]

    A shallow embedding of the scene state and of the functions that change
    it ([resize], [makeStar], [initStars], [spawnShootingStar], [update] and
    the event listeners), followed by the properties of the physics step.
    The last part adds the functions that draw the scene ([drawMoon],
    [draw], [loop]) as the sequence of calls they make on the canvas
    context, and further properties of the whole.

    JavaScript numbers are IEEE-754 binary64 values.  The program is written
    once, over an interface [JsNum] of the arithmetic it uses, and read in
    two ways:
    - [F64]: Rocq's primitive binary64 floats, which compute exactly what
      the script computes (round to nearest, ties to even);
    - [Exact]: the real numbers, the arithmetic the geometric description
      of the forces is phrased in.
    Properties of the control flow are proved for every reading; properties
    of magnitudes are proved for the reading they are stated in.

    Quantities that are integers in the script (array lengths, the star
    count, trail capacities) are integers here. *)

From Stdlib Require Import ZArith QArith Reals Lra Lia List Bool Floats.
Import ListNotations.

Set Implicit Arguments.

(* ================================================================== *)
(** * Numbers *)
(* ================================================================== *)

(** The operations of JavaScript's [Number] that the script uses.
    [lit q] is the decimal literal written [q] in the source. *)
Class JsNum (num : Type) : Type := {
  lit   : Q -> num;
  add   : num -> num -> num;
  sub   : num -> num -> num;
  mul   : num -> num -> num;
  div   : num -> num -> num;
  neg   : num -> num;
  ltb   : num -> num -> bool;          (* a < b  *)
  leb   : num -> num -> bool;          (* a <= b *)
  sqrt  : num -> num;                  (* Math.sqrt *)
  floor : num -> Z;                    (* Math.floor, an integer *)
  max   : num -> num -> num;           (* Math.max *)
  PI    : num;                         (* Math.PI *)
}.

(** [Math.sin] and [Math.cos]: ECMAScript leaves their results
    implementation-approximated, so they stay an interface. *)
Class JsTrig (num : Type) : Type := {
  sin : num -> num;
  cos : num -> num;
}.

Arguments lit {num _} q%_Q.

Declare Scope js_scope.
Delimit Scope js_scope with js.
Notation "a + b" := (add a b) : js_scope.
Notation "a - b" := (sub a b) : js_scope.
Notation "a * b" := (mul a b) : js_scope.
Notation "a / b" := (div a b) : js_scope.
Notation "- a" := (neg a) : js_scope.
Notation "a <? b" := (ltb a b) : js_scope.
Notation "a >? b" := (ltb b a) : js_scope.
Notation "a <=? b" := (leb a b) : js_scope.

(** ** Binary64 *)

Module F64.

Definition of_Z (z : Z) : float :=
  match z with
  | Z0 => PrimFloat.zero
  | Zpos _ => PrimFloat.of_uint63 (Uint63.of_Z z)
  | Zneg p => PrimFloat.opp (PrimFloat.of_uint63 (Uint63.of_Z (Zpos p)))
  end.

(** A decimal literal [n/d] (with [n] and [d] below 2^53, hence exact)
    is the correctly rounded quotient, which is what the one rounding of
    the division yields. *)
Definition lit (q : Q) : float :=
  PrimFloat.div (of_Z (Qnum q)) (of_Z (Zpos (Qden q))).

(** [Math.floor], on finite values.  The script applies it to [W * H / 5200]
    and to a draw times 18, which are finite for the sizes of a window;
    0 stands for NaN and the infinities, which [Math.floor] returns as
    they are. *)
Definition floor (x : float) : Z :=
  match Prim2SF x with
  | S754_finite s m e =>
      let v := if s then Zneg m else Zpos m in
      if (0 <=? e)%Z then Z.shiftl v e else Z.shiftr v (- e)
  | _ => 0%Z
  end.

(** [Math.max]: NaN if either argument is, and +0 above -0. *)
Definition max (a b : float) : float :=
  if PrimFloat.is_nan a then a
  else if PrimFloat.is_nan b then b
  else if PrimFloat.ltb a b then b
  else if PrimFloat.ltb b a then a
  else if PrimFloat.get_sign a then b else a.

Definition PI : float := 0x1.921fb54442d18p+1%float.

End F64.

#[export] Instance F64_num : JsNum float := {|
  lit   := F64.lit;
  add   := PrimFloat.add;
  sub   := PrimFloat.sub;
  mul   := PrimFloat.mul;
  div   := PrimFloat.div;
  neg   := PrimFloat.opp;
  ltb   := PrimFloat.ltb;
  leb   := PrimFloat.leb;
  sqrt  := PrimFloat.sqrt;
  floor := F64.floor;
  max   := F64.max;
  PI    := F64.PI;
|}.

(** ** Exact arithmetic *)

(** The exact reading idealises: it has no rounding, no NaN and no
    infinities, its comparisons are those of the reals, and [x / 0] is 0
    as in Rocq's reals.  What is proved in it alone says so; where the
    rounding of binary64 changes what the script does (a damping that
    stalls, a range whose upper end is reached, a clock that drifts, a
    quotient by 0), the binary64 fact is proved beside it. *)

Module Exact.

Definition ltb (a b : R) : bool := if Rlt_dec a b then true else false.
Definition leb (a b : R) : bool := if Rle_dec a b then true else false.

Lemma ltb_true (a b : R) : ltb a b = true <-> (a < b)%R.
Proof. unfold ltb; destruct (Rlt_dec a b); split; intros; auto; discriminate. Qed.

Lemma ltb_false (a b : R) : ltb a b = false <-> (b <= a)%R.
Proof.
  unfold ltb; destruct (Rlt_dec a b); split; intros; auto; try discriminate; lra.
Qed.

Lemma leb_true (a b : R) : leb a b = true <-> (a <= b)%R.
Proof. unfold leb; destruct (Rle_dec a b); split; intros; auto; discriminate. Qed.

Lemma leb_false (a b : R) : leb a b = false <-> (b < a)%R.
Proof.
  unfold leb; destruct (Rle_dec a b); split; intros; auto; try discriminate; lra.
Qed.

End Exact.

#[export] Instance Exact_num : JsNum R := {|
  lit   := Q2R;
  add   := Rplus;
  sub   := Rminus;
  mul   := Rmult;
  div   := Rdiv;
  neg   := Ropp;
  ltb   := Exact.ltb;
  leb   := Exact.leb;
  sqrt  := R_sqrt.sqrt;
  floor := Int_part;
  max   := Rmax;
  PI    := Rtrigo1.PI;
|}.

#[export] Instance Exact_trig : JsTrig R := {|
  sin := Rtrigo_def.sin;
  cos := Rtrigo_def.cos;
|}.

(* ================================================================== *)
(** * Randomness *)
(* ================================================================== *)

(** [Math.random] is the only source of nondeterminism.  A computation
    reads from a fixed sequence of draws and advances its position in it. *)
Section Random.
Variable num : Type.

Record Rng : Type := mkRng {
  draws : nat -> num;     (* the values Math.random will return *)
  next  : nat;            (* how many have been consumed *)
}.

Definition M (A : Type) : Type := Rng -> A * Rng.

Definition ret {A} (a : A) : M A := fun g => (a, g).

Definition bind {A B} (c : M A) (k : A -> M B) : M B :=
  fun g => let (a, g') := c g in k a g'.

(** [Math.random()] *)
Definition random : M num :=
  fun g => (draws g (next g), mkRng (draws g) (S (next g))).

(** [for (let i = 0; i < n; i++) acc.push(c())] *)
Fixpoint pushEach {A} (n : nat) (c : M A) (acc : list A) : M (list A) :=
  match n with
  | O => ret acc
  | S n' => bind c (fun a => pushEach n' c (acc ++ [a]))
  end.

End Random.

Arguments ret {num A} a.
Arguments bind {num A B} c k.
Arguments random {num}.
Arguments pushEach {num A} n c acc.

Notation "x <- c ;; k" := (bind c (fun x => k))
  (at level 61, c at next level, right associativity).

(* ================================================================== *)
(** * The scene *)
(* ================================================================== *)

(** The colour palette [PAL]. *)
Definition Color : Type := (Z * Z * Z)%type.

Module PAL.
Definition gold       : Color := (253, 230, 138)%Z.
Definition brightGold : Color := (255, 210, 60)%Z.
Definition white      : Color := (255, 255, 245)%Z.
Definition paleBlue   : Color := (170, 200, 255)%Z.
End PAL.

Section Scene.
Context {num : Type} {NUM : JsNum num}.
Local Open Scope js_scope.

(** A star's trail sample [{x, y}]. *)
Record Point : Type := mkPoint { p_x : num; p_y : num }.

(** The object built by [makeStar]. *)
Record Star : Type := mkStar {
  s_x : num;  s_y : num;
  s_vx : num; s_vy : num;
  s_size : num;
  s_baseSize : num;
  s_color : Color;
  s_twinkleK : num;
  s_twinkleP : num;
  s_trail : list Point;
  s_maxTrail : Z;
}.

(** A shooting star's trail sample [{x, y, a}]. *)
Record Streak : Type := mkStreak { k_x : num; k_y : num; k_a : num }.

(** The object built by [spawnShootingStar]. *)
Record ShootingStar : Type := mkShootingStar {
  ss_x : num;  ss_y : num;
  ss_vx : num; ss_vy : num;
  ss_life : num;
  ss_decay : num;
  ss_trail : list Streak;
  ss_maxTrail : Z;
  ss_size : num;
}.

(** An entry of [vortexCenters]: [{x, y, str, r}]. *)
Record Vortex : Type := mkVortex {
  vt_x : num; vt_y : num; vt_str : num; vt_r : num;
}.

(** [mouse = {x, y}], each a number or [null]. *)
Record Mouse : Type := mkMouse { m_x : option num; m_y : option num }.

(** The variables of the script's closure. *)
Record Scene : Type := mkScene {
  W : num;
  H : num;
  mouse : Mouse;
  stars : list Star;
  shootingStars : list ShootingStar;
  vortexCenters : list Vortex;
  time : num;
  scrollDim : num;
}.

(** A [null] operand of an arithmetic operator converts to [+0]. *)
Definition toNumber (v : option num) : num :=
  match v with Some n => n | None => lit 0 end.

(* ---------------------------------------------------------------- *)
(** ** Resize and vortex layout *)

Definition layout (w h : num) : list Vortex :=
  [ mkVortex (w * lit 0.25) (h * lit 0.22) (lit 0.70)     (w * lit 0.16);
    mkVortex (w * lit 0.62) (h * lit 0.14) (- lit 0.55)   (w * lit 0.14);
    mkVortex (w * lit 0.45) (h * lit 0.48) (lit 0.45)     (w * lit 0.18);
    mkVortex (w * lit 0.12) (h * lit 0.60) (- lit 0.35)   (w * lit 0.12);
    mkVortex (w * lit 0.80) (h * lit 0.38) (lit 0.60)     (w * lit 0.15) ].

(** [resize()], given [window.innerWidth] and [window.innerHeight]. *)
Definition resize (innerWidth innerHeight : num) (sc : Scene) : Scene :=
  mkScene innerWidth innerHeight (mouse sc) (stars sc) (shootingStars sc)
          (layout innerWidth innerHeight) (time sc) (scrollDim sc).

(* ---------------------------------------------------------------- *)
(** ** Star factory *)

Definition makeStar (w h : num) : M num Star :=
  rnd <- random ;;
  band <- (if rnd <? lit 0.04 then
             r <- random ;; ret (PAL.white, lit 2.2 + r * lit 2.8, lit 0.25)
           else if rnd <? lit 0.14 then
             r <- random ;; ret (PAL.paleBlue, lit 1 + r * lit 1.8, lit 0.40)
           else if rnd <? lit 0.32 then
             r <- random ;; ret (PAL.brightGold, lit 1 + r * lit 2.2, lit 0.35)
           else
             r <- random ;; ret (PAL.gold, lit 0.4 + r * lit 1.6, lit 0.50)) ;;
  let '(col, sz, spd) := band in
  rx <- random ;;
  ry <- random ;;
  rvx <- random ;;
  rvy <- random ;;
  rk <- random ;;
  rp <- random ;;
  rt <- random ;;
  ret {| s_x := rx * w;
         s_y := ry * h;
         s_vx := (rvx - lit 0.5) * spd;
         s_vy := (rvy - lit 0.5) * spd;
         s_size := sz;
         s_baseSize := sz;
         s_color := col;
         s_twinkleK := lit 0.018 + rk * lit 0.035;
         s_twinkleP := rp * PI * lit 2;
         s_trail := [];
         s_maxTrail := 12 + floor (rt * lit 18) |}.

(** [count] of [initStars]. *)
Definition starCount (w h : num) : Z :=
  Z.min 280 (floor ((w * h) / lit 5200)).

Definition initStars (sc : Scene) : M num Scene :=
  let count := starCount (W sc) (H sc) in
  sts <- pushEach (Z.to_nat count) (makeStar (W sc) (H sc)) [] ;;
  ret (mkScene (W sc) (H sc) (mouse sc) sts (shootingStars sc)
               (vortexCenters sc) (time sc) (scrollDim sc)).

(* ---------------------------------------------------------------- *)
(** ** Shooting star *)

Definition spawnShootingStar {TRIG : JsTrig num} (w h : num) : M num ShootingStar :=
  ra <- random ;;
  let angle := PI / lit 4 + (ra - lit 0.5) * lit 0.6 in
  rs <- random ;;
  let speed := lit 10 + rs * lit 10 in
  rx <- random ;;
  ry <- random ;;
  rd <- random ;;
  rz <- random ;;
  ret {| ss_x := rx * w * lit 0.8;
         ss_y := ry * h * lit 0.35;
         ss_vx := cos angle * speed;
         ss_vy := sin angle * speed;
         ss_life := lit 1;
         ss_decay := lit 0.014 + rd * lit 0.012;
         ss_trail := [];
         ss_maxTrail := 28;
         ss_size := lit 1.4 + rz * lit 1.2 |}.

(* ---------------------------------------------------------------- *)
(** ** Physics update *)

(** Assignments to the fields of a star. *)
Definition set_size (s : Star) (sz : num) : Star :=
  mkStar (s_x s) (s_y s) (s_vx s) (s_vy s) sz (s_baseSize s) (s_color s)
         (s_twinkleK s) (s_twinkleP s) (s_trail s) (s_maxTrail s).

Definition set_vel (s : Star) (vx vy : num) : Star :=
  mkStar (s_x s) (s_y s) vx vy (s_size s) (s_baseSize s) (s_color s)
         (s_twinkleK s) (s_twinkleP s) (s_trail s) (s_maxTrail s).

Definition set_pos (s : Star) (x y : num) : Star :=
  mkStar x y (s_vx s) (s_vy s) (s_size s) (s_baseSize s) (s_color s)
         (s_twinkleK s) (s_twinkleP s) (s_trail s) (s_maxTrail s).

Definition set_trail (s : Star) (t : list Point) : Star :=
  mkStar (s_x s) (s_y s) (s_vx s) (s_vy s) (s_size s) (s_baseSize s)
         (s_color s) (s_twinkleK s) (s_twinkleP s) t (s_maxTrail s).

(** Twinkling. *)
Definition twinkle {TRIG : JsTrig num} (t : num) (s : Star) : Star :=
  set_size s
    (s_baseSize s *
     (lit 0.65 + lit 0.35 * sin (t * s_twinkleK s * lit 60 + s_twinkleP s))).

(** The body of the loop over [vortexCenters], for one centre. *)
Definition vortexForce (vt : Vortex) (s : Star) : Star :=
  let dx := s_x s - vt_x vt in
  let dy := s_y s - vt_y vt in
  let d  := sqrt (dx * dx + dy * dy) in
  if (d <? vt_r vt) && (d >? lit 1) then
    let f := (lit 1 - d / vt_r vt) * vt_str vt * lit 0.25 in
    (* tangential (rotation) *)
    let vx1 := s_vx s + (- dy / d) * f in
    let vy1 := s_vy s + (dx / d) * f in
    (* slight centripetal pull *)
    let vx2 := vx1 - (dx / d) * f * lit 0.08 in
    let vy2 := vy1 - (dy / d) * f * lit 0.08 in
    set_vel s vx2 vy2
  else s.

Definition vortexForces (vcs : list Vortex) (s : Star) : Star :=
  fold_left (fun acc vt => vortexForce vt acc) vcs s.

(** Mouse influence. *)
Definition mouseForce (m : Mouse) (s : Star) : Star :=
  match m_x m with
  | None => s
  | Some mx =>
      let dx := s_x s - mx in
      let dy := s_y s - toNumber (m_y m) in
      let d  := sqrt (dx * dx + dy * dy) in
      if (d <? lit 280) && (d >? lit 1) then
        let f := (lit 1 - d / lit 280) * lit 0.45 in
        set_vel s (s_vx s + (- dy / d) * f) (s_vy s + (dx / d) * f)
      else s
  end.

(** Damping. *)
Definition damp (s : Star) : Star :=
  set_vel s (s_vx s * lit 0.975) (s_vy s * lit 0.975).

(** Move. *)
Definition move (s : Star) : Star :=
  set_pos s (s_x s + s_vx s) (s_y s + s_vy s).

(** Wrap edges: the four tests in sequence, and the [wrapped] flag. *)
Definition wrapEdges (w h : num) (s : Star) : Star * bool :=
  let x0 := s_x s in
  let y0 := s_y s in
  let '(x1, b1) :=
    if x0 <? - lit 20 then (x0 + (w + lit 40), true) else (x0, false) in
  let '(x2, b2) :=
    if x1 >? w + lit 20 then (x1 - (w + lit 40), true) else (x1, b1) in
  let '(y1, b3) :=
    if y0 <? - lit 20 then (y0 + (h + lit 40), true) else (y0, b2) in
  let '(y2, b4) :=
    if y1 >? h + lit 20 then (y1 - (h + lit 40), true) else (y1, b3) in
  (set_pos s x2 y2, b4).

(** [if (wrapped) s.trail.length = 0] *)
Definition clearIfWrapped (sb : (Star * bool)%type) : Star :=
  let (s, wrapped) := sb in
  if wrapped then set_trail s [] else s.

(** Trail: push the position, drop the oldest sample beyond capacity. *)
Definition sampleTrail (s : Star) : Star :=
  let t := s_trail s ++ [mkPoint (s_x s) (s_y s)] in
  set_trail s (if (Z.of_nat (length t) >? s_maxTrail s)%Z then tl t else t).

(** The star as the trail step finds it. *)
Definition beforeSample {TRIG : JsTrig num}
    (t : num) (vcs : list Vortex) (m : Mouse) (w h : num) (s : Star) : Star :=
  clearIfWrapped
    (wrapEdges w h (move (damp (mouseForce m (vortexForces vcs (twinkle t s)))))).

(** The body of the loop over [stars]. *)
Definition updateStar {TRIG : JsTrig num}
    (t : num) (vcs : list Vortex) (m : Mouse) (w h : num) (s : Star) : Star :=
  sampleTrail (beforeSample t vcs m w h s).

(** The body of the loop over [shootingStars], up to the removal. *)
Definition advance (ss : ShootingStar) : ShootingStar :=
  let x := ss_x ss + ss_vx ss in
  let y := ss_y ss + ss_vy ss in
  let life := ss_life ss - ss_decay ss in
  let t := ss_trail ss ++ [mkStreak x y life] in
  mkShootingStar x y (ss_vx ss) (ss_vy ss) life (ss_decay ss)
    (if (Z.of_nat (length t) >? ss_maxTrail ss)%Z then tl t else t)
    (ss_maxTrail ss) (ss_size ss).

(** [a[i] = v] and [a.splice(i, 1)] on an array with [i] in range. *)
Definition assign {A} (i : nat) (v : A) (a : list A) : list A :=
  firstn i a ++ v :: skipn (S i) a.

Definition splice1 {A} (i : nat) (a : list A) : list A :=
  firstn i a ++ skipn (S i) a.

(** [for (let i = n - 1; i >= 0; i--)] over the shooting stars. *)
Fixpoint shootingLoop (n : nat) (a : list ShootingStar) : list ShootingStar :=
  match n with
  | O => a
  | S i =>
      match nth_error a i with
      | None => shootingLoop i a
      | Some ss =>
          let ss' := advance ss in
          let a' := assign i ss' a in
          shootingLoop i (if ss_life ss' <=? lit 0 then splice1 i a' else a')
      end
  end.

(** Maybe spawn a shooting star. *)
Definition maybeSpawn {TRIG : JsTrig num} (sc : Scene) : M num (list ShootingStar) :=
  rnd <- random ;;
  if (rnd <? lit 0.0025) && (length (shootingStars sc) <? 2)%nat then
    ss <- spawnShootingStar (W sc) (H sc) ;;
    ret (shootingStars sc ++ [ss])
  else ret (shootingStars sc).

(** [update()] *)
Definition update {TRIG : JsTrig num} (sc : Scene) : M num Scene :=
  let t := time sc + lit 0.016 in
  sh <- maybeSpawn sc ;;
  let sts := map (updateStar t (vortexCenters sc) (mouse sc) (W sc) (H sc))
                 (stars sc) in
  ret (mkScene (W sc) (H sc) (mouse sc) sts (shootingLoop (length sh) sh)
               (vortexCenters sc) t (scrollDim sc)).

(* ---------------------------------------------------------------- *)
(** ** Event listeners and boot *)

(** The dim factor the scroll listener computes from [window.scrollY]
    and [window.innerHeight]. *)
Definition dimFactor (scrollY vh : num) : num :=
  max (lit 0.35) (lit 1 - scrollY / (vh * lit 1.8)).

Definition onScroll (scrollY vh : num) (sc : Scene) : Scene :=
  mkScene (W sc) (H sc) (mouse sc) (stars sc) (shootingStars sc)
          (vortexCenters sc) (time sc) (dimFactor scrollY vh).

Definition set_mouse (m : Mouse) (sc : Scene) : Scene :=
  mkScene (W sc) (H sc) m (stars sc) (shootingStars sc)
          (vortexCenters sc) (time sc) (scrollDim sc).

Definition onMouseMove (clientX clientY : num) : Scene -> Scene :=
  set_mouse (mkMouse (Some clientX) (Some clientY)).

Definition onMouseOut : Scene -> Scene :=
  set_mouse (mkMouse None None).

Definition onResize (innerWidth innerHeight : num) (sc : Scene) : M num Scene :=
  initStars (resize innerWidth innerHeight sc).

(** What reaches the script: an animation frame or a window event. *)
Inductive Event : Type :=
| Frame
| ResizeTo (innerWidth innerHeight : num)
| MouseMove (clientX clientY : num)
| MouseOut
| ScrollTo (scrollY innerHeight : num).

Definition handle {TRIG : JsTrig num} (e : Event) (sc : Scene) : M num Scene :=
  match e with
  | Frame => update sc
  | ResizeTo w h => onResize w h sc
  | MouseMove x y => ret (onMouseMove x y sc)
  | MouseOut => ret (onMouseOut sc)
  | ScrollTo y vh => ret (onScroll y vh sc)
  end.

Fixpoint run {TRIG : JsTrig num} (es : list Event) (sc : Scene) : M num Scene :=
  match es with
  | [] => ret sc
  | e :: es' => sc' <- handle e sc ;; run es' sc'
  end.

(** The closure's variables before boot ([W] and [H] are assigned by the
    first [resize] before anything reads them), and boot. *)
Definition scene0 : Scene :=
  mkScene (lit 0) (lit 0) (mkMouse None None) [] [] [] (lit 0) (lit 1).

Definition boot (innerWidth innerHeight : num) : M num Scene :=
  onResize innerWidth innerHeight scene0.

End Scene.

(* ================================================================== *)
(** * Properties of the control flow, in every reading *)
(* ================================================================== *)

Section Generic.
Context {num : Type} {NUM : JsNum num}.
Local Open Scope js_scope.

(** ** Fields a step leaves alone *)

Lemma vortexForce_keeps (vt : Vortex) (s : Star) :
  s_x (vortexForce vt s) = s_x s /\ s_y (vortexForce vt s) = s_y s /\
  s_trail (vortexForce vt s) = s_trail s /\
  s_maxTrail (vortexForce vt s) = s_maxTrail s /\
  s_baseSize (vortexForce vt s) = s_baseSize s /\
  s_size (vortexForce vt s) = s_size s.
Proof.
  unfold vortexForce.
  destruct (_ && _); simpl; repeat split; reflexivity.
Qed.

Lemma vortexForces_keeps (vcs : list Vortex) (s : Star) :
  s_x (vortexForces vcs s) = s_x s /\ s_y (vortexForces vcs s) = s_y s /\
  s_trail (vortexForces vcs s) = s_trail s /\
  s_maxTrail (vortexForces vcs s) = s_maxTrail s /\
  s_baseSize (vortexForces vcs s) = s_baseSize s /\
  s_size (vortexForces vcs s) = s_size s.
Proof.
  unfold vortexForces. revert s.
  induction vcs as [|vt vcs IH]; intros s; simpl.
  - repeat split; reflexivity.
  - destruct (IH (vortexForce vt s)) as (a & b & c & d & e & f).
    destruct (vortexForce_keeps vt s) as (a' & b' & c' & d' & e' & f').
    repeat split; congruence.
Qed.

Lemma mouseForce_keeps (m : Mouse) (s : Star) :
  s_trail (mouseForce m s) = s_trail s /\
  s_maxTrail (mouseForce m s) = s_maxTrail s /\
  s_baseSize (mouseForce m s) = s_baseSize s /\
  s_size (mouseForce m s) = s_size s.
Proof.
  unfold mouseForce.
  destruct (m_x m); [destruct (_ && _)|]; simpl; repeat split; reflexivity.
Qed.

Lemma wrapEdges_keeps (w h : num) (s : Star) :
  s_trail (fst (wrapEdges w h s)) = s_trail s /\
  s_maxTrail (fst (wrapEdges w h s)) = s_maxTrail s /\
  s_baseSize (fst (wrapEdges w h s)) = s_baseSize s /\
  s_size (fst (wrapEdges w h s)) = s_size s.
Proof.
  unfold wrapEdges.
  repeat match goal with |- context [if ?c then _ else _] => destruct c end;
    simpl; repeat split; reflexivity.
Qed.

Lemma clearIfWrapped_keeps (sb : (@Star num * bool)%type) :
  s_maxTrail (clearIfWrapped sb) = s_maxTrail (fst sb) /\
  s_baseSize (clearIfWrapped sb) = s_baseSize (fst sb) /\
  s_size (clearIfWrapped sb) = s_size (fst sb).
Proof. destruct sb as [s []]; simpl; repeat split; reflexivity. Qed.

Lemma clearIfWrapped_trail (sb : (@Star num * bool)%type) :
  s_trail (clearIfWrapped sb) = if snd sb then [] else s_trail (fst sb).
Proof. destruct sb as [s []]; reflexivity. Qed.

Section WithTrig.
Context {TRIG : JsTrig num}.

Lemma beforeSample_maxTrail t vcs m w h (s : Star) :
  s_maxTrail (beforeSample t vcs m w h s) = s_maxTrail s.
Proof.
  unfold beforeSample.
  destruct (clearIfWrapped_keeps
    (wrapEdges w h (move (damp (mouseForce m (vortexForces vcs (twinkle t s)))))))
    as (-> & _).
  destruct (wrapEdges_keeps w h
    (move (damp (mouseForce m (vortexForces vcs (twinkle t s))))))
    as (_ & -> & _).
  simpl.
  destruct (mouseForce_keeps m (vortexForces vcs (twinkle t s))) as (_ & -> & _).
  destruct (vortexForces_keeps vcs (twinkle t s)) as (_ & _ & _ & -> & _).
  reflexivity.
Qed.

Lemma beforeSample_baseSize t vcs m w h (s : Star) :
  s_baseSize (beforeSample t vcs m w h s) = s_baseSize s.
Proof.
  unfold beforeSample.
  destruct (clearIfWrapped_keeps
    (wrapEdges w h (move (damp (mouseForce m (vortexForces vcs (twinkle t s)))))))
    as (_ & -> & _).
  destruct (wrapEdges_keeps w h
    (move (damp (mouseForce m (vortexForces vcs (twinkle t s))))))
    as (_ & _ & -> & _).
  simpl.
  destruct (mouseForce_keeps m (vortexForces vcs (twinkle t s))) as (_ & _ & -> & _).
  destruct (vortexForces_keeps vcs (twinkle t s)) as (_ & _ & _ & _ & -> & _).
  reflexivity.
Qed.

Lemma beforeSample_size t vcs m w h (s : Star) :
  s_size (beforeSample t vcs m w h s) = s_size (twinkle t s).
Proof.
  unfold beforeSample.
  destruct (clearIfWrapped_keeps
    (wrapEdges w h (move (damp (mouseForce m (vortexForces vcs (twinkle t s)))))))
    as (_ & _ & ->).
  destruct (wrapEdges_keeps w h
    (move (damp (mouseForce m (vortexForces vcs (twinkle t s))))))
    as (_ & _ & _ & ->).
  simpl.
  destruct (mouseForce_keeps m (vortexForces vcs (twinkle t s))) as (_ & _ & _ & ->).
  destruct (vortexForces_keeps vcs (twinkle t s)) as (_ & _ & _ & _ & _ & ->).
  reflexivity.
Qed.

End WithTrig.

(* ---------------------------------------------------------------- *)
(** ** The random source is only read *)

Definition keepsDraws {A} (c : M num A) : Prop :=
  forall g, draws (snd (c g)) = draws g.

Lemma keeps_ret {A} (a : A) : keepsDraws (ret a).
Proof. intros g; reflexivity. Qed.

Lemma keeps_random : keepsDraws random.
Proof. intros g; reflexivity. Qed.

Lemma keeps_bind {A B} (c : M num A) (k : A -> M num B) :
  keepsDraws c -> (forall a, keepsDraws (k a)) -> keepsDraws (bind c k).
Proof.
  intros Hc Hk g. unfold bind.
  specialize (Hc g). destruct (c g) as [a g']. simpl in Hc.
  rewrite Hk. exact Hc.
Qed.

Lemma keeps_pushEach {A} (n : nat) (c : M num A) :
  keepsDraws c -> forall acc, keepsDraws (pushEach n c acc).
Proof.
  intros Hc. induction n as [|n IH]; intros acc; simpl.
  - apply keeps_ret.
  - apply keeps_bind; [exact Hc | intros a; apply IH].
Qed.

Ltac keeps :=
  repeat first
    [ apply keeps_ret | apply keeps_random
    | apply keeps_bind; [| intros ?]
    | match goal with
      | |- keepsDraws (if ?c then _ else _) => destruct c
      | |- keepsDraws (let '(_, _) := ?p in _) => destruct p
      end ].

Lemma keeps_makeStar (w h : num) : keepsDraws (makeStar w h).
Proof. unfold makeStar. keeps. Qed.

Lemma keeps_initStars (sc : Scene) : keepsDraws (initStars sc).
Proof.
  unfold initStars. apply keeps_bind; [| intros ?; apply keeps_ret].
  apply keeps_pushEach, keeps_makeStar.
Qed.

(* ---------------------------------------------------------------- *)
(** ** What the factories build *)

Lemma pushEach_length {A} (n : nat) (c : M num A) :
  forall acc g, length (fst (pushEach n c acc g)) = (length acc + n)%nat.
Proof.
  induction n as [|n IH]; intros acc g; simpl.
  - unfold ret; simpl. lia.
  - unfold bind. destruct (c g) as [a g'].
    rewrite IH, length_app. simpl. lia.
Qed.

Lemma pushEach_Forall {A} (P : A -> Prop) (Q : Rng num -> Prop) (c : M num A) :
  (forall g, Q g -> P (fst (c g)) /\ Q (snd (c g))) ->
  forall n acc g, Q g -> Forall P acc -> Forall P (fst (pushEach n c acc g)).
Proof.
  intros Hc. induction n as [|n IH]; intros acc g Hg Hacc; simpl.
  - exact Hacc.
  - unfold bind. destruct (Hc g Hg) as [Hp Hq].
    destruct (c g) as [a g']. simpl in *.
    apply IH; [exact Hq|].
    apply Forall_app; split; [exact Hacc | constructor; [exact Hp | constructor]].
Qed.

(** Every capacity [12 + Math.floor(Math.random() * 18)] the source can
    yield is a capacity, that is, not negative. *)
Definition capacityDraws (g : Rng num) : Prop :=
  forall i, (0 <= 12 + floor (draws g i * lit 18)%js)%Z.

Lemma makeStar_fresh (w h : num) (g : Rng num) :
  s_trail (fst (makeStar w h g)) = [] /\
  s_size (fst (makeStar w h g)) = s_baseSize (fst (makeStar w h g)) /\
  exists i, s_maxTrail (fst (makeStar w h g)) = (12 + floor (draws g i * lit 18)%js)%Z.
Proof.
  unfold makeStar, bind, random, ret; simpl.
  repeat match goal with |- context [if ?c then _ else _] => destruct c end;
    simpl; repeat split; eexists; reflexivity.
Qed.

(* ---------------------------------------------------------------- *)
(** ** Trails of stars *)

Definition trailBounded (s : @Star num) : Prop :=
  (Z.of_nat (length (s_trail s)) <= s_maxTrail s)%Z.

Lemma sampleTrail_length (s : Star) :
  (0 <= s_maxTrail s)%Z ->
  (Z.of_nat (length (s_trail s)) <= s_maxTrail s)%Z ->
  trailBounded (sampleTrail s).
Proof.
  intros H0 Hn. unfold trailBounded, sampleTrail. simpl.
  destruct (Z.gtb_spec (Z.of_nat (length (s_trail s ++ [mkPoint (s_x s) (s_y s)])))
                       (s_maxTrail s)) as [Hgt|Hle].
  - destruct (s_trail s) as [|p t]; simpl in *.
    + exact H0.
    + rewrite length_app; simpl. rewrite length_app in Hgt; simpl in Hgt. lia.
  - exact Hle.
Qed.

Lemma makeStar_bounded (w h : num) (g : Rng num) :
  capacityDraws g -> trailBounded (fst (makeStar w h g)).
Proof.
  intros Hg. unfold trailBounded.
  destruct (makeStar_fresh w h g) as (-> & _ & i & ->). simpl. apply Hg.
Qed.

Section Ticks.
Context {TRIG : JsTrig num}.

(** Whether this tick's wrap step moves the star. *)
Definition wrappedNow t vcs m w h (s : Star) : bool :=
  snd (wrapEdges w h (move (damp (mouseForce m (vortexForces vcs (twinkle t s)))))).

Lemma beforeSample_trail t vcs m w h (s : Star) :
  s_trail (beforeSample t vcs m w h s) =
  if wrappedNow t vcs m w h s then [] else s_trail s.
Proof.
  unfold beforeSample, wrappedNow. rewrite clearIfWrapped_trail.
  destruct (snd _); [reflexivity|].
  destruct (wrapEdges_keeps w h
    (move (damp (mouseForce m (vortexForces vcs (twinkle t s))))))
    as (-> & _).
  simpl.
  destruct (mouseForce_keeps m (vortexForces vcs (twinkle t s))) as (-> & _).
  destruct (vortexForces_keeps vcs (twinkle t s)) as (_ & _ & -> & _).
  reflexivity.
Qed.

Lemma updateStar_maxTrail t vcs m w h (s : Star) :
  s_maxTrail (updateStar t vcs m w h s) = s_maxTrail s.
Proof. unfold updateStar, sampleTrail; simpl. apply beforeSample_maxTrail. Qed.

Lemma updateStar_bounded t vcs m w h (s : Star) :
  trailBounded s -> trailBounded (updateStar t vcs m w h s).
Proof.
  intros Hs. unfold trailBounded in Hs.
  unfold updateStar. apply sampleTrail_length;
    rewrite beforeSample_maxTrail; [lia|].
  rewrite beforeSample_trail. destruct (wrappedNow _ _ _ _ _ _); simpl; lia.
Qed.

End Ticks.

(* ---------------------------------------------------------------- *)
(** ** The loop over the shooting stars *)

Definition alive (ss : @ShootingStar num) : bool :=
  negb (ss_life ss <=? lit 0).

(** The array the backwards loop leaves, described at once. *)
Definition survivors (a : list ShootingStar) : list ShootingStar :=
  filter alive (map advance a).

Lemma firstn_prefix {A} (l r : list A) : firstn (length l) (l ++ r) = l.
Proof. induction l as [|x l IH]; simpl; [destruct r|]; congruence. Qed.

Lemma skipn_past {A} (l : list A) (x : A) (r : list A) :
  skipn (S (length l)) (l ++ x :: r) = r.
Proof. induction l as [|y l IH]; simpl; [reflexivity | exact IH]. Qed.

Lemma nth_error_middle {A} (l : list A) (x : A) (r : list A) :
  nth_error (l ++ x :: r) (length l) = Some x.
Proof. induction l as [|y l IH]; simpl; [reflexivity | exact IH]. Qed.

Lemma survivors_snoc (l : list ShootingStar) (ss : ShootingStar) :
  survivors (l ++ [ss]) =
  survivors l ++ (if alive (advance ss) then [advance ss] else []).
Proof. unfold survivors. rewrite map_app, filter_app. reflexivity. Qed.

Lemma shootingLoop_step (i : nat) (a : list ShootingStar) (ss : ShootingStar) :
  nth_error a i = Some ss ->
  shootingLoop (S i) a =
  shootingLoop i (if ss_life (advance ss) <=? lit 0
                  then splice1 i (assign i (advance ss) a)
                  else assign i (advance ss) a).
Proof. intros E. simpl. rewrite E. reflexivity. Qed.

Lemma shootingLoop_prefix (pre : list ShootingStar) :
  forall post, shootingLoop (length pre) (pre ++ post) = survivors pre ++ post.
Proof.
  induction pre as [|ss pre IH] using rev_ind; intros post.
  - reflexivity.
  - rewrite length_app, Nat.add_comm, <- app_assoc.
    change (length [ss] + length pre)%nat with (S (length pre)).
    change ([ss] ++ post) with (ss :: post).
    rewrite (@shootingLoop_step (length pre) (pre ++ ss :: post) ss (nth_error_middle pre ss post)).
    unfold assign, splice1.
    rewrite firstn_prefix, skipn_past.
    rewrite firstn_prefix, skipn_past.
    rewrite survivors_snoc, <- app_assoc.
    unfold alive.
    destruct (ss_life (advance ss) <=? lit 0); simpl; apply IH.
Qed.

(** The loop removes exactly the shooting stars whose life, once
    decremented, is [<= 0], and advances the others in place. *)
Lemma shootingLoop_survivors (a : list ShootingStar) :
  shootingLoop (length a) a = survivors a.
Proof.
  rewrite <- (app_nil_r a) at 2.
  rewrite shootingLoop_prefix. apply app_nil_r.
Qed.

Lemma survivors_alive (a : list ShootingStar) :
  Forall (fun ss => (ss_life ss <=? lit 0) = false) (survivors a).
Proof.
  apply Forall_forall. intros ss Hin.
  apply filter_In in Hin. destruct Hin as [_ Hal].
  unfold alive in Hal. destruct (ss_life ss <=? lit 0); [discriminate | reflexivity].
Qed.

Lemma survivors_length (a : list ShootingStar) :
  (length (survivors a) <= length a)%nat.
Proof.
  unfold survivors.
  etransitivity; [apply filter_length_le | rewrite length_map; reflexivity].
Qed.

Lemma survivors_from (a : list ShootingStar) (ss' : ShootingStar) :
  In ss' (survivors a) -> exists ss, In ss a /\ ss' = advance ss.
Proof.
  intros Hin. apply filter_In in Hin. destruct Hin as [Hin _].
  apply in_map_iff in Hin. destruct Hin as (ss & <- & Hin).
  exists ss; split; [exact Hin | reflexivity].
Qed.

(* ---------------------------------------------------------------- *)
(** ** Scenes *)

Definition starsBounded (sc : @Scene num) : Prop :=
  Forall trailBounded (stars sc).

Definition shootingCapped (sc : @Scene num) : Prop :=
  (length (shootingStars sc) <= 2)%nat.

Section Frames.
Context {TRIG : JsTrig num}.

Lemma keeps_spawnShootingStar (w h : num) : keepsDraws (spawnShootingStar w h).
Proof. unfold spawnShootingStar. keeps. Qed.

Lemma keeps_maybeSpawn (sc : Scene) : keepsDraws (maybeSpawn sc).
Proof.
  unfold maybeSpawn. apply keeps_bind; [apply keeps_random | intros rnd].
  destruct (_ && _); [|apply keeps_ret].
  apply keeps_bind; [apply keeps_spawnShootingStar | intros ?; apply keeps_ret].
Qed.

Lemma keeps_update (sc : Scene) : keepsDraws (update sc).
Proof.
  unfold update.
  apply keeps_bind; [apply keeps_maybeSpawn | intros ?; apply keeps_ret].
Qed.

Lemma keeps_handle (e : Event) (sc : Scene) : keepsDraws (handle e sc).
Proof.
  destruct e; simpl; try apply keeps_ret.
  - apply keeps_update.
  - apply keeps_initStars.
Qed.

(** What [maybeSpawn] can yield: the array as it was, or, when it held
    fewer than two, the array with one more at its end. *)
Lemma maybeSpawn_cases (sc : Scene) (g : Rng num) :
  fst (maybeSpawn sc g) = shootingStars sc \/
  ((length (shootingStars sc) < 2)%nat /\
   (draws g (next g) <? lit 0.0025) = true /\
   fst (maybeSpawn sc g) =
     shootingStars sc ++
     [fst (spawnShootingStar (W sc) (H sc) (mkRng (draws g) (S (next g))))]).
Proof.
  unfold maybeSpawn, bind, random. cbv beta iota.
  destruct (draws g (next g) <? lit 0.0025); [|left; reflexivity].
  destruct (Nat.ltb_spec (length (shootingStars sc)) 2) as [Hlt|Hge];
    [|left; reflexivity].
  right. split; [exact Hlt|]. split; [reflexivity|].
  unfold ret. cbn [andb]. cbv beta.
  destruct (spawnShootingStar (W sc) (H sc) _) as [ss g']. reflexivity.
Qed.

Lemma maybeSpawn_capped (sc : Scene) (g : Rng num) :
  shootingCapped sc -> (length (fst (maybeSpawn sc g)) <= 2)%nat.
Proof.
  intros Hc. destruct (maybeSpawn_cases sc g) as [->|(Hlt & _ & ->)].
  - exact Hc.
  - rewrite length_app; simpl. lia.
Qed.

Lemma update_shootingStars (sc : Scene) (g : Rng num) :
  shootingStars (fst (update sc g)) = survivors (fst (maybeSpawn sc g)).
Proof.
  unfold update, bind, ret. destruct (maybeSpawn sc g) as [sh g']; simpl.
  apply shootingLoop_survivors.
Qed.

Lemma update_stars (sc : Scene) (g : Rng num) :
  stars (fst (update sc g)) =
  map (updateStar (time sc + lit 0.016) (vortexCenters sc) (mouse sc)
                  (W sc) (H sc)) (stars sc).
Proof.
  unfold update, bind, ret. destruct (maybeSpawn sc g) as [sh g']; reflexivity.
Qed.

Lemma update_capped (sc : Scene) (g : Rng num) :
  shootingCapped sc -> shootingCapped (fst (update sc g)).
Proof.
  intros Hc. unfold shootingCapped. rewrite update_shootingStars.
  etransitivity; [apply survivors_length | apply maybeSpawn_capped, Hc].
Qed.

Lemma update_bounded (sc : Scene) (g : Rng num) :
  starsBounded sc -> starsBounded (fst (update sc g)).
Proof.
  unfold starsBounded. intros Hb. rewrite update_stars.
  apply Forall_map. eapply Forall_impl; [|exact Hb].
  intros s. apply updateStar_bounded.
Qed.

Lemma initStars_bounded (sc : Scene) (g : Rng num) :
  capacityDraws g -> starsBounded (fst (initStars sc g)).
Proof.
  intros Hg. unfold starsBounded, initStars, bind, ret.
  destruct (pushEach _ _ _ g) as [sts g'] eqn:E. simpl.
  change sts with (fst (sts, g')). rewrite <- E.
  apply pushEach_Forall with (Q := capacityDraws); [|exact Hg|constructor].
  intros g0 Hg0. split; [apply makeStar_bounded, Hg0|].
  unfold capacityDraws. rewrite keeps_makeStar. exact Hg0.
Qed.

Lemma initStars_shootingStars (sc : Scene) (g : Rng num) :
  shootingStars (fst (initStars sc g)) = shootingStars sc.
Proof.
  unfold initStars, bind, ret. destruct (pushEach _ _ _ g); reflexivity.
Qed.

Lemma handle_capped (e : Event) (sc : Scene) (g : Rng num) :
  shootingCapped sc -> shootingCapped (fst (handle e sc g)).
Proof.
  intros Hc. destruct e; simpl; try exact Hc.
  - apply update_capped, Hc.
  - unfold shootingCapped, onResize. rewrite initStars_shootingStars. exact Hc.
Qed.

Lemma handle_bounded (e : Event) (sc : Scene) (g : Rng num) :
  capacityDraws g -> starsBounded sc -> starsBounded (fst (handle e sc g)).
Proof.
  intros Hg Hb. destruct e; simpl; try exact Hb.
  - apply update_bounded, Hb.
  - apply initStars_bounded, Hg.
Qed.

Lemma run_invariant (P : Scene -> Prop) (Q : Rng num -> Prop) :
  (forall e sc g, Q g -> P sc -> P (fst (handle e sc g))) ->
  (forall e sc g, Q g -> Q (snd (handle e sc g))) ->
  forall es sc g, Q g -> P sc -> P (fst (run es sc g)).
Proof.
  intros HP HQ. induction es as [|e es IH]; intros sc g Hg Hsc; simpl.
  - exact Hsc.
  - unfold bind. specialize (HP e sc g Hg Hsc). specialize (HQ e sc g Hg).
    destruct (handle e sc g) as [sc' g']. simpl in *. apply IH; assumption.
Qed.

End Frames.

End Generic.

(* ================================================================== *)
(** * Sessions *)
(* ================================================================== *)

Section Session.
Context {num : Type} {NUM : JsNum num} {TRIG : JsTrig num}.
Local Open Scope js_scope.

(** Boot, then the frames and window events that follow. *)
Definition session (innerWidth innerHeight : num) (es : list Event) : M num Scene :=
  sc <- boot innerWidth innerHeight ;; run es sc.

(** The four tests of the wrap step, on the position the move step left. *)
Definition outOfBounds (w h : num) (s : Star) : bool :=
  (s_x s <? - lit 20) || (s_x s >? w + lit 20) ||
  (s_y s <? - lit 20) || (s_y s >? h + lit 20).

(** The star as the wrap step finds it. *)
Definition moved (t : num) (vcs : list Vortex) (m : Mouse) (s : Star) : Star :=
  move (damp (mouseForce m (vortexForces vcs (twinkle t s)))).

(** The loop body with the mouse block left out. *)
Definition updateStarNoPointer
    (t : num) (vcs : list Vortex) (w h : num) (s : Star) : Star :=
  sampleTrail
    (clearIfWrapped (wrapEdges w h (move (damp (vortexForces vcs (twinkle t s)))))).

Lemma wrapEdges_flag (w h : num) (s : Star) :
  snd (wrapEdges w h s) = outOfBounds w h s.
Proof.
  unfold wrapEdges, outOfBounds.
  destruct (s_x s <? - lit 20); simpl.
  - repeat match goal with |- context [if ?c then _ else _] => destruct c end;
      reflexivity.
  - destruct (s_x s >? w + lit 20); simpl.
    + repeat match goal with |- context [if ?c then _ else _] => destruct c end;
        reflexivity.
    + destruct (s_y s <? - lit 20); simpl.
      * destruct (_ >? _); reflexivity.
      * destruct (s_y s >? h + lit 20); reflexivity.
Qed.

Lemma wrappedNow_outOfBounds t vcs m w h (s : Star) :
  wrappedNow t vcs m w h s = outOfBounds w h (moved t vcs m s).
Proof. unfold wrappedNow, moved. apply wrapEdges_flag. Qed.

Lemma sampleTrail_position (s : @Star num) :
  s_x (sampleTrail s) = s_x s /\ s_y (sampleTrail s) = s_y s.
Proof. split; reflexivity. Qed.

Lemma session_run (w h : num) (es : list Event) (g : Rng num) :
  session w h es g = run es (fst (boot w h g)) (snd (boot w h g)).
Proof. unfold session, bind. destruct (boot w h g); reflexivity. Qed.

Lemma boot_shootingStars (w h : num) (g : Rng num) :
  shootingStars (fst (boot w h g)) = [].
Proof. unfold boot, onResize. rewrite initStars_shootingStars. reflexivity. Qed.

Lemma capacityDraws_kept {A} (c : M num A) (g : Rng num) :
  keepsDraws c -> capacityDraws g -> capacityDraws (snd (c g)).
Proof. intros Hk Hg. unfold capacityDraws. rewrite Hk. exact Hg. Qed.

Lemma initStars_length (sc : Scene) (g : Rng num) :
  length (stars (fst (initStars sc g))) = Z.to_nat (starCount (W sc) (H sc)).
Proof.
  unfold initStars, bind, ret.
  destruct (pushEach _ _ _ g) as [sts g'] eqn:E. simpl.
  change sts with (fst (sts, g')). rewrite <- E.
  rewrite pushEach_length. reflexivity.
Qed.

End Session.

(* ================================================================== *)
(** * Exact arithmetic: the comparisons and the random source *)
(* ================================================================== *)

Module ExactFacts.
Local Open Scope R_scope.

Lemma lit_IZR (z : Z) : Q2R (inject_Z z) = IZR z.
Proof. unfold Q2R, inject_Z; simpl. lra. Qed.

Lemma Int_part_nonneg (r : R) : 0 <= r -> (0 <= Int_part r)%Z.
Proof.
  intros Hr. destruct (base_Int_part r) as [_ Hgt].
  apply Z.lt_succ_r, lt_IZR. rewrite succ_IZR. lra.
Qed.

(** [Math.random] returns a number in [[0, 1)]. *)
Definition unitDraws (g : Rng R) : Prop :=
  forall i, 0 <= draws g i < 1.

Lemma unitDraws_capacity (g : Rng R) : unitDraws g -> capacityDraws g.
Proof.
  intros Hg i. destruct (Hg i) as [Hlo _].
  change (0 <= 12 + Int_part (draws g i * Q2R 18))%Z.
  assert (0 <= Int_part (draws g i * Q2R 18))%Z; [|lia].
  apply Int_part_nonneg. unfold Q2R; simpl. lra.
Qed.

(** A source whose every draw is one half. *)
Definition halves : Rng R := mkRng (fun _ => / 2) 0.

Lemma halves_unit : unitDraws halves.
Proof. intros i; simpl; lra. Qed.

End ExactFacts.

(* ================================================================== *)
(** * Binary64: comparisons, signs and the random source *)
(* ================================================================== *)

Unset Implicit Arguments.

Module F64Facts.

Lemma SFcompare_antisym (x y : spec_float) :
  SFcompare x y = option_map CompOpp (SFcompare y x).
Proof.
  destruct x as [sx|sx| |sx mx ex], y as [sy|sy| |sy my ey]; simpl;
    try reflexivity;
    try (destruct sx; reflexivity); try (destruct sy; reflexivity);
    try (destruct sx, sy; reflexivity).
  destruct sx, sy; simpl; try reflexivity;
    rewrite (Z.compare_antisym ey ex);
    destruct (ey ?= ex)%Z eqn:E; simpl; try reflexivity;
    rewrite (Pos.compare_cont_antisym my mx Eq); simpl;
    try rewrite CompOpp_involutive; reflexivity.
Qed.

Lemma leb_not_ltb (a b : float) :
  PrimFloat.leb a b = true -> PrimFloat.ltb b a = false.
Proof.
  rewrite leb_spec, ltb_spec. unfold SFleb, SFltb.
  rewrite (SFcompare_antisym (Prim2SF b) (Prim2SF a)).
  destruct (SFcompare (Prim2SF a) (Prim2SF b)) as [[| |]|]; simpl;
    intros; try reflexivity; discriminate.
Qed.

Lemma round_sign (s : bool) (m e : Z) (l : location) :
  match binary_round_aux prec emax s m e l with
  | S754_finite s' _ _ => s' = s
  | _ => True
  end.
Proof.
  unfold binary_round_aux.
  destruct (shr_fexp prec emax m e l) as [mrs' e'].
  destruct (shr_fexp prec emax _ e' loc_Exact) as [mrs'' e''].
  destruct (shr_m mrs''); trivial.
  destruct (e'' <=? emax - prec)%Z; trivial.
Qed.

Lemma floor_nonneg (x : float) :
  match Prim2SF x with S754_finite true _ _ => False | _ => True end ->
  (0 <= F64.floor x)%Z.
Proof.
  unfold F64.floor. destruct (Prim2SF x) as [s|s| |s m e]; try lia.
  destruct s; [intros []|intros _].
  destruct (0 <=? e)%Z.
  - apply Z.shiftl_nonneg. lia.
  - apply Z.shiftr_nonneg. lia.
Qed.

Definition unitDraws (g : Rng float) : Prop :=
  forall i, PrimFloat.leb 0%float (draws g i) = true /\
            PrimFloat.ltb (draws g i) 1%float = true.

Lemma mul_nonneg_sign (r c : float) :
  PrimFloat.leb 0%float r = true ->
  PrimFloat.ltb 0%float c = true ->
  match Prim2SF (PrimFloat.mul r c) with S754_finite true _ _ => False | _ => True end.
Proof.
  rewrite leb_spec, ltb_spec, mul_spec.
  change (Prim2SF 0%float) with (S754_zero false).
  unfold SFleb, SFltb, SF64mul.
  destruct (Prim2SF r) as [sr|sr| |sr mr er], (Prim2SF c) as [sc|sc| |sc mc ec];
    simpl; try discriminate; try trivial;
    destruct sr, sc; simpl; try discriminate; try trivial.
  intros _ _.
  pose proof (round_sign false (Z.pos (mr * mc)) (er + ec) loc_Exact) as Hs.
  destruct (binary_round_aux prec emax false (Z.pos (mr * mc)) (er + ec) loc_Exact)
    as [s|s| |s m e]; trivial.
  subst s. trivial.
Qed.

Lemma unitDraws_capacity_F64 (g : Rng float) : unitDraws g -> capacityDraws g.
Proof.
  intros Hg i. destruct (Hg i) as [Hlo _].
  change (0 <= 12 + F64.floor (PrimFloat.mul (draws g i) (F64.lit 18)))%Z.
  assert (0 <= F64.floor (PrimFloat.mul (draws g i) (F64.lit 18)))%Z; [|lia].
  apply floor_nonneg, mul_nonneg_sign; [exact Hlo|].
  vm_compute. reflexivity.
Qed.

End F64Facts.

(* ================================================================== *)
(** * Binary64: rounding of a product by 0.975 *)
(* ================================================================== *)

(** The operations of binary64 are specified by [SpecFloat]: a finite
    number is a sign, a mantissa [m] and an exponent [e], of value
    [m * 2^e], and a product is the exact product shifted right and
    rounded to nearest, ties to even ([binary_round_aux]). *)
Module Round.
Local Open Scope Z_scope.

Definition dg (p : positive) : Z := Zpos (digits2_pos p).

Lemma fexp64 (z : Z) : fexp prec emax z = Z.max (z - 53) (-1074).
Proof. reflexivity. Qed.

Lemma dg_bounds (p : positive) : 2 ^ (dg p - 1) <= Zpos p < 2 ^ dg p.
Proof.
  unfold dg. induction p as [p IH|p IH|]; simpl digits2_pos.
  - rewrite Pos2Z.inj_succ.
    replace (Z.succ (Zpos (digits2_pos p)) - 1) with (Z.succ (Zpos (digits2_pos p) - 1)) by lia.
    rewrite !Z.pow_succ_r by lia. lia.
  - rewrite Pos2Z.inj_succ.
    replace (Z.succ (Zpos (digits2_pos p)) - 1) with (Z.succ (Zpos (digits2_pos p) - 1)) by lia.
    rewrite !Z.pow_succ_r by lia. lia.
  - simpl. lia.
Qed.

Lemma dg_pos (p : positive) : 1 <= dg p.
Proof. unfold dg. lia. Qed.

Lemma dg_unique (p : positive) (k : Z) :
  2 ^ (k - 1) <= Zpos p < 2 ^ k -> dg p = k.
Proof.
  intros [Hlo Hhi]. pose proof (dg_bounds p) as [Hlo' Hhi']. pose proof (dg_pos p).
  assert (1 <= k).
  { destruct (Z.lt_ge_cases k 1) as [Hk|Hk]; [|exact Hk].
    assert (2 ^ k <= 2 ^ 0) by (destruct (Z.lt_ge_cases k 0);
      [rewrite Z.pow_neg_r by lia; simpl; lia | apply Z.pow_le_mono_r; lia]).
    simpl in *. lia. }
  destruct (Z.lt_trichotomy (dg p) k) as [Hlt|[Heq|Hgt]]; [|exact Heq|].
  - assert (2 ^ dg p <= 2 ^ (k - 1)) by (apply Z.pow_le_mono_r; lia). lia.
  - assert (2 ^ k <= 2 ^ (dg p - 1)) by (apply Z.pow_le_mono_r; lia). lia.
Qed.

Lemma dg_mono (p q : positive) : (p <= q)%positive -> dg p <= dg q.
Proof.
  intros Hpq. pose proof (dg_bounds p) as [Hlo _]. pose proof (dg_bounds q) as [_ Hhi].
  pose proof (dg_pos p). pose proof (dg_pos q).
  destruct (Z.le_gt_cases (dg p) (dg q)) as [Hle|Hgt]; [exact Hle|].
  assert (2 ^ dg q <= 2 ^ (dg p - 1)) by (apply Z.pow_le_mono_r; lia).
  lia.
Qed.

Lemma shr_1_m (mrs : shr_record) :
  0 <= shr_m mrs -> shr_m (shr_1 mrs) = Z.div2 (shr_m mrs).
Proof.
  destruct mrs as [m r s]; simpl. intros Hm.
  destruct m as [|[p|p|]|p]; try reflexivity. lia.
Qed.

Lemma shr_iter_m (p : positive) :
  forall mrs, 0 <= shr_m mrs ->
    shr_m (iter_pos shr_1 p mrs) = Z.shiftr (shr_m mrs) (Zpos p).
Proof.
  induction p as [p IH|p IH|]; intros mrs Hm; simpl iter_pos.
  - assert (H1 : 0 <= shr_m (shr_1 mrs)).
    { rewrite shr_1_m by exact Hm. rewrite Z.div2_spec. apply Z.shiftr_nonneg, Hm. }
    assert (H2 : 0 <= shr_m (iter_pos shr_1 p (shr_1 mrs))).
    { rewrite IH by exact H1. apply Z.shiftr_nonneg, H1. }
    rewrite IH by exact H2. rewrite IH by exact H1. rewrite shr_1_m by exact Hm.
    rewrite Z.div2_spec, !Z.shiftr_shiftr by lia.
    f_equal. lia.
  - assert (H2 : 0 <= shr_m (iter_pos shr_1 p mrs)).
    { rewrite IH by exact Hm. apply Z.shiftr_nonneg, Hm. }
    rewrite IH by exact H2. rewrite IH by exact Hm.
    rewrite Z.shiftr_shiftr by lia. f_equal. lia.
  - rewrite shr_1_m by exact Hm. apply Z.div2_spec.
Qed.

Lemma rne_bounds (m : Z) (l : location) :
  m <= round_nearest_even m l <= m + 1.
Proof. destruct l as [|[| |]]; simpl; try destruct (Z.even m); lia. Qed.

(** [shr_fexp] on a positive mantissa, by the number of places shifted. *)
Lemma shr_fexp_shift (P : positive) (ex : Z) (n : positive) :
  fexp prec emax (dg P + ex) - ex = Zpos n ->
  exists mrs, shr_fexp prec emax (Zpos P) ex loc_Exact = (mrs, ex + Zpos n) /\
              shr_m mrs = Zpos P / 2 ^ Zpos n.
Proof.
  intros Hn. unfold shr_fexp, shr. simpl Zdigits2. fold (dg P). rewrite Hn.
  eexists. split; [reflexivity|].
  rewrite shr_iter_m by (simpl; lia). simpl shr_m.
  apply Z.shiftr_div_pow2. lia.
Qed.

Lemma shr_fexp_keep (m ex : Z) :
  fexp prec emax (Zdigits2 m + ex) - ex <= 0 ->
  shr_fexp prec emax m ex loc_Exact = (Build_shr_record m false false, ex).
Proof.
  intros Hn. unfold shr_fexp, shr.
  destruct (fexp prec emax (Zdigits2 m + ex) - ex); try reflexivity. lia.
Qed.


Definition mc : positive := 8782019273372467.

Lemma canonical_cases (m : positive) (e : Z) :
  bounded prec emax m e = true ->
  e <= 971 /\ Z.max (dg m + e - 53) (-1074) = e.
Proof.
  unfold bounded, canonical_mantissa. intros Hb.
  apply andb_prop in Hb. destruct Hb as [Hc He].
  apply Z.eqb_eq in Hc. apply Z.leb_le in He.
  rewrite fexp64 in Hc. fold (dg m) in Hc.
  change (emax - prec) with 971 in He. split; [exact He|exact Hc].
Qed.

Lemma dg_product (m : positive) :
  dg (m * mc) = dg m + 52 \/ dg (m * mc) = dg m + 53.
Proof.
  pose proof (dg_bounds m) as [Hlo Hhi]. pose proof (dg_pos m) as Hd.
  assert (H52 : 2 ^ (dg m + 51) <= Zpos (m * mc)).
  { replace (dg m + 51) with ((dg m - 1) + 52) by lia.
    rewrite Z.pow_add_r by lia. rewrite Pos2Z.inj_mul.
    change (2 ^ 52) with 4503599627370496. unfold mc. nia. }
  assert (H53 : Zpos (m * mc) < 2 ^ (dg m + 53)).
  { rewrite Z.pow_add_r by lia. rewrite Pos2Z.inj_mul.
    change (2 ^ 53) with 9007199254740992. unfold mc. nia. }
  destruct (Z_lt_le_dec (Zpos (m * mc)) (2 ^ (dg m + 52))) as [Hlt|Hge].
  - left. apply dg_unique. replace (dg m + 52 - 1) with (dg m + 51) by lia. lia.
  - right. apply dg_unique. replace (dg m + 53 - 1) with (dg m + 52) by lia. lia.
Qed.

Lemma round_damped_same (s : bool) (m : positive) (e : Z) :
  bounded prec emax m e = true ->
  fexp prec emax (dg (m * mc) + (e + -53)) = e ->
  let r := binary_round_aux prec emax s (Zpos (m * mc)) (e + -53) loc_Exact in
  r = S754_zero s \/
  exists m', r = S754_finite s m' e /\ (m' <= m)%positive /\
             (41 <= Zpos m -> (m' < m)%positive).
Proof.
  intros Hb HE. destruct (canonical_cases m e Hb) as [He Hc].
  assert (Hn : fexp prec emax (dg (m * mc) + (e + -53)) - (e + -53) = Zpos 53) by lia.
  destruct (shr_fexp_shift (m * mc) (e + -53) 53 Hn) as (mrs & Hs & Hq).
  intros r. unfold r, binary_round_aux. rewrite Hs.
  set (q := shr_m mrs) in *.
  set (rn := round_nearest_even q (loc_of_shr_record mrs)).
  pose proof (rne_bounds q (loc_of_shr_record mrs)) as Hrn. fold rn in Hrn.
  assert (Hq0 : 0 <= q) by (rewrite Hq; apply Z.div_pos; lia).
  assert (Hqm : q <= Zpos m - 1).
  { assert (q < Zpos m); [|lia]. rewrite Hq.
    apply Z.div_lt_upper_bound; [lia|].
    rewrite Pos2Z.inj_mul. change (2 ^ 53) with 9007199254740992. unfold mc. nia. }
  assert (Hq41 : 41 <= Zpos m -> q <= Zpos m - 2).
  { intros H41. assert (q < Zpos m - 1); [|lia]. rewrite Hq.
    apply Z.div_lt_upper_bound; [lia|].
    rewrite Pos2Z.inj_mul. change (2 ^ 53) with 9007199254740992. unfold mc. nia. }
  replace (e + -53 + 53) with e by lia.
  assert (Hkeep : fexp prec emax (Zdigits2 rn + e) - e <= 0).
  { rewrite fexp64. destruct rn as [|p|p]; simpl Zdigits2.
    - pose proof (dg_pos m). lia.
    - fold (dg p). assert (dg p <= dg m) by (apply dg_mono; lia). lia.
    - lia. }
  rewrite (shr_fexp_keep rn e Hkeep). simpl shr_m.
  destruct rn as [|p|p].
  - left; reflexivity.
  - right. exists p. change (emax - prec) with 971.
    rewrite (proj2 (Z.leb_le e 971) He).
    split; [reflexivity|]. split; [lia|]. intros H41. specialize (Hq41 H41). lia.
  - lia.
Qed.

Lemma round_damped_lower (s : bool) (m : positive) (e : Z) :
  bounded prec emax m e = true ->
  fexp prec emax (dg (m * mc) + (e + -53)) = e - 1 ->
  let r := binary_round_aux prec emax s (Zpos (m * mc)) (e + -53) loc_Exact in
  exists m', r = S754_finite s m' (e - 1) \/
             (r = S754_finite s m' e /\ (m' < m)%positive).
Proof.
  intros Hb HE. destruct (canonical_cases m e Hb) as [He Hc].
  rewrite fexp64 in HE.
  assert (Hdm : dg m = 53 /\ dg (m * mc) = 105 /\ -1074 < e).
  { destruct (dg_product m); lia. }
  destruct Hdm as (Hdm & HD & Hmin).
  assert (Hn : fexp prec emax (dg (m * mc) + (e + -53)) - (e + -53) = Zpos 52).
  { rewrite fexp64. lia. }
  destruct (shr_fexp_shift (m * mc) (e + -53) 52 Hn) as (mrs & Hs & Hq).
  intros r. unfold r, binary_round_aux. rewrite Hs.
  set (q := shr_m mrs) in *.
  set (rn := round_nearest_even q (loc_of_shr_record mrs)).
  pose proof (rne_bounds q (loc_of_shr_record mrs)) as Hrn. fold rn in Hrn.
  pose proof (dg_bounds (m * mc)) as [HPlo HPhi]. rewrite HD in HPlo, HPhi.
  change (2 ^ (105 - 1)) with (4503599627370496 * 2 ^ 52) in HPlo.
  change (2 ^ 105) with (9007199254740992 * 2 ^ 52) in HPhi.
  assert (Hqlo : 4503599627370496 <= q).
  { rewrite Hq. apply Z.div_le_lower_bound; lia. }
  assert (Hqhi : q < 9007199254740992).
  { rewrite Hq. apply Z.div_lt_upper_bound; lia. }
  replace (e + -53 + 52) with (e - 1) by lia.
  destruct rn as [|p|p]; try lia.
  destruct (Z_lt_le_dec (Zpos p) 9007199254740992) as [Hlt|Hge].
  - assert (Hdp : dg p = 53) by (apply dg_unique; simpl; lia).
    assert (Hkeep : fexp prec emax (Zdigits2 (Zpos p) + (e - 1)) - (e - 1) <= 0).
    { rewrite fexp64. simpl Zdigits2. fold (dg p). lia. }
    rewrite (shr_fexp_keep (Zpos p) (e - 1) Hkeep). simpl shr_m.
    exists p. left. change (emax - prec) with 971.
    rewrite (proj2 (Z.leb_le (e - 1) 971)) by lia. reflexivity.
  - assert (Hp : Zpos p = 9007199254740992) by lia.
    assert (Hdp : dg p = 54) by (apply dg_unique; simpl; lia).
    assert (Hn2 : fexp prec emax (dg p + (e - 1)) - (e - 1) = Zpos 1).
    { rewrite fexp64. lia. }
    destruct (shr_fexp_shift p (e - 1) 1 Hn2) as (mrs2 & Hs2 & Hq2).
    rewrite Hs2, Hq2, Hp. change (9007199254740992 / 2 ^ 1) with (Zpos 4503599627370496).
    replace (e - 1 + 1) with e by lia.
    exists 4503599627370496%positive. right. change (emax - prec) with 971.
    rewrite (proj2 (Z.leb_le e 971) He). split; [reflexivity|].
    assert (Hq1 : 9007199254740991 <= q) by lia.
    assert (HP : 9007199254740991 * 2 ^ 52 <= Zpos (m * mc)).
    { rewrite Hq in Hq1.
      pose proof (Z.mul_div_le (Zpos (m * mc)) (2 ^ 52) ltac:(lia)) as Hd.
      change (2 ^ 52) with 4503599627370496 in *. nia. }
    rewrite Pos2Z.inj_mul in HP. change (2 ^ 52) with 4503599627370496 in HP.
    unfold mc in HP. lia.
Qed.

(** The spec-level result: multiplying a finite [x] by 0.975 never yields a
    larger magnitude, and yields a smaller one from mantissa 41 on. *)
Lemma SF_damped (s : bool) (m : positive) (e : Z) :
  bounded prec emax m e = true ->
  let r := binary_round_aux prec emax s (Zpos (m * mc)) (e + -53) loc_Exact in
  SFleb (SFabs r) (S754_finite false m e) = true /\
  (41 <= Zpos m -> SFltb (SFabs r) (S754_finite false m e) = true).
Proof.
  intros Hb r. destruct (canonical_cases m e Hb) as [He Hc].
  assert (HE : fexp prec emax (dg (m * mc) + (e + -53)) = e \/
               fexp prec emax (dg (m * mc) + (e + -53)) = e - 1).
  { rewrite fexp64. destruct (dg_product m); lia. }
  destruct HE as [HE|HE].
  - destruct (round_damped_same s m e Hb HE) as [Hz|(m' & Hr & Hle & Hlt)];
      fold r in Hz || fold r in Hr.
    + rewrite Hz. split; reflexivity.
    + rewrite Hr. unfold SFleb, SFltb; simpl. rewrite Z.compare_refl.
      change (Pos.compare_cont Eq m' m) with (m' ?= m)%positive. split.
      * destruct (m' ?= m)%positive eqn:E; try reflexivity.
        apply Pos.compare_gt_iff in E. lia.
      * intros H41. rewrite (proj2 (Pos.compare_lt_iff m' m) (Hlt H41)). reflexivity.
  - destruct (round_damped_lower s m e Hb HE) as (m' & [Hr|[Hr Hlt]]); fold r in Hr.
    + rewrite Hr. unfold SFleb, SFltb; simpl.
      rewrite (proj2 (Z.compare_lt_iff (e - 1) e)) by lia. split; reflexivity.
    + rewrite Hr. unfold SFleb, SFltb; simpl. rewrite Z.compare_refl.
      change (Pos.compare_cont Eq m' m) with (m' ?= m)%positive.
      rewrite (proj2 (Pos.compare_lt_iff m' m) Hlt). split; reflexivity.
Qed.

Definition c975 : float := F64.lit 0.975.

Lemma c975_spec : Prim2SF c975 = S754_finite false mc (-53).
Proof. vm_compute. reflexivity. Qed.

(** A number of the float type that is neither NaN nor infinite. *)
Definition finite (x : float) : bool := PrimFloat.ltb (PrimFloat.abs x) infinity.

Lemma finite_spec (x : float) :
  finite x = true ->
  (exists s, Prim2SF x = S754_zero s) \/
  (exists s m e, Prim2SF x = S754_finite s m e /\ bounded prec emax m e = true).
Proof.
  unfold finite. rewrite ltb_spec, abs_spec.
  pose proof (Prim2SF_valid x) as Hv.
  destruct (Prim2SF x) as [s|s| |s m e]; simpl; intros Hf; try discriminate.
  - left; eexists; reflexivity.
  - right. exists s, m, e. split; [reflexivity|exact Hv].
Qed.

Lemma damped_le (x : float) :
  finite x = true ->
  PrimFloat.leb (PrimFloat.abs (PrimFloat.mul x c975)) (PrimFloat.abs x) = true.
Proof.
  intros Hf. rewrite leb_spec, !abs_spec, mul_spec, c975_spec.
  destruct (finite_spec x Hf) as [(s & ->)|(s & m & e & -> & Hb)].
  - reflexivity.
  - unfold SF64mul; simpl SFmul. rewrite xorb_false_r.
    apply (SF_damped s m e Hb).
Qed.

Lemma damped_lt_big (x : float) (s : bool) (m : positive) (e : Z) :
  Prim2SF x = S754_finite s m e -> 41 <= Zpos m ->
  PrimFloat.ltb (PrimFloat.abs (PrimFloat.mul x c975)) (PrimFloat.abs x) = true.
Proof.
  intros Hx H41. pose proof (Prim2SF_valid x) as Hv. rewrite Hx in Hv.
  rewrite ltb_spec, !abs_spec, mul_spec, c975_spec, Hx.
  unfold SF64mul; simpl SFmul. rewrite xorb_false_r.
  apply (SF_damped s m e Hv). exact H41.
Qed.

(** Mantissas 1 to 40 at the least exponent, by evaluation. *)
Definition small_case (s : bool) (m : positive) : spec_float :=
  SF64mul (S754_finite s m (-1074)) (S754_finite false mc (-53)).

(** The least magnitude damping strictly shrinks, and the greatest it
    leaves alone: 20 and 19 units in the last place of the subnormals. *)
Definition shrinkFrom : float := 0x14p-1074%float.
Definition stallUpTo : float := 0x13p-1074%float.

Lemma small_shrink :
  forallb (fun n =>
             andb (SFltb (SFabs (small_case false (Pos.of_nat n)))
                         (S754_finite false (Pos.of_nat n) (-1074)))
                  (SFltb (SFabs (small_case true (Pos.of_nat n)))
                         (S754_finite false (Pos.of_nat n) (-1074))))
          (seq 20 21) = true.
Proof. vm_compute. reflexivity. Qed.

Lemma small_stall_eq :
  forallb (fun n =>
             andb (match small_case false (Pos.of_nat n) with
                   | S754_finite false m e => Pos.eqb m (Pos.of_nat n) && Z.eqb e (-1074)
                   | _ => false end)
                  (match small_case true (Pos.of_nat n) with
                   | S754_finite true m e => Pos.eqb m (Pos.of_nat n) && Z.eqb e (-1074)
                   | _ => false end))
          (seq 1 19) = true.
Proof. vm_compute. reflexivity. Qed.

Lemma canonical_min (m : positive) (e : Z) :
  bounded prec emax m e = true -> -1074 <= e /\ (-1074 < e -> 41 <= Zpos m).
Proof.
  intros Hb. destruct (canonical_cases m e Hb) as [_ Hc]. split; [lia|].
  intros He. assert (Hd : dg m = 53) by lia.
  pose proof (dg_bounds m) as [Hlo _]. rewrite Hd in Hlo.
  change (2 ^ (53 - 1)) with 4503599627370496 in Hlo. lia.
Qed.

Lemma damped_lt (x : float) :
  finite x = true ->
  PrimFloat.leb shrinkFrom (PrimFloat.abs x) = true ->
  PrimFloat.ltb (PrimFloat.abs (PrimFloat.mul x c975)) (PrimFloat.abs x) = true.
Proof.
  intros Hf Hge.
  destruct (finite_spec x Hf) as [(s & Hx)|(s & m & e & Hx & Hb)].
  - rewrite leb_spec, abs_spec, Hx in Hge. discriminate.
  - destruct (canonical_min m e Hb) as [Hmin Hbig].
    destruct (Z_lt_le_dec (Zpos m) 41) as [Hsmall|H41];
      [|exact (damped_lt_big x s m e Hx H41)].
    assert (He : e = -1074) by (destruct (Z.eq_dec e (-1074)); [assumption|lia]).
    subst e.
    assert (H20 : 20 <= Zpos m).
    { rewrite leb_spec, abs_spec, Hx in Hge.
      change (Prim2SF shrinkFrom) with (S754_finite false 20 (-1074)) in Hge.
      unfold SFleb in Hge; simpl in Hge.
      change (Pos.compare_cont Eq 20 m) with (20 ?= m)%positive in Hge.
      assert (Hp : (20 <= m)%positive)
        by (unfold Pos.le; intros E; rewrite E in Hge; discriminate).
      lia. }
    rewrite ltb_spec, !abs_spec, mul_spec, c975_spec, Hx.
    pose proof small_shrink as Hall. rewrite forallb_forall in Hall.
    specialize (Hall (Pos.to_nat m)).
    rewrite Pos2Nat.id in Hall.
    assert (Hin : In (Pos.to_nat m) (seq 20 21)) by (apply in_seq; lia).
    specialize (Hall Hin). apply andb_prop in Hall. destruct Hall as [Hp Hn].
    destruct s; [exact Hn|exact Hp].
Qed.

Lemma damped_stall (x : float) :
  PrimFloat.leb (PrimFloat.abs x) stallUpTo = true ->
  PrimFloat.mul x c975 = x.
Proof.
  intros Hle. apply Prim2SF_inj.
  rewrite mul_spec, c975_spec.
  rewrite leb_spec, abs_spec in Hle.
  change (Prim2SF stallUpTo) with (S754_finite false 19 (-1074)) in Hle.
  pose proof (Prim2SF_valid x) as Hv.
  destruct (Prim2SF x) as [s|s| |s m e]; try discriminate.
  - simpl. rewrite xorb_false_r. reflexivity.
  - simpl in Hv. destruct (canonical_min m e Hv) as [Hmin _].
    cbv beta iota delta [SFleb SFcompare SFabs] in Hle.
    destruct (Z.compare_spec e (-1074)) as [Ee|Ee|Ee].
    + subst e.
      change (Pos.compare_cont Eq m 19) with (m ?= 19)%positive in Hle.
      assert (H19 : (m <= 19)%positive)
        by (unfold Pos.le; intros E; rewrite E in Hle; discriminate).
      pose proof small_stall_eq as Hall. rewrite forallb_forall in Hall.
      specialize (Hall (Pos.to_nat m)). rewrite Pos2Nat.id in Hall.
      assert (Hin : In (Pos.to_nat m) (seq 1 19)) by (apply in_seq; lia).
      specialize (Hall Hin). apply andb_prop in Hall. destruct Hall as [Hp Hn].
      fold (small_case s m).
      destruct s.
      * destruct (small_case true m) as [| | |[|] m' e']; try discriminate.
        apply andb_prop in Hn. destruct Hn as [Hm' He'].
        apply Pos.eqb_eq in Hm'. apply Z.eqb_eq in He'. subst. reflexivity.
      * destruct (small_case false m) as [| | |[|] m' e']; try discriminate.
        apply andb_prop in Hp. destruct Hp as [Hm' He'].
        apply Pos.eqb_eq in Hm'. apply Z.eqb_eq in He'. subst. reflexivity.
    + lia.
    + discriminate.
Qed.

End Round.

Set Implicit Arguments.

(* ================================================================== *)
(** * The physics step: trails, shooting stars, population, pointer *)
(* ================================================================== *)

Module Witness.
Local Open Scope R_scope.

(** A star ten units past the left margin of a 100 by 100 surface, at
    rest, with two samples in its trail. *)
Definition strayStar : @Star R :=
  mkStar (-30) 50 0 0 1 1 PAL.gold 0 0 [mkPoint (-29) 50; mkPoint (-30) 50] 12.

Definition noMouse : @Mouse R := mkMouse None None.

Lemma strayStar_out : outOfBounds 100 100 (moved 0 [] noMouse strayStar) = true.
Proof.
  unfold outOfBounds, moved; simpl.
  replace (Exact.ltb (-30 + 0 * Q2R 0.975) (- Q2R 20)) with true; [reflexivity|].
  symmetry. apply Exact.ltb_true. unfold Q2R; simpl. lra.
Qed.

End Witness.

(** C2.  When the wrap step of a tick moves a star (its position after the
    move step fails one of the four margin tests), the trail is empty at
    the point where the tick samples the position into it, so the trail
    the tick leaves holds nothing older than the wrapped position. *)
Theorem wrap_clears_trail {num : Type} {NUM : JsNum num} {TRIG : JsTrig num}
    (t : num) (vcs : list Vortex) (m : Mouse) (w h : num) (s : Star) :
  outOfBounds w h (moved t vcs m s) = true ->
  length (s_trail (beforeSample t vcs m w h s)) = 0%nat /\
  s_trail (updateStar t vcs m w h s) =
    (if (1 >? s_maxTrail s)%Z then []
     else [mkPoint (s_x (updateStar t vcs m w h s))
                   (s_y (updateStar t vcs m w h s))]).
Proof.
  intros Hout.
  assert (Hb : s_trail (beforeSample t vcs m w h s) = []).
  { rewrite beforeSample_trail, wrappedNow_outOfBounds, Hout. reflexivity. }
  split; [rewrite Hb; reflexivity|].
  unfold updateStar, sampleTrail; simpl.
  rewrite Hb, beforeSample_maxTrail. simpl.
  destruct (1 >? s_maxTrail s)%Z; reflexivity.
Qed.

Lemma wrap_clears_trail_witness :
  outOfBounds 100%R 100%R (moved 0%R [] Witness.noMouse Witness.strayStar) = true /\
  length (s_trail (beforeSample 0%R [] Witness.noMouse 100%R 100%R Witness.strayStar))
    = 0%nat.
Proof.
  split; [exact Witness.strayStar_out|].
  exact (proj1 (wrap_clears_trail 0%R [] Witness.noMouse 100%R 100%R
                  Witness.strayStar Witness.strayStar_out)).
Defined.

(** When the wrap step does not move the star, the trail is kept. *)
Lemma no_wrap_keeps_trail {num : Type} {NUM : JsNum num} {TRIG : JsTrig num}
    (t : num) (vcs : list Vortex) (m : Mouse) (w h : num) (s : Star) :
  outOfBounds w h (moved t vcs m s) = false ->
  s_trail (beforeSample t vcs m w h s) = s_trail s.
Proof.
  intros Hin. rewrite beforeSample_trail, wrappedNow_outOfBounds, Hin. reflexivity.
Qed.

(** C3.  Whatever frames and window events follow, every star's trail
    stays within the star's capacity: from any scene in which it holds,
    and hence from boot.  (The capacities drawn are not negative.) *)
Theorem trail_within_capacity {num : Type} {NUM : JsNum num} {TRIG : JsTrig num}
    (es : list Event) (g : Rng num) :
  capacityDraws g ->
  (forall sc, starsBounded sc -> starsBounded (fst (run es sc g))) /\
  (forall w h, starsBounded (fst (session w h es g))).
Proof.
  intros Hg.
  assert (Hrun : forall sc g0, capacityDraws g0 -> starsBounded sc ->
                               starsBounded (fst (run es sc g0))).
  { apply run_invariant.
    - intros e sc g0 Hg0 Hsc. apply handle_bounded; assumption.
    - intros e sc g0 Hg0. apply capacityDraws_kept; [apply keeps_handle | exact Hg0]. }
  split.
  - intros sc Hsc. apply Hrun; assumption.
  - intros w h. rewrite session_run. apply Hrun.
    + apply capacityDraws_kept; [|exact Hg].
      unfold boot, onResize. apply keeps_initStars.
    + unfold boot, onResize. apply initStars_bounded, Hg.
Qed.

Lemma trail_within_capacity_witness :
  starsBounded
    (fst (session 1000%R 800%R [Frame; MouseMove 10%R 10%R; Frame; Frame]
                  ExactFacts.halves)).
Proof.
  exact (proj2 (trail_within_capacity
                  [Frame; MouseMove 10%R 10%R; Frame; Frame]
                  (ExactFacts.unitDraws_capacity ExactFacts.halves_unit))
               1000%R 800%R).
Defined.

(** C4.  A tick spawns a shooting star only when fewer than two are
    active, and then exactly one, at the end of the array; whatever frames
    and window events follow, at most two are active. *)
Theorem shooting_stars_capped {num : Type} {NUM : JsNum num} {TRIG : JsTrig num}
    (es : list Event) (sc : Scene) (g : Rng num) :
  shootingCapped sc ->
  shootingCapped (fst (run es sc g)) /\
  (fst (maybeSpawn sc g) = shootingStars sc \/
   (length (shootingStars sc) < 2)%nat /\
   exists ss, fst (maybeSpawn sc g) = shootingStars sc ++ [ss]) /\
  (length (shootingStars (fst (update sc g))) <= length (fst (maybeSpawn sc g)))%nat.
Proof.
  intros Hc. split; [|split].
  - apply (@run_invariant num NUM TRIG shootingCapped (fun _ => True)).
    + intros e sc0 g0 _ Hsc. apply handle_capped, Hsc.
    + intros; exact I.
    + exact I.
    + exact Hc.
  - destruct (maybeSpawn_cases sc g) as [E|(Hlt & _ & E)].
    + left; exact E.
    + right; split; [exact Hlt | eexists; exact E].
  - rewrite update_shootingStars. apply survivors_length.
Qed.

Module Cap.
Local Open Scope R_scope.

(** A source whose every draw is 0: every tick asks for a shooting star. *)
Definition eager : Rng R := mkRng (fun _ => 0) 0.

Definition lone : @ShootingStar R := mkShootingStar 100 50 10 10 0.9 0.02 [] 28 2.

(** A scene with one shooting star in flight. *)
Definition night : @Scene R :=
  mkScene 1000 800 (mkMouse None None) [] [lone] [] 0 1.

Lemma eager_asks (n : nat) :
  Exact.ltb (draws (mkRng (fun _ => 0) n) n) (Q2R 0.0025) = true.
Proof. apply Exact.ltb_true. simpl. unfold Q2R; simpl. lra. Qed.

(** The tick on [night] spawns a second shooting star. *)
Lemma night_spawn :
  fst (maybeSpawn night eager) =
  [lone; fst (spawnShootingStar 1000 800 (mkRng (fun _ : nat => 0) 1))].
Proof.
  unfold maybeSpawn, bind, random. cbv beta iota.
  change (draws eager (next eager) <? lit 0.0025)%js
    with (Exact.ltb (draws (mkRng (fun _ => 0) 0%nat) 0%nat) (Q2R 0.0025)).
  rewrite eager_asks. cbn [andb shootingStars night length Nat.ltb Nat.leb].
  change (mkRng (draws eager) (S (next eager))) with (mkRng (fun _ : nat => 0) 1).
  change (W night) with 1000. change (H night) with 800.
  destruct (spawnShootingStar 1000 800 (mkRng (fun _ : nat => 0) 1)) as [ss g'].
  reflexivity.
Qed.

(** Both are in flight after the tick. *)
Lemma night_tick : length (shootingStars (fst (update night eager))) = 2%nat.
Proof.
  rewrite update_shootingStars, night_spawn. unfold survivors.
  cbn [map filter].
  assert (Hlone : alive (advance lone) = true).
  { unfold alive. cbn [advance ss_life lone].
    change (0.9 - 0.02 <=? lit 0)%js with (Exact.leb (0.9 - 0.02) (Q2R 0)).
    rewrite (proj2 (Exact.leb_false _ _)); [reflexivity|]. unfold Q2R; simpl. lra. }
  assert (Hnew : alive (advance (fst (spawnShootingStar 1000 800
                                        (mkRng (fun _ : nat => 0) 1)))) = true).
  { unfold alive, spawnShootingStar, bind, random, ret.
    cbn [advance ss_life ss_decay fst draws next].
    change (lit 1 - (lit 0.014 + 0 * lit 0.012) <=? lit 0)%js
      with (Exact.leb (Q2R 1 - (Q2R 0.014 + 0 * Q2R 0.012)) (Q2R 0)).
    rewrite (proj2 (Exact.leb_false _ _)); [reflexivity|]. unfold Q2R; simpl. lra. }
  rewrite Hlone, Hnew. reflexivity.
Qed.

(** The next tick asks again and is refused. *)
Lemma night_refuses :
  fst (maybeSpawn (fst (update night eager)) (snd (update night eager)))
  = shootingStars (fst (update night eager)).
Proof.
  unfold maybeSpawn, bind, random. cbv beta iota.
  rewrite night_tick. cbn [Nat.ltb Nat.leb]. rewrite andb_false_r. reflexivity.
Qed.

End Cap.

Lemma shooting_stars_capped_witness :
  shootingCapped Cap.night /\
  length (shootingStars Cap.night) = 1%nat /\
  length (fst (maybeSpawn Cap.night Cap.eager)) = 2%nat /\
  length (shootingStars (fst (update Cap.night Cap.eager))) = 2%nat /\
  fst (maybeSpawn (fst (update Cap.night Cap.eager)) (snd (update Cap.night Cap.eager)))
    = shootingStars (fst (update Cap.night Cap.eager)) /\
  shootingCapped (fst (run [Frame; Frame; Frame] Cap.night Cap.eager)).
Proof.
  assert (H0 : shootingCapped Cap.night) by (unfold shootingCapped; simpl; lia).
  split; [exact H0|]. split; [reflexivity|].
  split; [rewrite Cap.night_spawn; reflexivity|].
  split; [exact Cap.night_tick|]. split; [exact Cap.night_refuses|].
  exact (proj1 (shooting_stars_capped [Frame; Frame; Frame] Cap.eager H0)).
Defined.

(** The cap holds in every session. *)
Lemma session_capped {num : Type} {NUM : JsNum num} {TRIG : JsTrig num}
    (w h : num) (es : list Event) (g : Rng num) :
  shootingCapped (fst (session w h es g)).
Proof.
  rewrite session_run.
  apply (@run_invariant num NUM TRIG shootingCapped (fun _ => True)).
  - intros e sc g0 _ Hsc. apply handle_capped, Hsc.
  - intros; exact I.
  - exact I.
  - unfold shootingCapped. rewrite boot_shootingStars. simpl; lia.
Qed.

(** The count for a 1000 by 800 surface, in both readings. *)
Lemma starCount_1000_800_F64 : starCount (num := float) (lit 1000) (lit 800) = 153%Z.
Proof. vm_compute. reflexivity. Qed.

Lemma starCount_1000_800_Exact : starCount (num := R) (lit 1000) (lit 800) = 153%Z.
Proof.
  unfold starCount.
  replace (floor (num := R) ((lit 1000 * lit 800) / lit 5200)%js) with 153%Z;
    [reflexivity|].
  apply Int_part_spec. simpl. unfold Q2R; simpl. lra.
Qed.

(** C6.  After boot and after every resize to a surface [w] by [h], the
    number of stars is [min(280, floor(w * h / 5200))]; for 1000 by 800 it
    is 153, computed in binary64 as in exact arithmetic. *)
Theorem star_population :
  (forall {num : Type} {NUM : JsNum num} (w h : num) (sc : Scene) (g : Rng num),
      length (stars (fst (onResize w h sc g)))
        = Z.to_nat (Z.min 280 (floor ((w * h) / lit 5200)%js)) /\
      length (stars (fst (boot w h g)))
        = Z.to_nat (Z.min 280 (floor ((w * h) / lit 5200)%js))) /\
  (forall g : Rng float,
      length (stars (fst (boot (lit 1000) (lit 800) g))) = 153%nat) /\
  (forall g : Rng R,
      length (stars (fst (boot (lit 1000) (lit 800) g))) = 153%nat).
Proof.
  assert (Hgen : forall {num : Type} {NUM : JsNum num} (w h : num) (sc : Scene)
                        (g : Rng num),
             length (stars (fst (onResize w h sc g)))
             = Z.to_nat (starCount w h)).
  { intros num NUM w h sc g. unfold onResize. rewrite initStars_length. reflexivity. }
  split; [|split].
  - intros num NUM w h sc g. split; [apply Hgen | unfold boot; apply Hgen].
  - intros g. unfold boot. rewrite Hgen, starCount_1000_800_F64. reflexivity.
  - intros g. unfold boot. rewrite Hgen, starCount_1000_800_Exact. reflexivity.
Qed.

(** C8.  With the pointer absent ([mouse.x] is [null]) the mouse block is
    skipped: it leaves the star as it is, the loop body is the loop body
    without that block, and so is the frame that follows a [mouseout]. *)
Theorem absent_pointer_no_force {num : Type} {NUM : JsNum num} {TRIG : JsTrig num}
    (t : num) (vcs : list Vortex) (w h : num) (s : Star) (my : option num)
    (sc : Scene) (g : Rng num) :
  mouseForce (mkMouse None my) s = s /\
  updateStar t vcs (mkMouse None my) w h s = updateStarNoPointer t vcs w h s /\
  stars (fst (update (onMouseOut sc) g))
    = map (updateStarNoPointer (time sc + lit 0.016)%js (vortexCenters sc)
                               (W sc) (H sc)) (stars sc).
Proof.
  split; [reflexivity|]. split; [reflexivity|].
  rewrite update_stars. reflexivity.
Qed.

(* ================================================================== *)
(** * Magnitudes, in exact arithmetic *)
(* ================================================================== *)

Module Geometry.
Local Open Scope R_scope.

(** The quantities the description of the vortex force names: the radius
    vector from the centre to the star, its length, and the falloff. *)
Definition radius_x (vt : @Vortex R) (s : @Star R) : R := s_x s - vt_x vt.
Definition radius_y (vt : @Vortex R) (s : @Star R) : R := s_y s - vt_y vt.

Definition distance (vt : @Vortex R) (s : @Star R) : R :=
  R_sqrt.sqrt (radius_x vt s * radius_x vt s + radius_y vt s * radius_y vt s).

Definition falloff (vt : @Vortex R) (s : @Star R) : R :=
  (1 - distance vt s / vt_r vt) * vt_str vt * 0.25.

(** The velocity one centre adds to a star in one tick. *)
Definition push_x (vt : @Vortex R) (s : @Star R) : R :=
  s_vx (vortexForce vt s) - s_vx s.
Definition push_y (vt : @Vortex R) (s : @Star R) : R :=
  s_vy (vortexForce vt s) - s_vy s.

Definition total (f : @Vortex R -> R) (vcs : list (@Vortex R)) : R :=
  fold_right (fun vt acc => f vt + acc) 0 vcs.

(** The Euclidean length of the velocity. *)
Definition speed (s : @Star R) : R :=
  R_sqrt.sqrt (s_vx s * s_vx s + s_vy s * s_vy s).

Lemma lit_1 : Q2R 1 = 1.
Proof. unfold Q2R; simpl; lra. Qed.

Lemma vortexForce_unfold (vt : @Vortex R) (s : @Star R) :
  vortexForce vt s =
  if Exact.ltb (distance vt s) (vt_r vt) && Exact.ltb 1 (distance vt s) then
    set_vel s
      (s_vx s + - radius_y vt s / distance vt s * falloff vt s
       - radius_x vt s / distance vt s * falloff vt s * 0.08)
      (s_vy s + radius_x vt s / distance vt s * falloff vt s
       - radius_y vt s / distance vt s * falloff vt s * 0.08)
  else s.
Proof.
  unfold vortexForce, falloff, distance, radius_x, radius_y. simpl.
  rewrite lit_1.
  replace (Q2R 0.25) with 0.25 by (unfold Q2R; simpl; lra).
  replace (Q2R 0.08) with 0.08 by (unfold Q2R; simpl; lra).
  reflexivity.
Qed.

Lemma vortexForce_inside (vt : @Vortex R) (s : @Star R) :
  1 < distance vt s < vt_r vt ->
  vortexForce vt s =
    set_vel s
      (s_vx s + - radius_y vt s / distance vt s * falloff vt s
       - radius_x vt s / distance vt s * falloff vt s * 0.08)
      (s_vy s + radius_x vt s / distance vt s * falloff vt s
       - radius_y vt s / distance vt s * falloff vt s * 0.08).
Proof.
  intros [H1 Hr]. rewrite vortexForce_unfold.
  rewrite (proj2 (Exact.ltb_true _ _) Hr), (proj2 (Exact.ltb_true _ _) H1).
  reflexivity.
Qed.

Lemma vortexForce_outside (vt : @Vortex R) (s : @Star R) :
  vt_r vt <= distance vt s \/ distance vt s <= 1 ->
  vortexForce vt s = s.
Proof.
  intros Hout. rewrite vortexForce_unfold.
  destruct Hout as [Hr|H1].
  - rewrite (proj2 (Exact.ltb_false _ _) Hr). reflexivity.
  - rewrite (proj2 (Exact.ltb_false _ _) H1), andb_false_r. reflexivity.
Qed.

(** The push depends on where the star is, not on how fast it moves. *)
Lemma push_position (vt : @Vortex R) (s s' : @Star R) :
  s_x s' = s_x s -> s_y s' = s_y s ->
  push_x vt s' = push_x vt s /\ push_y vt s' = push_y vt s.
Proof.
  intros Hx Hy. unfold push_x, push_y. rewrite !vortexForce_unfold.
  unfold falloff, distance, radius_x, radius_y. rewrite Hx, Hy.
  destruct (_ && _); simpl; split; lra.
Qed.

Lemma total_ext (f g : @Vortex R -> R) (vcs : list (@Vortex R)) :
  (forall vt, f vt = g vt) -> total f vcs = total g vcs.
Proof.
  intros Hfg. induction vcs as [|vt vcs IH]; simpl; [reflexivity|].
  rewrite Hfg, IH. reflexivity.
Qed.

Lemma vortexForces_total (vcs : list (@Vortex R)) :
  forall s : @Star R,
    s_vx (vortexForces vcs s) = s_vx s + total (fun vt => push_x vt s) vcs /\
    s_vy (vortexForces vcs s) = s_vy s + total (fun vt => push_y vt s) vcs.
Proof.
  induction vcs as [|vt vcs IH]; intros s.
  - simpl. split; lra.
  - change (vortexForces (vt :: vcs) s) with (vortexForces vcs (vortexForce vt s)).
    destruct (IH (vortexForce vt s)) as [IHx IHy].
    rewrite IHx, IHy. simpl.
    destruct (vortexForce_keeps vt s) as (Hx & Hy & _).
    rewrite (total_ext (fun v => push_x v (vortexForce vt s)) (fun v => push_x v s)),
            (total_ext (fun v => push_y v (vortexForce vt s)) (fun v => push_y v s)).
    + unfold push_x, push_y. split; lra.
    + intros v. apply (push_position v s (vortexForce vt s) Hx Hy).
    + intros v. apply (push_position v s (vortexForce vt s) Hx Hy).
Qed.

End Geometry.

Module VortexWitness.
Local Open Scope R_scope.

(** A centre at the origin with radius 100, and a star at (3, 4). *)
Definition centre : @Vortex R := mkVortex 0 0 0.7 100.
Definition near : @Star R := mkStar 3 4 0 0 1 1 PAL.gold 0 0 [] 12.

Lemma near_distance : Geometry.distance centre near = 5.
Proof.
  unfold Geometry.distance, Geometry.radius_x, Geometry.radius_y; simpl.
  replace ((3 - 0) * (3 - 0) + (4 - 0) * (4 - 0)) with (5 * 5) by lra.
  apply sqrt_square. lra.
Qed.

Lemma near_inside : 1 < Geometry.distance centre near < vt_r centre.
Proof. rewrite near_distance. simpl. lra. Qed.

End VortexWitness.

(** The vortex block in exact arithmetic.  In one tick, a vortex centre at
    distance [d] from a star, with
    [1 < d < r], adds to the star's velocity [f] times the unit vector
    perpendicular to the radius vector plus [0.08 * f] times the unit
    vector from the star to the centre, where
    [f = (1 - d / r) * str * 0.25] has the sign of [str]; a centre with
    [d >= r] or [d <= 1] adds nothing; and the velocity after the loop
    over the centres is the velocity before plus the sum of what each
    centre adds.  The part along the radius vector is a pull towards the
    centre for [str > 0] only: for [str < 0] it points away. *)
Lemma vortex_force (vt : @Vortex R) (s : @Star R) :
  let dx := Geometry.radius_x vt s in
  let dy := Geometry.radius_y vt s in
  let d := Geometry.distance vt s in
  let f := Geometry.falloff vt s in
  ((1 < d < vt_r vt)%R ->
     Geometry.push_x vt s = (f * (- dy / d) + 0.08 * f * ((vt_x vt - s_x s) / d))%R /\
     Geometry.push_y vt s = (f * (dx / d) + 0.08 * f * ((vt_y vt - s_y s) / d))%R /\
     ((- dy / d) * dx + (dx / d) * dy = 0)%R /\
     ((- dy / d) * (- dy / d) + (dx / d) * (dx / d) = 1)%R /\
     (((vt_x vt - s_x s) / d) * ((vt_x vt - s_x s) / d)
      + ((vt_y vt - s_y s) / d) * ((vt_y vt - s_y s) / d) = 1)%R /\
     ((0 < vt_str vt)%R -> (0 < f)%R) /\
     ((vt_str vt < 0)%R -> (f < 0)%R)) /\
  ((vt_r vt <= d \/ d <= 1)%R ->
     vortexForce vt s = s /\
     Geometry.push_x vt s = 0%R /\ Geometry.push_y vt s = 0%R) /\
  (forall vcs : list Vortex,
     s_vx (vortexForces vcs s)
       = (s_vx s + Geometry.total (fun c => Geometry.push_x c s) vcs)%R /\
     s_vy (vortexForces vcs s)
       = (s_vy s + Geometry.total (fun c => Geometry.push_y c s) vcs)%R).
Proof.
  intros dx dy d f. split; [|split].
  - intros Hin.
    assert (Hd : (0 < d)%R) by lra.
    assert (Hsq : (d * d = dx * dx + dy * dy)%R).
    { unfold d, Geometry.distance. apply sqrt_sqrt.
      fold dx dy. nra. }
    unfold Geometry.push_x, Geometry.push_y.
    rewrite (Geometry.vortexForce_inside vt s Hin). simpl.
    fold dx dy d f.
    replace (vt_x vt - s_x s)%R with (- dx)%R by (unfold dx, Geometry.radius_x; lra).
    replace (vt_y vt - s_y s)%R with (- dy)%R by (unfold dy, Geometry.radius_y; lra).
    repeat split.
    + field. lra.
    + field. lra.
    + field. lra.
    + field_simplify_eq; [lra | lra].
    + field_simplify_eq; [lra | lra].
    + intros Hs. unfold f, Geometry.falloff. fold d.
      assert ((d / vt_r vt < 1)%R).
      { apply Rmult_lt_reg_r with (vt_r vt); [lra|].
        unfold Rdiv. rewrite Rmult_assoc, Rinv_l; lra. }
      nra.
    + intros Hs. unfold f, Geometry.falloff. fold d.
      assert ((d / vt_r vt < 1)%R).
      { apply Rmult_lt_reg_r with (vt_r vt); [lra|].
        unfold Rdiv. rewrite Rmult_assoc, Rinv_l; lra. }
      nra.
  - intros Hout. unfold Geometry.push_x, Geometry.push_y.
    rewrite (Geometry.vortexForce_outside vt s Hout).
    repeat split; lra.
  - intros vcs. apply Geometry.vortexForces_total.
Qed.

Lemma vortex_force_witness :
  (1 < Geometry.distance VortexWitness.centre VortexWitness.near
     < vt_r VortexWitness.centre)%R /\
  ((- Geometry.radius_y VortexWitness.centre VortexWitness.near
      / Geometry.distance VortexWitness.centre VortexWitness.near)
   * Geometry.radius_x VortexWitness.centre VortexWitness.near
   + (Geometry.radius_x VortexWitness.centre VortexWitness.near
      / Geometry.distance VortexWitness.centre VortexWitness.near)
     * Geometry.radius_y VortexWitness.centre VortexWitness.near = 0)%R.
Proof.
  split; [exact VortexWitness.near_inside|].
  exact (proj1 (proj2 (proj2
           (proj1 (vortex_force VortexWitness.centre VortexWitness.near)
                  VortexWitness.near_inside)))).
Defined.

Module Outward.

(** The second centre [resize] lays out for a window of 1000 by 800, and a
    star at rest 50 to its right. *)
Definition centre : @Vortex float :=
  nth 1 (layout (F64.lit 1000) (F64.lit 800)) (mkVortex 0 0 0 0)%float.

Definition star : @Star float :=
  mkStar 670%float 112%float 0%float 0%float 1%float 1%float
         PAL.gold 0%float 0%float [] 12.

(** The component along the radius vector (from the centre to the star)
    of the velocity the centre adds: positive is away from the centre. *)
Definition radial (vt : @Vortex float) (s : @Star float) : float :=
  PrimFloat.add
    (PrimFloat.mul (PrimFloat.sub (s_vx (vortexForce vt s)) (s_vx s))
                   (PrimFloat.sub (s_x s) (vt_x vt)))
    (PrimFloat.mul (PrimFloat.sub (s_vy (vortexForce vt s)) (s_vy s))
                   (PrimFloat.sub (s_y s) (vt_y vt))).

End Outward.

(** C1.  The pull towards the centre fails at a centre of negative
    strength.  In binary64, the second centre [resize] lays out for a
    window of 1000 by 800 has strength -0.55, and to a star at rest 50 to
    its right it gives a velocity that points to the right: the component
    along the radius vector of what it adds is positive, away from the
    centre, for this centre alone and in the loop over the five. *)
Theorem vortex_pull_outward :
  nth_error (layout (F64.lit 1000) (F64.lit 800)) 1 = Some Outward.centre /\
  vt_str Outward.centre = F64.lit (-0.55) /\
  PrimFloat.ltb (vt_x Outward.centre) (s_x Outward.star) = true /\
  PrimFloat.ltb 0%float (s_vx (vortexForce Outward.centre Outward.star)) = true /\
  PrimFloat.ltb 0%float (Outward.radial Outward.centre Outward.star) = true /\
  PrimFloat.ltb 0%float
    (s_vx (vortexForces (layout (F64.lit 1000) (F64.lit 800)) Outward.star)) = true.
Proof. repeat split; vm_compute; reflexivity. Qed.

(* ------------------------------------------------------------------ *)
(** ** Damping *)

Module Damping.

(** A star whose horizontal velocity is 19 units in the last place of the
    subnormal range (about 9.4e-323), as binary64 damping leaves it. *)
Definition stalled : @Star float :=
  mkStar 500%float 400%float 0x13p-1074%float 0%float 1%float 1%float
         PAL.gold 0%float 0%float [] 12.

(** A star drifting at an eighth of a unit per tick. *)
Definition drifting : @Star float :=
  mkStar 500%float 400%float 0.125%float 0%float 1%float 1%float
         PAL.gold 0%float 0%float [] 12.

Definition drifting_exact : @Star R :=
  mkStar 500%R 400%R (/ 8)%R 0%R 1%R 1%R PAL.gold 0%R 0%R [] 12.

End Damping.

(** In binary64, 30000 dampings (eight minutes of frames) take a drift of
    an eighth of a unit per tick down to the stalled velocity, not to 0. *)
Lemma damping_reaches_stall :
  Nat.iter (Z.to_nat 30000) damp Damping.drifting = Damping.stalled.
Proof. vm_compute. reflexivity. Qed.

(** C5, as stated, fails in binary64: the stalled star moves (its
    velocity is not zero), and damping returns it unchanged, so the
    magnitude of its velocity after damping is the magnitude before. *)
Lemma damping_stalls :
  PrimFloat.eqb (s_vx Damping.stalled) 0%float = false /\
  damp Damping.stalled = Damping.stalled /\
  PrimFloat.ltb (PrimFloat.abs (s_vx (damp Damping.stalled)))
                (PrimFloat.abs (s_vx Damping.stalled)) = false.
Proof. vm_compute. repeat split; reflexivity. Qed.

(** In exact arithmetic, damping multiplies the speed of a star by 0.975,
    so a star with nonzero velocity is strictly slower after damping. *)
Lemma damping_shrinks_speed (s : @Star R) :
  (s_vx s <> 0 \/ s_vy s <> 0)%R ->
  (Geometry.speed (damp s) = 0.975 * Geometry.speed s)%R /\
  (Geometry.speed (damp s) < Geometry.speed s)%R.
Proof.
  intros Hv.
  assert (Hpos : (0 < s_vx s * s_vx s + s_vy s * s_vy s)%R) by (destruct Hv; nra).
  assert (Hsp : (0 < Geometry.speed s)%R) by (apply sqrt_lt_R0, Hpos).
  assert (Heq : (Geometry.speed (damp s) = 0.975 * Geometry.speed s)%R).
  { unfold Geometry.speed, damp; simpl.
    replace (Q2R 0.975) with 0.975%R by (unfold Q2R; simpl; lra).
    replace (s_vx s * 0.975 * (s_vx s * 0.975) + s_vy s * 0.975 * (s_vy s * 0.975))%R
      with ((0.975 * 0.975) * (s_vx s * s_vx s + s_vy s * s_vy s))%R by ring.
    rewrite sqrt_mult by lra.
    rewrite sqrt_square by lra. reflexivity. }
  split; [exact Heq | rewrite Heq; lra].
Qed.

(** C5, amended.  In binary64, damping a star whose velocity is finite
    never makes a velocity component larger in magnitude; it makes every
    component of magnitude at least 20 * 2^-1074 strictly smaller, and
    returns every component of magnitude at most 19 * 2^-1074 as it is. *)
Theorem damping_binary64 (s : @Star float) :
  Round.finite (s_vx s) = true ->
  Round.finite (s_vy s) = true ->
  (PrimFloat.leb (PrimFloat.abs (s_vx (damp s))) (PrimFloat.abs (s_vx s)) = true /\
   PrimFloat.leb (PrimFloat.abs (s_vy (damp s))) (PrimFloat.abs (s_vy s)) = true) /\
  (PrimFloat.leb Round.shrinkFrom (PrimFloat.abs (s_vx s)) = true ->
   PrimFloat.ltb (PrimFloat.abs (s_vx (damp s))) (PrimFloat.abs (s_vx s)) = true) /\
  (PrimFloat.leb Round.shrinkFrom (PrimFloat.abs (s_vy s)) = true ->
   PrimFloat.ltb (PrimFloat.abs (s_vy (damp s))) (PrimFloat.abs (s_vy s)) = true) /\
  (PrimFloat.leb (PrimFloat.abs (s_vx s)) Round.stallUpTo = true ->
   s_vx (damp s) = s_vx s) /\
  (PrimFloat.leb (PrimFloat.abs (s_vy s)) Round.stallUpTo = true ->
   s_vy (damp s) = s_vy s).
Proof.
  intros Hx Hy.
  change (s_vx (damp s)) with (PrimFloat.mul (s_vx s) Round.c975).
  change (s_vy (damp s)) with (PrimFloat.mul (s_vy s) Round.c975).
  split; [split; apply Round.damped_le; assumption|].
  split; [apply Round.damped_lt, Hx|].
  split; [apply Round.damped_lt, Hy|].
  split; apply Round.damped_stall.
Qed.

Lemma damping_binary64_witness :
  Round.finite (s_vx Damping.drifting) = true /\
  Round.finite (s_vy Damping.drifting) = true /\
  PrimFloat.leb Round.shrinkFrom (PrimFloat.abs (s_vx Damping.drifting)) = true /\
  PrimFloat.ltb (PrimFloat.abs (s_vx (damp Damping.drifting)))
                (PrimFloat.abs (s_vx Damping.drifting)) = true.
Proof.
  assert (Hx : Round.finite (s_vx Damping.drifting) = true) by (vm_compute; reflexivity).
  assert (Hy : Round.finite (s_vy Damping.drifting) = true) by (vm_compute; reflexivity).
  assert (Hb : PrimFloat.leb Round.shrinkFrom (PrimFloat.abs (s_vx Damping.drifting)) = true)
    by (vm_compute; reflexivity).
  split; [exact Hx|]. split; [exact Hy|]. split; [exact Hb|].
  exact (proj1 (proj2 (damping_binary64 Damping.drifting Hx Hy)) Hb).
Defined.

(* ------------------------------------------------------------------ *)
(** ** Scroll dimming *)

Lemma dimFactor_unfold (y vh : R) :
  dimFactor y vh = Rmax 0.35 (1 - y / (vh * 1.8)).
Proof.
  unfold dimFactor; simpl. rewrite Geometry.lit_1.
  replace (Q2R 0.35) with 0.35%R by (unfold Q2R; simpl; lra).
  replace (Q2R 1.8) with 1.8%R by (unfold Q2R; simpl; lra).
  reflexivity.
Qed.

(** The two scenarios in binary64, for a viewport 800 units high. *)
Lemma dimFactor_F64_scenarios :
  dimFactor (num := float) (lit 1.8 * lit 800)%js (lit 800) = lit 0.35 /\
  dimFactor (num := float) (lit 1440) (lit 800) = lit 0.35 /\
  dimFactor (num := float) (lit 0) (lit 800) = lit 1.
Proof. vm_compute. repeat split; reflexivity. Qed.

(** C7.  For a scroll offset [y >= 0] and a viewport height [vh > 0], the
    dim factor the scroll listener stores lies in [[0.35, 1]]; it is 0.35
    at [y = 1.8 * vh] and 1 at [y = 0].  (The listener clamps from below
    only: the lemma after the next gives offsets that leave the range.) *)
Theorem dim_factor_range (y vh : R) :
  (0 <= y)%R -> (0 < vh)%R ->
  (0.35 <= dimFactor y vh <= 1)%R /\
  dimFactor (1.8 * vh)%R vh = 0.35%R /\
  dimFactor 0%R vh = 1%R /\
  scrollDim (onScroll y vh scene0) = dimFactor y vh.
Proof.
  intros Hy Hvh.
  assert (Hq : (0 <= y / (vh * 1.8))%R).
  { apply Rmult_le_pos; [exact Hy|]. left. apply Rinv_0_lt_compat. lra. }
  assert (Hlast : scrollDim (onScroll y vh scene0) = dimFactor y vh) by reflexivity.
  rewrite Hlast. clear Hlast.
  rewrite !dimFactor_unfold. repeat split.
  - apply Rmax_l.
  - apply Rmax_lub; lra.
  - replace (1.8 * vh / (vh * 1.8))%R with 1%R by (field; lra).
    rewrite Rmax_left; lra.
  - replace (0 / (vh * 1.8))%R with 0%R by (field; lra).
    rewrite Rmax_right; lra.
Qed.

Lemma dim_factor_range_witness :
  (0 <= 720)%R /\ (0 < 800)%R /\ (0.35 <= dimFactor 720%R 800%R <= 1)%R.
Proof.
  assert (Hy : (0 <= 720)%R) by lra.
  assert (Hvh : (0 < 800)%R) by lra.
  split; [exact Hy|]. split; [exact Hvh|].
  exact (proj1 (dim_factor_range Hy Hvh)).
Defined.

(** Not for every scroll offset: in binary64, a viewport 800 high scrolled
    to the offset -100 (an elastic overscroll) gets a dim factor above 1,
    and a viewport of height 0 gets NaN. *)
Lemma dim_factor_not_capped :
  PrimFloat.leb (scrollDim (onScroll (-100)%float 800%float scene0)) (F64.lit 1)
    = false /\
  PrimFloat.is_nan (scrollDim (onScroll 0%float 0%float scene0)) = true.
Proof. split; vm_compute; reflexivity. Qed.

(* ------------------------------------------------------------------ *)
(** ** Twinkling *)

(** In exact arithmetic the factories draw sizes from 0.4 upwards. *)
Lemma makeStar_baseSize (w h : R) (g : Rng R) :
  ExactFacts.unitDraws g -> (0.4 <= s_baseSize (fst (makeStar w h g)) <= 5)%R.
Proof.
  intros Hg. unfold makeStar, bind, random, ret; simpl.
  pose proof (Hg (S (next g))) as Hr.
  repeat match goal with |- context [if ?c then _ else _] => destruct c end;
    simpl; unfold Q2R; simpl; lra.
Qed.

(** C10.  The displayed size the twinkle step assigns to a star of base
    size [b >= 0] lies between [0.3 * b] and [b] (so it is positive when
    [b] is), and a tick leaves the base size as it was. *)
Theorem twinkle_size_range (t : R) (vcs : list Vortex) (m : Mouse) (w h : R)
    (s : @Star R) :
  (0 <= s_baseSize s)%R ->
  (0.3 * s_baseSize s <= s_size (updateStar t vcs m w h s) <= 1.0 * s_baseSize s)%R /\
  s_size (updateStar t vcs m w h s)
    = (s_baseSize s *
       (0.65 + 0.35 * Rtrigo_def.sin (t * s_twinkleK s * 60 + s_twinkleP s)))%R /\
  ((0 < s_baseSize s)%R -> (0 < s_size (updateStar t vcs m w h s))%R) /\
  s_baseSize (updateStar t vcs m w h s) = s_baseSize s.
Proof.
  intros Hb.
  assert (Hsz : s_size (updateStar t vcs m w h s)
                = (s_baseSize s *
                   (0.65 + 0.35 * Rtrigo_def.sin (t * s_twinkleK s * 60 + s_twinkleP s)))%R).
  { unfold updateStar, sampleTrail; simpl. rewrite beforeSample_size.
    unfold twinkle; simpl.
    replace (Q2R 0.65) with 0.65%R by (unfold Q2R; simpl; lra).
    replace (Q2R 0.35) with 0.35%R by (unfold Q2R; simpl; lra).
    replace (Q2R 60) with 60%R by (unfold Q2R; simpl; lra).
    reflexivity. }
  pose proof (SIN_bound (t * s_twinkleK s * 60 + s_twinkleP s)) as [Hlo Hhi].
  rewrite Hsz. repeat split.
  - nra.
  - nra.
  - intros Hpos. nra.
  - unfold updateStar, sampleTrail; simpl. apply beforeSample_baseSize.
Qed.

Lemma twinkle_size_range_witness :
  (0 <= s_baseSize Witness.strayStar)%R /\
  (0.3 * s_baseSize Witness.strayStar
   <= s_size (updateStar 1%R [] Witness.noMouse 100%R 100%R Witness.strayStar)
   <= 1.0 * s_baseSize Witness.strayStar)%R.
Proof.
  assert (Hb : (0 <= s_baseSize Witness.strayStar)%R) by (simpl; lra).
  split; [exact Hb|].
  exact (proj1 (twinkle_size_range 1%R [] Witness.noMouse 100%R 100%R
                  Witness.strayStar Hb)).
Defined.

(* ------------------------------------------------------------------ *)
(** ** The life of a shooting star *)

Module Life.
Local Open Scope R_scope.

Definition decaying (ss : @ShootingStar R) : Prop := 0 < ss_decay ss.

Lemma spawn_decaying (w h : R) (g : Rng R) :
  ExactFacts.unitDraws g ->
  decaying (fst (spawnShootingStar w h g)) /\
  ss_life (fst (spawnShootingStar w h g)) = 1.
Proof.
  intros Hg. unfold decaying, spawnShootingStar, bind, random, ret; simpl.
  pose proof (Hg (S (S (S (S (next g)))))) as Hr.
  unfold Q2R; simpl. split; lra.
Qed.

Lemma advance_life (ss : @ShootingStar R) :
  ss_life (advance ss) = ss_life ss - ss_decay ss /\
  ss_decay (advance ss) = ss_decay ss.
Proof. split; reflexivity. Qed.

Lemma alive_positive (ss : @ShootingStar R) :
  alive ss = true <-> 0 < ss_life ss.
Proof.
  unfold alive; simpl. replace (Q2R 0) with 0 by (unfold Q2R; simpl; lra).
  split; intros Hl.
  - apply Exact.leb_false. destruct (Exact.leb (ss_life ss) 0); [discriminate|reflexivity].
  - apply Exact.leb_false in Hl. rewrite Hl. reflexivity.
Qed.

Lemma maybeSpawn_decaying (sc : @Scene R) (g : Rng R) :
  ExactFacts.unitDraws g ->
  Forall decaying (shootingStars sc) ->
  Forall decaying (fst (maybeSpawn sc g)).
Proof.
  intros Hg Hsc. destruct (maybeSpawn_cases sc g) as [->|(_ & _ & ->)].
  - exact Hsc.
  - apply Forall_app. split; [exact Hsc|].
    constructor; [|constructor].
    apply spawn_decaying. intros i. apply Hg.
Qed.

Lemma update_decaying (sc : @Scene R) (g : Rng R) :
  ExactFacts.unitDraws g ->
  Forall decaying (shootingStars sc) ->
  Forall decaying (shootingStars (fst (update sc g))).
Proof.
  intros Hg Hsc. rewrite update_shootingStars.
  apply Forall_forall. intros ss' Hin.
  destruct (survivors_from _ _ Hin) as (ss & Hss & ->).
  pose proof (maybeSpawn_decaying sc Hg Hsc) as Hall.
  rewrite Forall_forall in Hall. apply (Hall ss Hss).
Qed.

(** In a session whose draws are in [[0, 1)], every shooting star of every
    scene decays at a positive rate. *)
Lemma session_decaying (w h : R) (es : list Event) (g : Rng R) :
  ExactFacts.unitDraws g ->
  Forall decaying (shootingStars (fst (session w h es g))).
Proof.
  intros Hg. rewrite session_run.
  apply (@run_invariant R _ _ (fun sc => Forall decaying (shootingStars sc))
                        ExactFacts.unitDraws).
  - intros e sc g0 Hg0 Hsc. destruct e; simpl; try exact Hsc.
    + apply update_decaying; assumption.
    + unfold onResize. rewrite initStars_shootingStars. exact Hsc.
  - intros e sc g0 Hg0 i. rewrite keeps_handle. apply Hg0.
  - intros i. unfold boot, onResize. rewrite keeps_initStars. apply Hg.
  - rewrite boot_shootingStars. constructor.
Qed.

(** A scene with one shooting star about to expire and one in flight. *)
Definition expiring : @ShootingStar R :=
  mkShootingStar 700 300 10 10 0.01 0.02 [] 28 2.
Definition flying : @ShootingStar R :=
  mkShootingStar 100 50 10 10 0.9 0.02 [] 28 2.
Definition sky : @Scene R :=
  mkScene 1000 800 (mkMouse None None) [] [expiring; flying] [] 0 1.

Lemma sky_no_spawn : fst (maybeSpawn sky ExactFacts.halves) = [expiring; flying].
Proof.
  unfold maybeSpawn, bind, random; simpl.
  replace (Exact.ltb (/ 2) (Q2R 0.0025)) with false; [reflexivity|].
  symmetry. apply Exact.ltb_false. unfold Q2R; simpl. lra.
Qed.

Lemma sky_decaying : Forall decaying (fst (maybeSpawn sky ExactFacts.halves)).
Proof.
  rewrite sky_no_spawn.
  repeat constructor; unfold decaying; simpl; lra.
Qed.

End Life.

(** C9.  In one tick (exact arithmetic), with [before] the shooting stars
    the loop starts from (a star spawned in this tick included), each of a
    positive decay rate: every shooting star left after the tick is one of
    [before] advanced, its life lower by its decay rate, hence strictly
    lower, and still positive; a shooting star whose lowered life is
    [<= 0] is not among those left, and one whose lowered life is positive
    is. *)
Theorem shooting_star_life (sc : @Scene R) (g : Rng R) :
  Forall Life.decaying (fst (maybeSpawn sc g)) ->
  let before := fst (maybeSpawn sc g) in
  let after := shootingStars (fst (update sc g)) in
  (forall ss', In ss' after ->
     exists ss, In ss before /\ ss' = advance ss /\
                ss_life ss' = (ss_life ss - ss_decay ss)%R /\
                (ss_life ss' < ss_life ss)%R /\
                ss_decay ss' = ss_decay ss /\
                (0 < ss_life ss')%R) /\
  (forall ss, In ss before -> (ss_life ss - ss_decay ss <= 0)%R ->
     ~ In (advance ss) after) /\
  (forall ss, In ss before -> (0 < ss_life ss - ss_decay ss)%R ->
     In (advance ss) after).
Proof.
  intros Hdec before after.
  assert (Hafter : after = survivors before) by apply update_shootingStars.
  rewrite Hafter. split; [|split].
  - intros ss' Hin.
    destruct (survivors_from _ _ Hin) as (ss & Hss & ->).
    exists ss. rewrite Forall_forall in Hdec. specialize (Hdec ss Hss).
    unfold Life.decaying in Hdec.
    apply filter_In in Hin. destruct Hin as [_ Hal].
    apply Life.alive_positive in Hal.
    destruct (Life.advance_life ss) as [Hl Hd].
    repeat split; try assumption. rewrite Hl. lra.
  - intros ss Hss Hle Hin.
    apply filter_In in Hin. destruct Hin as [_ Hal].
    apply Life.alive_positive in Hal.
    destruct (Life.advance_life ss) as [Hl _]. lra.
  - intros ss Hss Hpos. apply filter_In. split.
    + apply in_map, Hss.
    + apply Life.alive_positive.
      destruct (Life.advance_life ss) as [Hl _]. lra.
Qed.

Lemma shooting_star_life_witness :
  Forall Life.decaying (fst (maybeSpawn Life.sky ExactFacts.halves)) /\
  ~ In (advance Life.expiring)
       (shootingStars (fst (update Life.sky ExactFacts.halves))).
Proof.
  split; [exact Life.sky_decaying|].
  apply (proj1 (proj2 (shooting_star_life Life.sky ExactFacts.halves Life.sky_decaying))).
  - rewrite Life.sky_no_spawn. left; reflexivity.
  - simpl. lra.
Defined.

(* ================================================================== *)
(** * Further properties: binary64, the factories, the motion, drawing *)
(* ================================================================== *)

Unset Implicit Arguments.

(* ================================================================== *)
(** * Binary64: rounding between numbers of the format *)
(* ================================================================== *)

Module Binary64.
Import Round.
Local Open Scope Z_scope.

(** A mantissa and exponent in the form binary64 stores them. *)
Definition canonical (m : positive) (e : Z) : Prop :=
  Z.max (dg m + e - 53) (-1074) = e.

Lemma bounded_canonical (m : positive) (e : Z) :
  bounded prec emax m e = true -> canonical m e /\ e <= 971.
Proof. intros Hb. destruct (canonical_cases m e Hb). split; assumption. Qed.

Lemma pow2_pos (k : Z) : 0 <= k -> 0 < 2 ^ k.
Proof. intros. apply Z.pow_pos_nonneg; lia. Qed.

Lemma pow2_split (a b : Z) : 0 <= a -> 0 <= b -> 2 ^ (a + b) = 2 ^ a * 2 ^ b.
Proof. intros. apply Z.pow_add_r; assumption. Qed.

(** Order of canonical numbers: by value, and as [SFcompare] has it. *)
Lemma canonical_exponent_le (m1 m2 : positive) (e1 e2 b : Z) :
  canonical m1 e1 -> canonical m2 e2 -> b <= e1 -> b <= e2 ->
  Zpos m1 * 2 ^ (e1 - b) <= Zpos m2 * 2 ^ (e2 - b) ->
  e1 <= e2.
Proof.
  unfold canonical. intros H1 H2 Hb1 Hb2 Hv.
  destruct (Z.le_gt_cases e1 e2) as [Hle|Hgt]; [exact Hle|exfalso].
  assert (Hd1 : dg m1 = 53) by lia.
  assert (Hd2 : dg m2 <= 53) by lia.
  pose proof (dg_bounds m1) as [Hlo _]. rewrite Hd1 in Hlo.
  pose proof (dg_bounds m2) as [_ Hhi]. pose proof (dg_pos m2).
  assert (Hm2 : Zpos m2 < 2 ^ 53).
  { eapply Z.lt_le_trans; [exact Hhi|]. apply Z.pow_le_mono_r; lia. }
  replace (e1 - b) with ((e1 - e2) + (e2 - b)) in Hv by lia.
  rewrite pow2_split in Hv by lia.
  pose proof (pow2_pos (e2 - b) ltac:(lia)) as Hp.
  assert (Hstep : 2 ^ 1 <= 2 ^ (e1 - e2)) by (apply Z.pow_le_mono_r; lia).
  change (2 ^ 1) with 2 in Hstep. change (2 ^ (53 - 1)) with 4503599627370496 in Hlo.
  change (2 ^ 53) with 9007199254740992 in Hm2.
  assert (Zpos m2 * 2 ^ (e2 - b) < Zpos m1 * (2 ^ (e1 - e2) * 2 ^ (e2 - b))); [|lia].
  apply Z.lt_le_trans with (9007199254740992 * 2 ^ (e2 - b)); [nia|].
  rewrite Z.mul_assoc. apply Z.mul_le_mono_nonneg_r; [lia|]. nia.
Qed.

Lemma canonical_leb (m1 m2 : positive) (e1 e2 b : Z) :
  canonical m1 e1 -> canonical m2 e2 -> b <= e1 -> b <= e2 ->
  Zpos m1 * 2 ^ (e1 - b) <= Zpos m2 * 2 ^ (e2 - b) ->
  SFleb (S754_finite false m1 e1) (S754_finite false m2 e2) = true.
Proof.
  intros H1 H2 Hb1 Hb2 Hv.
  pose proof (canonical_exponent_le m1 m2 e1 e2 b H1 H2 Hb1 Hb2 Hv) as He.
  cbv beta iota delta [SFleb SFcompare].
  destruct (Z.compare_spec e1 e2) as [Heq|Hlt|Hgt]; try reflexivity; [|lia].
  subst e2. change (Pos.compare_cont Eq m1 m2) with (m1 ?= m2)%positive.
  pose proof (pow2_pos (e1 - b) ltac:(lia)) as Hp.
  assert (Hm : (m1 <= m2)%positive) by nia.
  unfold Pos.le in Hm. destruct (m1 ?= m2)%positive; try reflexivity.
  exfalso; apply Hm; reflexivity.
Qed.

Lemma canonical_ltb (m1 m2 : positive) (e1 e2 b : Z) :
  canonical m1 e1 -> canonical m2 e2 -> b <= e1 -> b <= e2 ->
  Zpos m1 * 2 ^ (e1 - b) < Zpos m2 * 2 ^ (e2 - b) ->
  SFltb (S754_finite false m1 e1) (S754_finite false m2 e2) = true.
Proof.
  intros H1 H2 Hb1 Hb2 Hv.
  pose proof (canonical_exponent_le m1 m2 e1 e2 b H1 H2 Hb1 Hb2 ltac:(lia)) as He.
  cbv beta iota delta [SFltb SFcompare].
  destruct (Z.compare_spec e1 e2) as [Heq|Hlt|Hgt]; try reflexivity; [|lia].
  subst e2. change (Pos.compare_cont Eq m1 m2) with (m1 ?= m2)%positive.
  pose proof (pow2_pos (e1 - b) ltac:(lia)) as Hp.
  assert (Hm : (m1 < m2)%positive) by nia.
  rewrite (proj2 (Pos.compare_lt_iff m1 m2) Hm). reflexivity.
Qed.

(** Shifting out zeros is exact. *)
Lemma shr_1_exact (z : Z) :
  0 <= z -> shr_1 (Build_shr_record (2 * z) false false) = Build_shr_record z false false.
Proof. destruct z as [|p|p]; intros Hz; reflexivity. Qed.

Lemma shr_iter_exact (p : positive) :
  forall z, 0 <= z ->
    iter_pos shr_1 p (Build_shr_record (2 ^ Zpos p * z) false false)
    = Build_shr_record z false false.
Proof.
  induction p as [p IH|p IH|]; intros z Hz.
  - replace (2 ^ Zpos p~1 * z) with (2 * (2 ^ Zpos p * (2 ^ Zpos p * z))).
    + pose proof (pow2_pos (Zpos p) ltac:(lia)).
      change (iter_pos shr_1 p~1 ?x) with (iter_pos shr_1 p (iter_pos shr_1 p (shr_1 x))).
      rewrite shr_1_exact by nia. rewrite IH by nia. apply IH, Hz.
    + replace (Zpos p~1) with (1 + (Zpos p + Zpos p)) by lia.
      rewrite !Z.pow_add_r by lia. change (2 ^ 1) with 2. ring.
  - replace (2 ^ Zpos p~0 * z) with (2 ^ Zpos p * (2 ^ Zpos p * z)).
    + pose proof (pow2_pos (Zpos p) ltac:(lia)).
      change (iter_pos shr_1 p~0 ?x) with (iter_pos shr_1 p (iter_pos shr_1 p x)).
      rewrite IH by nia. apply IH, Hz.
    + replace (Zpos p~0) with (Zpos p + Zpos p) by lia.
      rewrite Z.pow_add_r by lia. ring.
  - change (2 ^ 1) with 2. apply shr_1_exact, Hz.
Qed.

(** The second half of [binary_round_aux]: normalise a rounded mantissa. *)
Definition finish (s : bool) (rn e : Z) : spec_float :=
  let '(mrs, e') := shr_fexp prec emax rn e loc_Exact in
  match shr_m mrs with
  | Z0 => S754_zero s
  | Zpos m => if e' <=? emax - prec then S754_finite s m e' else S754_infinity s
  | Zneg _ => S754_nan
  end.

(** The first half: shift to the exponent of the format and round. *)
Lemma round_split (s : bool) (P : positive) (ex : Z) :
  let E1 := fexp prec emax (dg P + ex) in
  let n := E1 - ex in
  let q := Zpos P / 2 ^ n in
  0 <= n ->
  exists rn, q <= rn <= q + 1 /\ (Zpos P mod 2 ^ n = 0 -> rn = q) /\
             binary_round_aux prec emax s (Zpos P) ex loc_Exact = finish s rn E1.
Proof.
  intros E1 n q Hn. unfold binary_round_aux, finish.
  destruct (Z.eq_dec n 0) as [H0|H0].
  - assert (Hk : fexp prec emax (Zdigits2 (Zpos P) + ex) - ex <= 0)
      by (simpl Zdigits2; fold (dg P); fold E1; lia).
    rewrite (shr_fexp_keep (Zpos P) ex Hk). simpl shr_m. simpl loc_of_shr_record.
    simpl round_nearest_even.
    exists (Zpos P). unfold q. rewrite H0. change (2 ^ 0) with 1. rewrite Z.div_1_r.
    replace ex with E1 by (unfold n in H0; lia).
    split; [lia|]. split; [reflexivity|]. reflexivity.
  - destruct n as [|k|k] eqn:En; try lia.
    unfold shr_fexp at 1. unfold shr. simpl Zdigits2. fold (dg P). fold E1.
    replace (E1 - ex) with (Zpos k) by (unfold n in En; lia).
    set (mrs := iter_pos shr_1 k (shr_record_of_loc (Zpos P) loc_Exact)).
    assert (Hm : shr_m mrs = q).
    { unfold mrs. rewrite shr_iter_m by (simpl; lia). simpl shr_m.
      unfold q. apply Z.shiftr_div_pow2. lia. }
    exists (round_nearest_even (shr_m mrs) (loc_of_shr_record mrs)).
    replace (ex + Zpos k) with E1 by (unfold n in En; lia).
    split; [rewrite <- Hm; apply rne_bounds|]. split; [|reflexivity].
    intros Hdiv.
    assert (HP : Zpos P = 2 ^ Zpos k * q).
    { unfold q. apply Z.div_exact in Hdiv; [exact Hdiv|].
      pose proof (pow2_pos (Zpos k) ltac:(lia)). lia. }
    assert (Hq : 0 <= q) by (unfold q; apply Z.div_pos; [lia|apply pow2_pos; lia]).
    assert (Hrec : mrs = Build_shr_record q false false).
    { unfold mrs. simpl shr_record_of_loc. rewrite HP. apply shr_iter_exact, Hq. }
    rewrite Hrec. reflexivity.
Qed.

Lemma finish_keep (s : bool) (p : positive) (e : Z) :
  canonical p e ->
  finish s (Zpos p) e = if e <=? 971 then S754_finite s p e else S754_infinity s.
Proof.
  unfold canonical. intros Hc. unfold finish.
  assert (Hk : fexp prec emax (Zdigits2 (Zpos p) + e) - e <= 0).
  { rewrite fexp64. simpl Zdigits2. fold (dg p). lia. }
  rewrite (shr_fexp_keep (Zpos p) e Hk). reflexivity.
Qed.

Lemma finish_zero (s : bool) (e : Z) : -1074 <= e -> finish s 0 e = S754_zero s.
Proof.
  intros He. unfold finish.
  assert (Hk : fexp prec emax (Zdigits2 0 + e) - e <= 0).
  { rewrite fexp64. simpl Zdigits2. lia. }
  rewrite (shr_fexp_keep 0 e Hk). reflexivity.
Qed.

Lemma finish_shape (s : bool) (P : positive) (ex rn : Z) :
  let E1 := fexp prec emax (dg P + ex) in
  let n := E1 - ex in
  let q := Zpos P / 2 ^ n in
  0 <= n -> q <= rn <= q + 1 ->
  (rn = 0 /\ finish s rn E1 = S754_zero s) \/
  (exists m'' e'',
      E1 <= e'' /\ Zpos m'' * 2 ^ (e'' - E1) = rn /\ canonical m'' e'' /\
      finish s rn E1 = if e'' <=? 971 then S754_finite s m'' e'' else S754_infinity s).
Proof.
  intros E1 n q Hn Hrn.
  assert (HE1 : E1 = Z.max (dg P + ex - 53) (-1074)) by (unfold E1; apply fexp64).
  pose proof (dg_bounds P) as [HPlo HPhi]. pose proof (dg_pos P) as HD.
  pose proof (pow2_pos n Hn) as H2n.
  assert (Hq0 : 0 <= q) by (unfold q; apply Z.div_pos; lia).
  destruct rn as [|p|p]; [left|right|lia].
  - split; [reflexivity|]. apply finish_zero. lia.
  - destruct (Z.eq_dec q 0) as [Hqz|Hqz].
    + (* underflow to the least subnormal *)
      assert (Hp : p = 1%positive) by lia. subst p.
      assert (HnD : dg P <= n).
      { destruct (Z.le_gt_cases (dg P) n) as [Hle|Hgt]; [exact Hle|exfalso].
        assert (1 <= q); [|lia]. unfold q.
        apply Z.div_le_lower_bound; [lia|].
        apply Z.le_trans with (2 ^ (dg P - 1)); [|exact HPlo].
        rewrite Z.mul_1_r. apply Z.pow_le_mono_r; lia. }
      assert (Hmin : E1 = -1074) by (unfold n in HnD; lia).
      exists 1%positive, E1. split; [lia|]. split.
      * rewrite Z.sub_diag. reflexivity.
      * assert (Hc : canonical 1 E1) by (unfold canonical; rewrite Hmin; reflexivity).
        split; [exact Hc|]. apply finish_keep, Hc.
    + assert (Hq1 : 1 <= q) by lia.
      assert (HnD : n < dg P).
      { destruct (Z.lt_ge_cases n (dg P)) as [Hlt|Hge]; [exact Hlt|exfalso].
        assert (q = 0); [|lia]. unfold q. apply Z.div_small. split; [lia|].
        eapply Z.lt_le_trans; [exact HPhi|]. apply Z.pow_le_mono_r; lia. }
      set (k := dg P - n).
      assert (Hk1 : 1 <= k) by (unfold k; lia).
      assert (Hk53 : k <= 53) by (unfold k, n; lia).
      assert (Hqlo : 2 ^ (k - 1) <= q).
      { unfold q. apply Z.div_le_lower_bound; [lia|].
        rewrite <- pow2_split by lia. replace (n + (k - 1)) with (dg P - 1) by (unfold k; lia).
        exact HPlo. }
      assert (Hqhi : q < 2 ^ k).
      { unfold q. apply Z.div_lt_upper_bound; [lia|].
        rewrite <- pow2_split by lia. replace (n + k) with (dg P) by (unfold k; lia).
        exact HPhi. }
      assert (HkE : k + E1 = dg P + ex) by (unfold k, n; lia).
      destruct (Z_lt_le_dec (Zpos p) (2 ^ k)) as [Hlt|Hge].
      * assert (Hdp : dg p = k) by (apply dg_unique; lia).
        assert (Hc : canonical p E1) by (unfold canonical; lia).
        exists p, E1. split; [lia|]. split; [rewrite Z.sub_diag; simpl; lia|].
        split; [exact Hc|]. apply finish_keep, Hc.
      * assert (Hp : Zpos p = 2 ^ k) by lia.
        assert (Hdp : dg p = k + 1).
        { apply dg_unique. replace (k + 1 - 1) with k by lia.
          rewrite Hp. split; [lia|]. apply Z.pow_lt_mono_r; lia. }
        destruct (Z_le_gt_dec (dg P + ex + 1 - 53) (-1074)) as [Hsub|Hnorm].
        -- assert (Hc : canonical p E1) by (unfold canonical; lia).
           exists p, E1. split; [lia|]. split; [rewrite Z.sub_diag; simpl; lia|].
           split; [exact Hc|]. apply finish_keep, Hc.
        -- assert (Hn2 : fexp prec emax (dg p + E1) - E1 = Zpos 1).
           { rewrite fexp64. lia. }
           destruct (shr_fexp_shift p E1 1 Hn2) as (mrs2 & Hs2 & Hq2).
           unfold finish. rewrite Hs2, Hq2, Hp.
           change (2 ^ 1) with 2.
           assert (Hhalf : 2 ^ k / 2 = 2 ^ (k - 1)).
           { replace k with (1 + (k - 1)) at 1 by lia.
             rewrite pow2_split by lia. change (2 ^ 1) with 2.
             rewrite Z.mul_comm, Z.div_mul by lia. reflexivity. }
           rewrite Hhalf.
           pose proof (pow2_pos (k - 1) ltac:(lia)) as Hpk.
           destruct (2 ^ (k - 1)) as [|m''|m''] eqn:Em; try lia.
           exists m'', (E1 + 1). split; [lia|]. split.
           ++ replace (E1 + 1 - E1) with 1 by lia. change (2 ^ 1) with 2.
              rewrite <- Em.
              replace (2 ^ k) with (2 ^ 1 * 2 ^ (k - 1));
                [change (2 ^ 1) with 2; ring|].
              rewrite <- pow2_split by lia. f_equal. lia.
           ++ assert (Hdm : dg m'' = k).
              { apply dg_unique. rewrite <- Em. split; [lia|].
                apply Z.pow_lt_mono_r; lia. }
              split; [unfold canonical; lia|]. reflexivity.
Qed.

(** What [binary_round_aux] can return on a positive mantissa. *)
Lemma round_shape (s : bool) (P : positive) (ex : Z) :
  ex <= fexp prec emax (dg P + ex) ->
  let r := binary_round_aux prec emax s (Zpos P) ex loc_Exact in
  r = S754_zero s \/ r = S754_infinity s \/ exists m e, r = S754_finite s m e.
Proof.
  intros Hn r.
  destruct (round_split s P ex ltac:(lia)) as (rn & Hrn & _ & Hr).
  fold r in Hr. rewrite Hr.
  destruct (finish_shape s P ex rn ltac:(lia) Hrn) as [[_ ->]|(m & e & _ & _ & _ & ->)].
  - left; reflexivity.
  - right. destruct (e <=? 971); [right; exists m, e; reflexivity | left; reflexivity].
Qed.

(** Rounding does not cross a number of the format: from below... *)
Lemma round_le (s : bool) (P : positive) (ex : Z) (m : positive) (e : Z) :
  ex <= fexp prec emax (dg P + ex) ->
  canonical m e -> e <= 971 -> ex <= e ->
  Zpos P <= Zpos m * 2 ^ (e - ex) ->
  SFleb (SFabs (binary_round_aux prec emax s (Zpos P) ex loc_Exact))
        (S754_finite false m e) = true.
Proof.
  intros Hn Hc He Hex Hv.
  set (E1 := fexp prec emax (dg P + ex)) in *.
  assert (HE1 : E1 = Z.max (dg P + ex - 53) (-1074)) by (unfold E1; apply fexp64).
  pose proof (dg_bounds P) as [HPlo HPhi]. pose proof (dg_pos P) as HD.
  pose proof (dg_bounds m) as [Hmlo Hmhi]. pose proof (dg_pos m) as Hdm.
  assert (Hmag : dg P + ex <= dg m + e).
  { destruct (Z.le_gt_cases (dg P + ex) (dg m + e)) as [Hle|Hgt]; [exact Hle|exfalso].
    assert (Zpos m * 2 ^ (e - ex) < 2 ^ (dg P - 1)); [|lia].
    apply Z.lt_le_trans with (2 ^ dg m * 2 ^ (e - ex)).
    - apply Z.mul_lt_mono_pos_r; [apply pow2_pos; lia | exact Hmhi].
    - rewrite <- pow2_split by lia. apply Z.pow_le_mono_r; lia. }
  assert (HE1e : E1 <= e) by (unfold canonical in Hc; lia).
  set (n := E1 - ex).
  pose proof (pow2_pos n ltac:(unfold n; lia)) as H2n.
  set (M := Zpos m * 2 ^ (e - E1)).
  assert (HM : Zpos m * 2 ^ (e - ex) = 2 ^ n * M).
  { unfold M. replace (e - ex) with (n + (e - E1)) by (unfold n; lia).
    rewrite pow2_split by (unfold n; lia). ring. }
  destruct (round_split s P ex ltac:(fold E1; lia)) as (rn & Hrn & Hexact & Hr).
  fold E1 in Hrn, Hexact, Hr. fold n in Hrn, Hexact.
  set (q := Zpos P / 2 ^ n) in *.
  assert (HqM : q <= M).
  { unfold q. apply Z.div_le_upper_bound; [lia|]. lia. }
  assert (HrnM : rn <= M).
  { destruct (Z.eq_dec q M) as [Heq|Hne]; [|lia].
    assert (Hdiv : Zpos P mod 2 ^ n = 0).
    { pose proof (Z.mul_div_le (Zpos P) (2 ^ n) H2n) as Hd. fold q in Hd.
      assert (HPq : Zpos P = 2 ^ n * q) by lia.
      rewrite HPq, Z.mul_comm. apply Z.mod_mul. lia. }
    rewrite (Hexact Hdiv). lia. }
  rewrite Hr.
  pose proof (finish_shape s P ex rn ltac:(fold E1; lia)
                ltac:(fold E1; fold n; fold q; exact Hrn)) as Hshape.
  fold E1 in Hshape.
  destruct Hshape as [[_ Hf]|(m'' & e'' & HEe & Hval & Hc'' & Hf)]; rewrite Hf.
  - reflexivity.
  - assert (Hle : Zpos m'' * 2 ^ (e'' - E1) <= Zpos m * 2 ^ (e - E1)) by (fold M; lia).
    pose proof (canonical_exponent_le m'' m e'' e E1 Hc'' Hc HEe HE1e Hle) as Hee.
    rewrite (proj2 (Z.leb_le e'' 971)) by lia.
    simpl SFabs. exact (canonical_leb m'' m e'' e E1 Hc'' Hc HEe HE1e Hle).
Qed.

(** ... and from above. *)
Lemma round_ge (s : bool) (P : positive) (ex : Z) (m : positive) (e : Z) :
  ex <= fexp prec emax (dg P + ex) ->
  canonical m e -> ex <= e ->
  Zpos m * 2 ^ (e - ex) <= Zpos P ->
  SFleb (S754_finite false m e)
        (SFabs (binary_round_aux prec emax s (Zpos P) ex loc_Exact)) = true.
Proof.
  intros Hn Hc Hex Hv.
  set (E1 := fexp prec emax (dg P + ex)) in *.
  assert (HE1 : E1 = Z.max (dg P + ex - 53) (-1074)) by (unfold E1; apply fexp64).
  pose proof (dg_bounds P) as [HPlo HPhi]. pose proof (dg_pos P) as HD.
  pose proof (dg_bounds m) as [Hmlo Hmhi]. pose proof (dg_pos m) as Hdm.
  assert (Hmag : dg m + e <= dg P + ex).
  { destruct (Z.le_gt_cases (dg m + e) (dg P + ex)) as [Hle|Hgt]; [exact Hle|exfalso].
    assert (2 ^ dg P <= Zpos m * 2 ^ (e - ex)); [|lia].
    apply Z.le_trans with (2 ^ (dg m - 1) * 2 ^ (e - ex)).
    - rewrite <- pow2_split by lia. apply Z.pow_le_mono_r; lia.
    - apply Z.mul_le_mono_nonneg_r; [apply Z.lt_le_incl, pow2_pos; lia | exact Hmlo]. }
  assert (HeE1 : e <= E1) by (unfold canonical in Hc; lia).
  set (n := E1 - ex).
  pose proof (pow2_pos n ltac:(unfold n; lia)) as H2n.
  destruct (round_split s P ex ltac:(fold E1; lia)) as (rn & Hrn & _ & Hr).
  fold E1 in Hrn, Hr. fold n in Hrn.
  set (q := Zpos P / 2 ^ n) in *.
  (* the rounded mantissa, scaled to the exponent of the bound, is at least [m] *)
  assert (Hbig : Zpos m <= q * 2 ^ (E1 - e)).
  { destruct (Z.eq_dec E1 e) as [Heq|Hne].
    - rewrite Heq, Z.sub_diag. change (2 ^ 0) with 1. rewrite Z.mul_1_r.
      unfold q. apply Z.div_le_lower_bound; [lia|].
      replace n with (e - ex) by (unfold n; lia). lia.
    - assert (HnD : n = dg P - 53) by (unfold n, canonical in *; lia).
      assert (Hlow : dg m + e < dg P + ex) by (unfold canonical in Hc; lia).
      assert (Hq : 2 ^ (dg P - 1 - n) <= q).
      { unfold q. apply Z.div_le_lower_bound; [lia|].
        rewrite <- pow2_split by lia.
        replace (n + (dg P - 1 - n)) with (dg P - 1) by lia. exact HPlo. }
      apply Z.le_trans with (2 ^ dg m); [lia|].
      apply Z.le_trans with (2 ^ (dg P - 1 - n) * 2 ^ (E1 - e)).
      + rewrite <- pow2_split by lia. apply Z.pow_le_mono_r; [lia|]. unfold n. lia.
      + apply Z.mul_le_mono_nonneg_r; [apply Z.lt_le_incl, pow2_pos; lia | exact Hq]. }
  pose proof (pow2_pos (E1 - e) ltac:(lia)) as H2e.
  rewrite Hr.
  pose proof (finish_shape s P ex rn ltac:(fold E1; lia)
                ltac:(fold E1; fold n; fold q; exact Hrn)) as Hshape.
  fold E1 in Hshape.
  destruct Hshape as [[Hz Hf]|(m'' & e'' & HEe & Hval & Hc'' & Hf)]; rewrite Hf.
  - exfalso. subst rn. assert (q = 0) by lia. nia.
  - destruct (e'' <=? 971); [|reflexivity].
    simpl SFabs. apply (canonical_leb m m'' e e'' e Hc Hc''); try lia.
    rewrite Z.sub_diag. change (2 ^ 0) with 1. rewrite Z.mul_1_r.
    replace (e'' - e) with ((e'' - E1) + (E1 - e)) by lia.
    rewrite pow2_split by lia. rewrite Z.mul_assoc, Hval. nia.
Qed.

(** The exact product of two numbers of the format is never shifted left. *)
Lemma product_coarse (mx my : positive) (ex ey : Z) :
  canonical mx ex -> canonical my ey ->
  ex + ey <= fexp prec emax (dg (mx * my) + (ex + ey)).
Proof.
  unfold canonical. intros Hx Hy. rewrite fexp64.
  pose proof (dg_bounds mx) as [Hxlo _]. pose proof (dg_bounds my) as [Hylo _].
  pose proof (dg_bounds (mx * my)) as [_ Hhi].
  pose proof (dg_pos mx). pose proof (dg_pos my). pose proof (dg_pos (mx * my)).
  assert (HD : dg mx + dg my - 1 <= dg (mx * my)).
  { destruct (Z.le_gt_cases (dg mx + dg my - 1) (dg (mx * my))) as [Hle|Hgt];
      [exact Hle|exfalso].
    assert (2 ^ dg (mx * my) <= 2 ^ (dg mx - 1) * 2 ^ (dg my - 1)).
    { rewrite <- pow2_split by lia. apply Z.pow_le_mono_r; lia. }
    rewrite Pos2Z.inj_mul in Hhi.
    pose proof (pow2_pos (dg mx - 1) ltac:(lia)).
    pose proof (pow2_pos (dg my - 1) ltac:(lia)). nia. }
  lia.
Qed.

Lemma iter_xO (m d : positive) : Zpos (Pos.iter xO m d) = Zpos m * 2 ^ Zpos d.
Proof.
  induction d as [|d IH] using Pos.peano_ind.
  - simpl. lia.
  - rewrite Pos.iter_succ, Pos2Z.inj_xO, IH, Pos2Z.inj_succ, Z.pow_succ_r by lia. ring.
Qed.

Lemma shl_align_value (m : positive) (e t : Z) :
  let (m', e') := shl_align m e t in
  e' = Z.min e t /\ Zpos m' = Zpos m * 2 ^ (e - e').
Proof.
  unfold shl_align. destruct (t - e) as [|d|d] eqn:Ed.
  - split; [lia|]. rewrite Z.sub_diag. simpl. lia.
  - split; [lia|]. rewrite Z.sub_diag. simpl. lia.
  - split; [lia|]. rewrite iter_xO. f_equal. f_equal. lia.
Qed.

(** [binary_round] as a call of [binary_round_aux] that shifts right. *)
Lemma binary_round_aux_form (s : bool) (z : positive) (ez : Z) :
  exists P ex,
    ex <= ez /\ Zpos P = Zpos z * 2 ^ (ez - ex) /\
    ex <= fexp prec emax (dg P + ex) /\
    binary_round prec emax s z ez = binary_round_aux prec emax s (Zpos P) ex loc_Exact.
Proof.
  unfold binary_round. fold (dg z).
  pose proof (shl_align_value z ez (fexp prec emax (dg z + ez))) as Hs.
  destruct (shl_align z ez (fexp prec emax (dg z + ez))) as [P ex].
  destruct Hs as [Hex HP]. exists P, ex.
  split; [lia|]. split; [exact HP|]. split; [|reflexivity].
  assert (Hdg : dg P + ex = dg z + ez).
  { pose proof (dg_bounds z) as [Hlo Hhi]. pose proof (dg_pos z).
    assert (dg P = dg z + (ez - ex)); [|lia].
    apply dg_unique. rewrite HP.
    pose proof (pow2_pos (ez - ex) ltac:(lia)).
    replace (dg z + (ez - ex) - 1) with ((dg z - 1) + (ez - ex)) by lia.
    rewrite !pow2_split by lia. nia. }
  rewrite Hdg. lia.
Qed.

Lemma SFleb_refl (s : bool) (m : positive) (e : Z) :
  SFleb (S754_finite s m e) (S754_finite s m e) = true.
Proof.
  cbv beta iota delta [SFleb SFcompare]. rewrite Z.compare_refl.
  change (Pos.compare_cont Eq m m) with (m ?= m)%positive. rewrite Pos.compare_refl.
  destruct s; reflexivity.
Qed.

(** Subtracting a number that is not negative from a positive number of
    the format yields no more than that number. *)
Lemma SFsub_le (mx : positive) (ex : Z) (y : spec_float) :
  bounded prec emax mx ex = true ->
  valid_binary y = true ->
  match y with
  | S754_zero _ | S754_finite false _ _ | S754_infinity false => True
  | _ => False
  end ->
  SFleb (SF64sub (S754_finite false mx ex) y) (S754_finite false mx ex) = true.
Proof.
  intros Hbx Hvy Hy.
  destruct (bounded_canonical mx ex Hbx) as [Hcx Hex].
  destruct y as [sy|[|]| |[|] my ey]; try contradiction; try reflexivity.
  - apply SFleb_refl.
  - simpl in Hvy. destruct (bounded_canonical my ey Hvy) as [Hcy Hey].
    unfold SF64sub, SFsub. set (ez := Z.min ex ey).
    pose proof (shl_align_value mx ex ez) as Hax.
    pose proof (shl_align_value my ey ez) as Hay.
    destruct (shl_align mx ex ez) as [mx' ex']. destruct (shl_align my ey ez) as [my' ey'].
    destruct Hax as [Hex' Hmx']. destruct Hay as [Hey' Hmy']. simpl fst. simpl cond_Zopp.
    assert (Hex'' : ex' = ez) by (unfold ez in *; lia).
    assert (Hey'' : ey' = ez) by (unfold ez in *; lia).
    clear Hex' Hey'. subst ex' ey'.
    unfold binary_normalize.
    destruct (Zpos mx' - Zpos my') as [|z|z] eqn:Ez.
    + reflexivity.
    + destruct (binary_round_aux_form false z ez) as (P & e0 & He0 & HP & Hn & ->).
      assert (Hb : SFleb (SFabs (binary_round_aux prec emax false (Zpos P) e0 loc_Exact))
                         (S754_finite false mx ex) = true).
      { apply round_le; try assumption; [unfold ez in *; lia|].
        rewrite HP. replace (ex - e0) with ((ex - ez) + (ez - e0)) by (unfold ez in *; lia).
        rewrite pow2_split by (unfold ez in *; lia). rewrite Z.mul_assoc, <- Hmx'.
        apply Z.mul_le_mono_nonneg_r; [apply Z.lt_le_incl, pow2_pos; lia | lia]. }
      destruct (round_shape false P e0 Hn) as [Hr|[Hr|(m & e & Hr)]];
        rewrite Hr in Hb |- *; exact Hb.
    + destruct (binary_round_aux_form true z ez) as (P & e0 & He0 & HP & Hn & ->).
      destruct (round_shape true P e0 Hn) as [Hr|[Hr|(m & e & Hr)]];
        rewrite Hr; reflexivity.
Qed.

(** Numbers that are zero, positive or [+infinity]. *)
Definition nonneg_sf (y : spec_float) : Prop :=
  match y with
  | S754_zero _ | S754_finite false _ _ | S754_infinity false => True
  | _ => False
  end.

Definition positive_sf (y : spec_float) : Prop :=
  match y with
  | S754_finite false _ _ | S754_infinity false => True
  | _ => False
  end.

Lemma leb_zero_nonneg (y : float) :
  PrimFloat.leb 0%float y = true -> nonneg_sf (Prim2SF y).
Proof.
  rewrite leb_spec. change (Prim2SF 0%float) with (S754_zero false).
  destruct (Prim2SF y) as [s|[|]| |[|] m e]; simpl; intros H; try exact I; discriminate.
Qed.

Lemma ltb_zero_positive (y : float) :
  PrimFloat.ltb 0%float y = true -> positive_sf (Prim2SF y).
Proof.
  rewrite ltb_spec. change (Prim2SF 0%float) with (S754_zero false).
  destruct (Prim2SF y) as [s|[|]| |[|] m e]; simpl; intros H; try exact I; discriminate.
Qed.

Lemma positive_finite (x : float) :
  PrimFloat.ltb 0%float x = true -> finite x = true ->
  exists m e, Prim2SF x = S754_finite false m e /\ bounded prec emax m e = true.
Proof.
  intros Hp Hf. apply ltb_zero_positive in Hp.
  destruct (finite_spec x Hf) as [(s & Hx)|(s & m & e & Hx & Hb)]; rewrite Hx in Hp.
  - contradiction.
  - destruct s; [contradiction|]. exists m, e. split; assumption.
Qed.

(** Subtraction in binary64: [x - y <= x] for positive finite [x] and
    [y >= 0]. *)
Lemma sub_le (x y : float) :
  PrimFloat.ltb 0%float x = true -> finite x = true ->
  PrimFloat.leb 0%float y = true ->
  PrimFloat.leb (PrimFloat.sub x y) x = true.
Proof.
  intros Hp Hf Hy.
  destruct (positive_finite x Hp Hf) as (m & e & Hx & Hb).
  rewrite leb_spec, sub_spec, Hx.
  apply SFsub_le; [exact Hb | apply Prim2SF_valid | apply leb_zero_nonneg, Hy].
Qed.

Lemma sub_le_sf (x y : float) :
  (exists m e, Prim2SF x = S754_finite false m e) ->
  nonneg_sf (Prim2SF y) ->
  PrimFloat.leb (PrimFloat.sub x y) x = true.
Proof.
  intros (m & e & Hx) Hy. pose proof (Prim2SF_valid x) as Hv. rewrite Hx in Hv.
  rewrite leb_spec, sub_spec, Hx.
  apply SFsub_le; [exact Hv | apply Prim2SF_valid | exact Hy].
Qed.

(** What rounding returns on any mantissa that is not negative. *)
Lemma shr_fexp_nonneg (m e : Z) (l : location) :
  0 <= m -> 0 <= shr_m (fst (shr_fexp prec emax m e l)).
Proof.
  intros Hm. unfold shr_fexp, shr.
  destruct (fexp prec emax (Zdigits2 m + e) - e) as [|p|p]; simpl fst.
  - destruct l as [|[| |]]; exact Hm.
  - rewrite shr_iter_m by (destruct l as [|[| |]]; exact Hm).
    apply Z.shiftr_nonneg. destruct l as [|[| |]]; exact Hm.
  - destruct l as [|[| |]]; exact Hm.
Qed.

Lemma round_aux_cases (s : bool) (m e : Z) (l : location) :
  0 <= m ->
  let r := binary_round_aux prec emax s m e l in
  r = S754_zero s \/ r = S754_infinity s \/ exists m' e', r = S754_finite s m' e'.
Proof.
  intros Hm r. unfold r, binary_round_aux.
  pose proof (shr_fexp_nonneg m e l Hm) as H1.
  destruct (shr_fexp prec emax m e l) as [mrs' e']. simpl fst in H1.
  pose proof (rne_bounds (shr_m mrs') (loc_of_shr_record mrs')) as Hr.
  pose proof (shr_fexp_nonneg (round_nearest_even (shr_m mrs') (loc_of_shr_record mrs'))
                e' loc_Exact ltac:(lia)) as H2.
  destruct (shr_fexp prec emax _ e' loc_Exact) as [mrs'' e'']. simpl fst in H2.
  destruct (shr_m mrs'') as [|p|p]; [left; reflexivity| |lia].
  right. destruct (e'' <=? emax - prec); [right; eauto | left; reflexivity].
Qed.

(** A quotient of a number that is not negative by a positive one. *)
Lemma SFdiv_nonneg (y d : spec_float) :
  match y with S754_zero _ | S754_finite false _ _ => True | _ => False end ->
  positive_sf d ->
  nonneg_sf (SF64div y d).
Proof.
  intros Hy Hd.
  destruct y as [sy|sy| |[|] my ey]; try contradiction;
    destruct d as [sd|[|]| |[|] md ed]; try contradiction; try exact I.
  unfold SF64div, SFdiv.
  destruct (SFdiv_core_binary prec emax (Zpos my) ey (Zpos md) ed) as [[mz ez] lz] eqn:Ed.
  assert (Hmz : 0 <= mz).
  { unfold SFdiv_core_binary in Ed.
    set (m' := match _ - _ - _ with Z0 => Zpos my | Zpos _ => _ | Zneg _ => 0 end) in Ed.
    assert (Hm' : 0 <= m').
    { unfold m'. destruct (_ - _ - _); try lia. apply Z.shiftl_nonneg. lia. }
    pose proof (Z_div_mod m' (Zpos md) ltac:(lia)) as Hdm.
    destruct (Z.div_eucl m' (Zpos md)) as [q r]. injection Ed as <- _ _.
    destruct Hdm as [Heq Hr]. nia. }
  simpl xorb.
  destruct (round_aux_cases false mz ez lz Hmz) as [Hr|[Hr|(m' & e' & Hr)]];
    rewrite Hr; exact I.
Qed.

(** A positive finite number times 1.8 is positive (or overflows). *)
Definition c18 : float := F64.lit 1.8.

Lemma c18_spec : Prim2SF c18 = S754_finite false 8106479329266893 (-52).
Proof. vm_compute. reflexivity. Qed.

Lemma mul_c18_positive (x : float) :
  PrimFloat.ltb 0%float x = true -> finite x = true ->
  positive_sf (Prim2SF (PrimFloat.mul x c18)).
Proof.
  intros Hp Hf. destruct (positive_finite x Hp Hf) as (m & e & Hx & Hb).
  destruct (bounded_canonical m e Hb) as [Hc He].
  rewrite mul_spec, c18_spec, Hx. unfold SF64mul, SFmul. simpl xorb.
  assert (Hn : e + -52 <= fexp prec emax (dg (m * 8106479329266893) + (e + -52))).
  { apply product_coarse; [exact Hc | reflexivity]. }
  pose proof (round_ge false (m * 8106479329266893) (e + -52) m e Hn Hc ltac:(lia)) as Hge.
  assert (Hv : Zpos m * 2 ^ (e - (e + -52)) <= Zpos (m * 8106479329266893)).
  { replace (e - (e + -52)) with 52 by lia. change (2 ^ 52) with 4503599627370496.
    rewrite Pos2Z.inj_mul. nia. }
  specialize (Hge Hv).
  destruct (round_shape false (m * 8106479329266893) (e + -52) Hn) as [Hr|[Hr|(m' & e' & Hr)]];
    rewrite Hr in Hge |- *; try exact I.
  discriminate.
Qed.

Lemma SFcompare_refl (x : spec_float) :
  x <> S754_nan -> SFcompare x x = Some Eq.
Proof.
  destruct x as [s|[|]| |[|] m e]; intros Hx; try reflexivity; try congruence;
    cbv beta iota delta [SFcompare]; rewrite Z.compare_refl;
    change (Pos.compare_cont Eq m m) with (m ?= m)%positive;
    rewrite Pos.compare_refl; reflexivity.
Qed.

Lemma leb_not_nan (a b : float) :
  PrimFloat.leb a b = true -> PrimFloat.is_nan a = false.
Proof.
  rewrite leb_spec. unfold PrimFloat.is_nan. rewrite eqb_spec. unfold SFleb, SFeqb.
  intros H. rewrite SFcompare_refl; [reflexivity|].
  intros Hn. rewrite Hn in H. discriminate.
Qed.

Lemma ltb_leb (a b : float) :
  PrimFloat.ltb a b = true -> PrimFloat.leb a b = true.
Proof.
  rewrite ltb_spec, leb_spec. unfold SFltb, SFleb.
  destruct (SFcompare (Prim2SF a) (Prim2SF b)) as [[| |]|]; intros; try discriminate; reflexivity.
Qed.

Lemma finite_nonneg (y : float) :
  finite y = true -> PrimFloat.leb 0%float y = true ->
  match Prim2SF y with S754_zero _ | S754_finite false _ _ => True | _ => False end.
Proof.
  intros Hf Hy. apply leb_zero_nonneg in Hy.
  destruct (finite_spec y Hf) as [(s & Hx)|(s & m & e & Hx & _)]; rewrite Hx in Hy |- *.
  - exact I.
  - destruct s; [contradiction | exact I].
Qed.

Lemma one_spec : exists m e, Prim2SF (F64.lit 1) = S754_finite false m e.
Proof. eexists. eexists. vm_compute. reflexivity. Qed.

Lemma dimFactor_F64 (y vh : float) :
  dimFactor y vh
  = F64.max (F64.lit 0.35)
            (PrimFloat.sub (F64.lit 1) (PrimFloat.div y (PrimFloat.mul vh c18))).
Proof. reflexivity. Qed.

Lemma max_035 (t : float) :
  PrimFloat.leb t (F64.lit 1) = true ->
  PrimFloat.leb (F64.lit 0.35) (F64.max (F64.lit 0.35) t) = true /\
  PrimFloat.leb (F64.max (F64.lit 0.35) t) (F64.lit 1) = true.
Proof.
  intros Ht. unfold F64.max.
  replace (PrimFloat.is_nan (F64.lit 0.35)) with false by (vm_compute; reflexivity).
  rewrite (leb_not_nan t _ Ht).
  destruct (PrimFloat.ltb (F64.lit 0.35) t) eqn:Hlt.
  - split; [apply ltb_leb, Hlt | exact Ht].
  - destruct (PrimFloat.ltb t (F64.lit 0.35)).
    + split; vm_compute; reflexivity.
    + replace (get_sign (F64.lit 0.35)) with false by (vm_compute; reflexivity).
      split; vm_compute; reflexivity.
Qed.

Lemma dimFactor_range_F64 (y vh : float) :
  finite y = true -> PrimFloat.leb 0%float y = true ->
  finite vh = true -> PrimFloat.ltb 0%float vh = true ->
  PrimFloat.leb (F64.lit 0.35) (dimFactor y vh) = true /\
  PrimFloat.leb (dimFactor y vh) (F64.lit 1) = true.
Proof.
  intros Hfy Hy Hfv Hv. rewrite dimFactor_F64. apply max_035.
  apply sub_le_sf; [exact one_spec|].
  rewrite div_spec. apply SFdiv_nonneg.
  - apply finite_nonneg; assumption.
  - apply mul_c18_positive; assumption.
Qed.

Lemma dimFactor_top_F64 (vh : float) :
  finite vh = true -> PrimFloat.ltb 0%float vh = true ->
  dimFactor (F64.lit 0) vh = F64.lit 1.
Proof.
  intros Hfv Hv. rewrite dimFactor_F64.
  assert (Hq : exists s, Prim2SF (PrimFloat.div (F64.lit 0) (PrimFloat.mul vh c18))
                         = S754_zero s).
  { rewrite div_spec. pose proof (mul_c18_positive vh Hv Hfv) as Hd.
    replace (Prim2SF (F64.lit 0)) with (S754_zero false) by (vm_compute; reflexivity).
    destruct (Prim2SF (PrimFloat.mul vh c18)) as [sd|[|]| |[|] md ed]; try contradiction;
      eexists; reflexivity. }
  destruct Hq as [s Hq].
  assert (Ht : PrimFloat.sub (F64.lit 1) (PrimFloat.div (F64.lit 0) (PrimFloat.mul vh c18))
               = F64.lit 1).
  { apply Prim2SF_inj. rewrite sub_spec, Hq. vm_compute. reflexivity. }
  rewrite Ht. vm_compute. reflexivity.
Qed.

(** A positive finite number divided by itself is 1. *)
Lemma div_self (d : float) :
  PrimFloat.ltb 0%float d = true -> finite d = true ->
  PrimFloat.div d d = F64.lit 1.
Proof.
  intros Hp Hf. destruct (positive_finite d Hp Hf) as (m & e & Hd & Hb).
  apply Prim2SF_inj. rewrite div_spec, Hd.
  unfold SF64div, SFdiv, SFdiv_core_binary.
  replace (Zdigits2 (Zpos m) + e - (Zdigits2 (Zpos m) + e)) with 0 by lia.
  replace (e - e) with 0 by lia.
  change (Z.min (fexp prec emax 0) 0) with (-53).
  change (0 - -53) with 53.
  cbv iota.
  assert (Hde : Z.div_eucl (Z.shiftl (Zpos m) 53) (Zpos m) = (2 ^ 53, 0)).
  { rewrite Z.shiftl_mul_pow2 by lia.
    assert (Hq : Zpos m * 2 ^ 53 / Zpos m = 2 ^ 53)
      by (rewrite Z.mul_comm; apply Z.div_mul; lia).
    assert (Hr : (Zpos m * 2 ^ 53) mod Zpos m = 0)
      by (rewrite Z.mul_comm; apply Z.mod_mul; lia).
    unfold Z.div, Z.modulo in Hq, Hr.
    destruct (Z.div_eucl (Zpos m * 2 ^ 53) (Zpos m)) as [q r].
    subst q r. reflexivity. }
  rewrite Hde. cbv beta iota.
  replace (new_location (Zpos m) 0) with loc_Exact
    by (unfold new_location, new_location_even, new_location_odd;
        destruct (Z.even (Zpos m)); reflexivity).
  vm_compute. reflexivity.
Qed.

Lemma dimFactor_floor_F64 (vh : float) :
  finite vh = true -> PrimFloat.ltb 0%float vh = true ->
  finite (PrimFloat.mul vh c18) = true ->
  dimFactor (PrimFloat.mul vh c18) vh = F64.lit 0.35.
Proof.
  intros Hfv Hv Hfd. rewrite dimFactor_F64.
  assert (Hpos : PrimFloat.ltb 0%float (PrimFloat.mul vh c18) = true).
  { pose proof (mul_c18_positive vh Hv Hfv) as Hd.
    rewrite ltb_spec. change (Prim2SF 0%float) with (S754_zero false).
    destruct (Prim2SF (PrimFloat.mul vh c18)) as [sd|[|]| |[|] md ed]; try contradiction;
      reflexivity. }
  rewrite (div_self _ Hpos Hfd). vm_compute. reflexivity.
Qed.

(** A shooting star in flight, in binary64: its life is a positive finite
    number and its decay rate is not negative. *)
Definition inFlight (ss : @ShootingStar float) : Prop :=
  finite (ss_life ss) = true /\
  PrimFloat.ltb 0%float (ss_life ss) = true /\
  PrimFloat.leb 0%float (ss_decay ss) = true.

Lemma advance_life_le (ss : @ShootingStar float) :
  inFlight ss ->
  PrimFloat.leb (ss_life (advance ss)) (ss_life ss) = true.
Proof.
  intros (Hf & Hp & Hd).
  change (ss_life (advance ss)) with (PrimFloat.sub (ss_life ss) (ss_decay ss)).
  apply sub_le; assumption.
Qed.

Lemma not_leb_zero (x y : float) :
  PrimFloat.leb x y = true -> finite y = true ->
  PrimFloat.leb x 0%float = false ->
  PrimFloat.ltb 0%float x = true /\ finite x = true.
Proof.
  unfold finite. rewrite !leb_spec, !ltb_spec, !abs_spec.
  change (Prim2SF 0%float) with (S754_zero false).
  change (Prim2SF infinity) with (S754_infinity false).
  destruct (Prim2SF x) as [sx|[|]| |[|] mx ex], (Prim2SF y) as [sy|[|]| |[|] my ey];
    simpl; intros H1 H2 H3; try discriminate; split; reflexivity.
Qed.

(** The loop keeps the shooting stars in flight in flight. *)
Lemma survivors_inFlight (a : list (@ShootingStar float)) :
  Forall inFlight a -> Forall inFlight (survivors a).
Proof.
  intros Ha. apply Forall_forall. intros ss' Hin.
  destruct (survivors_from _ _ Hin) as (ss & Hss & ->).
  rewrite Forall_forall in Ha. specialize (Ha ss Hss).
  pose proof (advance_life_le ss Ha) as Hle.
  apply filter_In in Hin. destruct Hin as [_ Hal].
  unfold alive in Hal.
  assert (Hnz : PrimFloat.leb (ss_life (advance ss)) 0%float = false).
  { change (ss_life (advance ss) <=? lit 0)%js
      with (PrimFloat.leb (ss_life (advance ss)) (F64.lit 0)) in Hal.
    replace (F64.lit 0) with 0%float in Hal by (vm_compute; reflexivity).
    destruct (PrimFloat.leb (ss_life (advance ss)) 0%float); [discriminate|reflexivity]. }
  destruct Ha as (Hf & Hp & Hd).
  destruct (not_leb_zero _ _ Hle Hf Hnz) as [Hpos Hfin].
  split; [exact Hfin|]. split; [exact Hpos|exact Hd].
Qed.

End Binary64.

Unset Implicit Arguments.

Module Binary64Scene.
Import Round Binary64.

Lemma nan_not_ltb (a b : float) :
  PrimFloat.is_nan a = true -> PrimFloat.ltb a b = false /\ PrimFloat.ltb b a = false.
Proof.
  unfold PrimFloat.is_nan. rewrite eqb_spec, !ltb_spec. unfold SFeqb, SFltb.
  intros Hn.
  assert (Ha : Prim2SF a = S754_nan).
  { destruct (Prim2SF a) as [s|[|]| |[|] m e] eqn:E; try reflexivity;
      exfalso; revert Hn; rewrite SFcompare_refl by discriminate; discriminate. }
  rewrite Ha. split; [reflexivity|].
  destruct (Prim2SF b); reflexivity.
Qed.

(** The distance the vortex block computes, in binary64. *)
Definition vortexDistance (vt : @Vortex float) (s : @Star float) : float :=
  let dx := PrimFloat.sub (s_x s) (vt_x vt) in
  let dy := PrimFloat.sub (s_y s) (vt_y vt) in
  PrimFloat.sqrt (PrimFloat.add (PrimFloat.mul dx dx) (PrimFloat.mul dy dy)).

Definition mouseDistance (mx my : float) (s : @Star float) : float :=
  let dx := PrimFloat.sub (s_x s) mx in
  let dy := PrimFloat.sub (s_y s) my in
  PrimFloat.sqrt (PrimFloat.add (PrimFloat.mul dx dx) (PrimFloat.mul dy dy)).

Definition outsideRange (d r : float) : Prop :=
  PrimFloat.leb r d = true \/ PrimFloat.leb d (F64.lit 1) = true \/
  PrimFloat.is_nan d = true.

Lemma outsideRange_test (d r : float) :
  outsideRange d r -> PrimFloat.ltb d r && PrimFloat.ltb (F64.lit 1) d = false.
Proof.
  intros [Hr|[H1|Hn]].
  - rewrite (F64Facts.leb_not_ltb r d Hr). reflexivity.
  - rewrite (F64Facts.leb_not_ltb d _ H1). apply andb_false_r.
  - destruct (nan_not_ltb d r Hn) as [-> _]. reflexivity.
Qed.

End Binary64Scene.

(** X1.  In binary64, a vortex centre whose radius the star's distance reaches
    or exceeds, or from which the star is at most one unit away, or for
    which the distance is not a number, leaves the star as it is; and so
    does the pointer for its radius of 280. *)
Theorem no_force_outside_binary64 (vt : @Vortex float) (mx my : float)
    (s : @Star float) :
  (Binary64Scene.outsideRange (Binary64Scene.vortexDistance vt s) (vt_r vt) ->
   vortexForce vt s = s) /\
  (Binary64Scene.outsideRange (Binary64Scene.mouseDistance mx my s) (F64.lit 280) ->
   mouseForce (mkMouse (Some mx) (Some my)) s = s).
Proof.
  split; intros Hout; apply Binary64Scene.outsideRange_test in Hout.
  - unfold vortexForce.
    change (ltb (sqrt (add (mul (sub (s_x s) (vt_x vt)) (sub (s_x s) (vt_x vt)))
                           (mul (sub (s_y s) (vt_y vt)) (sub (s_y s) (vt_y vt)))))
                (vt_r vt)
            && ltb (lit 1) (sqrt (add (mul (sub (s_x s) (vt_x vt)) (sub (s_x s) (vt_x vt)))
                           (mul (sub (s_y s) (vt_y vt)) (sub (s_y s) (vt_y vt))))))
      with (PrimFloat.ltb (Binary64Scene.vortexDistance vt s) (vt_r vt)
            && PrimFloat.ltb (F64.lit 1) (Binary64Scene.vortexDistance vt s)).
    rewrite Hout. reflexivity.
  - unfold mouseForce. simpl m_x. cbv iota. simpl toNumber.
    change (ltb (sqrt (add (mul (sub (s_x s) mx) (sub (s_x s) mx))
                           (mul (sub (s_y s) my) (sub (s_y s) my))))
                (lit 280)
            && ltb (lit 1) (sqrt (add (mul (sub (s_x s) mx) (sub (s_x s) mx))
                           (mul (sub (s_y s) my) (sub (s_y s) my)))))
      with (PrimFloat.ltb (Binary64Scene.mouseDistance mx my s) (F64.lit 280)
            && PrimFloat.ltb (F64.lit 1) (Binary64Scene.mouseDistance mx my s)).
    rewrite Hout. reflexivity.
Qed.

Unset Implicit Arguments.

Module Binary64Witness.

Definition centre : @Vortex float := mkVortex 250%float 176%float 0.5%float 160%float.
Definition far : @Star float :=
  mkStar 900%float 700%float 0.125%float 0%float 1%float 1%float
         PAL.gold 0%float 0%float [] 12.

Definition streak : @ShootingStar float :=
  mkShootingStar 100%float 50%float 10%float 10%float 0.5%float 0.015625%float
                 [] 28 2%float.
Definition fading : @ShootingStar float :=
  mkShootingStar 700%float 300%float 10%float 10%float 0.0078125%float 0.015625%float
                 [] 28 2%float.

End Binary64Witness.

Lemma no_force_outside_binary64_witness :
  Binary64Scene.outsideRange
    (Binary64Scene.vortexDistance Binary64Witness.centre Binary64Witness.far)
    (vt_r Binary64Witness.centre) /\
  vortexForce Binary64Witness.centre Binary64Witness.far = Binary64Witness.far.
Proof.
  assert (H : Binary64Scene.outsideRange
               (Binary64Scene.vortexDistance Binary64Witness.centre Binary64Witness.far)
               (vt_r Binary64Witness.centre)).
  { left. vm_compute. reflexivity. }
  split; [exact H|].
  exact (proj1 (no_force_outside_binary64 Binary64Witness.centre 0%float 0%float
                  Binary64Witness.far) H).
Defined.

(** X2.  In binary64, for a finite scroll offset [y >= 0] and a finite viewport
    height [vh > 0], the dim factor the scroll listener stores is between
    0.35 and 1; it is 1 at offset 0, and 0.35 at the offset [vh * 1.8]
    when that product is finite. *)
Theorem dim_factor_binary64 (y vh : float) :
  Round.finite y = true -> PrimFloat.leb 0%float y = true ->
  Round.finite vh = true -> PrimFloat.ltb 0%float vh = true ->
  PrimFloat.leb (F64.lit 0.35) (scrollDim (onScroll y vh scene0)) = true /\
  PrimFloat.leb (scrollDim (onScroll y vh scene0)) (F64.lit 1) = true /\
  scrollDim (onScroll (F64.lit 0) vh scene0) = F64.lit 1 /\
  (Round.finite (PrimFloat.mul vh (F64.lit 1.8)) = true ->
   scrollDim (onScroll (PrimFloat.mul vh (F64.lit 1.8)) vh scene0) = F64.lit 0.35).
Proof.
  intros Hfy Hy Hfv Hv.
  change (scrollDim (onScroll y vh scene0)) with (dimFactor y vh).
  change (scrollDim (onScroll (F64.lit 0) vh scene0)) with (dimFactor (F64.lit 0) vh).
  change (scrollDim (onScroll (PrimFloat.mul vh (F64.lit 1.8)) vh scene0))
    with (dimFactor (PrimFloat.mul vh Binary64.c18) vh).
  destruct (Binary64.dimFactor_range_F64 y vh Hfy Hy Hfv Hv) as [Hlo Hhi].
  split; [exact Hlo|]. split; [exact Hhi|].
  split; [apply Binary64.dimFactor_top_F64; assumption|].
  intros Hfd. apply Binary64.dimFactor_floor_F64; assumption.
Qed.

Lemma dim_factor_binary64_witness :
  Round.finite 720%float = true /\ PrimFloat.leb 0%float 720%float = true /\
  Round.finite 800%float = true /\ PrimFloat.ltb 0%float 800%float = true /\
  PrimFloat.leb (scrollDim (onScroll 720%float 800%float scene0)) (F64.lit 1) = true.
Proof.
  assert (H1 : Round.finite 720%float = true) by (vm_compute; reflexivity).
  assert (H2 : PrimFloat.leb 0%float 720%float = true) by (vm_compute; reflexivity).
  assert (H3 : Round.finite 800%float = true) by (vm_compute; reflexivity).
  assert (H4 : PrimFloat.ltb 0%float 800%float = true) by (vm_compute; reflexivity).
  repeat (split; [assumption|]).
  exact (proj1 (proj2 (dim_factor_binary64 720%float 800%float H1 H2 H3 H4))).
Defined.

(** X3.  In binary64, the loop over the shooting stars keeps those in flight
    in flight (a finite positive life, a decay rate that is not negative),
    and the life of each one it leaves is at most the life it had. *)
Theorem shooting_life_binary64 (a : list (@ShootingStar float)) :
  Forall Binary64.inFlight a ->
  Forall Binary64.inFlight (shootingLoop (length a) a) /\
  (forall ss', In ss' (shootingLoop (length a) a) ->
     exists ss, In ss a /\ ss' = advance ss /\
                PrimFloat.leb (ss_life ss') (ss_life ss) = true /\
                ss_decay ss' = ss_decay ss).
Proof.
  intros Ha. rewrite shootingLoop_survivors. split.
  - apply Binary64.survivors_inFlight, Ha.
  - intros ss' Hin. destruct (survivors_from _ _ Hin) as (ss & Hss & ->).
    exists ss. split; [exact Hss|]. split; [reflexivity|]. split; [|reflexivity].
    rewrite Forall_forall in Ha. apply Binary64.advance_life_le, Ha, Hss.
Qed.

Lemma shooting_life_binary64_witness :
  Forall Binary64.inFlight [Binary64Witness.fading; Binary64Witness.streak] /\
  Forall Binary64.inFlight
    (shootingLoop 2 [Binary64Witness.fading; Binary64Witness.streak]).
Proof.
  assert (H : Forall Binary64.inFlight [Binary64Witness.fading; Binary64Witness.streak]).
  { repeat constructor; vm_compute; reflexivity. }
  split; [exact H|].
  exact (proj1 (shooting_life_binary64 _ H)).
Defined.

Unset Implicit Arguments.

(* ================================================================== *)
(** * More of the physics step, in every reading *)
(* ================================================================== *)

Section MoreGeneric.
Context {num : Type} {NUM : JsNum num}.
Local Open Scope js_scope.

(** ** Trails of shooting stars *)

Definition streakBounded (ss : @ShootingStar num) : Prop :=
  ss_maxTrail ss = 28%Z /\ (length (ss_trail ss) <= 28)%nat.

Lemma advance_streakBounded (ss : @ShootingStar num) :
  streakBounded ss -> streakBounded (advance ss).
Proof.
  intros [HM Hlen]. unfold streakBounded, advance; simpl. split; [exact HM|].
  rewrite HM.
  destruct (Z.gtb_spec (Z.of_nat (length (ss_trail ss ++
             [mkStreak (ss_x ss + ss_vx ss) (ss_y ss + ss_vy ss)
                       (ss_life ss - ss_decay ss)]))) 28) as [Hgt|Hle].
  - destruct (ss_trail ss) as [|k t]; simpl in *; [lia|].
    rewrite length_app; simpl. lia.
  - lia.
Qed.

Lemma survivors_streakBounded (a : list (@ShootingStar num)) :
  Forall streakBounded a -> Forall streakBounded (survivors a).
Proof.
  intros Ha. apply Forall_forall. intros ss' Hin.
  destruct (survivors_from _ _ Hin) as (ss & Hss & ->).
  rewrite Forall_forall in Ha. apply advance_streakBounded, Ha, Hss.
Qed.

(** ** What a tick leaves of a star *)

(** The attributes [makeStar] fixes for the life of a star. *)
Definition identity (s : @Star num) : num * Color * num * num * Z :=
  (s_baseSize s, s_color s, s_twinkleK s, s_twinkleP s, s_maxTrail s).

Lemma vortexForce_identity (vt : Vortex) (s : @Star num) :
  identity (vortexForce vt s) = identity s.
Proof. unfold vortexForce. destruct (_ && _); reflexivity. Qed.

Lemma vortexForces_identity (vcs : list Vortex) (s : @Star num) :
  identity (vortexForces vcs s) = identity s.
Proof.
  unfold vortexForces. revert s. induction vcs as [|vt vcs IH]; intros s; simpl.
  - reflexivity.
  - rewrite IH. apply vortexForce_identity.
Qed.

Lemma mouseForce_identity (m : Mouse) (s : @Star num) :
  identity (mouseForce m s) = identity s.
Proof. unfold mouseForce. destruct (m_x m); [destruct (_ && _)|]; reflexivity. Qed.

Lemma wrapEdges_identity (w h : num) (s : @Star num) :
  identity (clearIfWrapped (wrapEdges w h s)) = identity s.
Proof.
  unfold wrapEdges.
  repeat match goal with |- context [if ?c then _ else _] => destruct c end;
    reflexivity.
Qed.

(** A star inside the margins passes the wrap step as it is. *)
Lemma wrapEdges_inside (w h : num) (s : @Star num) :
  outOfBounds w h s = false -> wrapEdges w h s = (s, false).
Proof.
  unfold outOfBounds, wrapEdges. intros Hin.
  apply orb_false_elim in Hin. destruct Hin as [Hin Hy2].
  apply orb_false_elim in Hin. destruct Hin as [Hin Hy1].
  apply orb_false_elim in Hin. destruct Hin as [Hx1 Hx2].
  rewrite Hx1, Hx2, Hy1, Hy2. destruct s; reflexivity.
Qed.

Section WithTrig.
Context {TRIG : JsTrig num}.

Lemma updateStar_identity t vcs m w h (s : @Star num) :
  identity (updateStar t vcs m w h s) = identity s.
Proof.
  unfold updateStar.
  change (identity (sampleTrail (beforeSample t vcs m w h s)))
    with (identity (beforeSample t vcs m w h s)).
  unfold beforeSample. rewrite wrapEdges_identity.
  change (identity (move (damp (mouseForce m (vortexForces vcs (twinkle t s))))))
    with (identity (mouseForce m (vortexForces vcs (twinkle t s)))).
  rewrite mouseForce_identity, vortexForces_identity. reflexivity.
Qed.

(** The trail a tick leaves: the trail before, emptied if the star
    wrapped, with the new position appended, less the oldest sample when
    that exceeds the capacity. *)
Lemma updateStar_trail t vcs m w h (s : @Star num) :
  let s' := updateStar t vcs m w h s in
  let kept := if wrappedNow t vcs m w h s then [] else s_trail s in
  let grown := kept ++ [mkPoint (s_x s') (s_y s')] in
  s_trail s' = if (Z.of_nat (length grown) >? s_maxTrail s)%Z then tl grown else grown.
Proof.
  intros s' kept grown. unfold s', grown, kept, updateStar, sampleTrail; simpl.
  rewrite beforeSample_trail, beforeSample_maxTrail. reflexivity.
Qed.

End WithTrig.

End MoreGeneric.

(** A frame or a pointer or scroll event: anything but a resize. *)
Definition keepsStars {num : Type} (e : @Event num) : bool :=
  match e with ResizeTo _ _ => false | _ => true end.

(** X4.  Short of a resize, the stars are never created or destroyed: the
    frames and events keep their number and, star by star, the base size,
    colour, twinkle rate and phase, and trail capacity [makeStar] chose. *)
Theorem stars_keep_identity {num : Type} {NUM : JsNum num} {TRIG : JsTrig num}
    (es : list Event) (sc : Scene) (g : Rng num) :
  forallb keepsStars es = true ->
  map identity (stars (fst (run es sc g))) = map identity (stars sc) /\
  length (stars (fst (run es sc g))) = length (stars sc).
Proof.
  intros Hes.
  assert (Hid : map identity (stars (fst (run es sc g))) = map identity (stars sc)).
  { revert sc g. induction es as [|e es IH]; intros sc g; [reflexivity|].
    simpl in Hes. apply andb_prop in Hes. destruct Hes as [He Hes].
    simpl run. unfold bind.
    assert (Hstep : map identity (stars (fst (handle e sc g))) = map identity (stars sc)).
    { destruct e; try discriminate; try reflexivity.
      simpl handle. rewrite update_stars, map_map.
      apply map_ext. intros s. apply updateStar_identity. }
    destruct (handle e sc g) as [sc' g']. simpl in Hstep.
    rewrite (IH Hes), Hstep. reflexivity. }
  split; [exact Hid|].
  rewrite <- (length_map identity (stars (fst (run es sc g)))), Hid.
  apply length_map.
Qed.

(** X5.  The trail of a star with a capacity of at least one is never empty
    after a tick, and its newest sample is the position the tick left the
    star at. *)
Theorem trail_ends_at_star {num : Type} {NUM : JsNum num} {TRIG : JsTrig num}
    (t : num) (vcs : list Vortex) (m : Mouse) (w h : num) (s : Star) (d : Point) :
  (1 <= s_maxTrail s)%Z ->
  let s' := updateStar t vcs m w h s in
  s_trail s' <> [] /\ last (s_trail s') d = mkPoint (s_x s') (s_y s').
Proof.
  intros HM s'. pose proof (updateStar_trail t vcs m w h s) as Ht.
  cbv zeta in Ht. fold s' in Ht. rewrite Ht.
  set (p := mkPoint (s_x s') (s_y s')).
  destruct (if wrappedNow t vcs m w h s then [] else s_trail s) as [|q kept].
  - simpl. destruct (Z.gtb_spec 1 (s_maxTrail s)); [lia|].
    split; [discriminate | reflexivity].
  - change ((q :: kept) ++ [p]) with (q :: (kept ++ [p])).
    destruct (_ >? _)%Z.
    + simpl tl. split; [destruct kept; discriminate | apply last_last].
    + split; [discriminate|].
      change (q :: kept ++ [p]) with ((q :: kept) ++ [p]). apply last_last.
Qed.

(** X6.  After boot and whatever follows, every shooting star has the trail
    capacity 28 and a trail of at most 28 samples. *)
Theorem shooting_trails_bounded {num : Type} {NUM : JsNum num} {TRIG : JsTrig num}
    (w h : num) (es : list Event) (g : Rng num) :
  Forall streakBounded (shootingStars (fst (session w h es g))).
Proof.
  rewrite session_run.
  apply (@run_invariant num NUM TRIG
           (fun sc => Forall streakBounded (shootingStars sc)) (fun _ => True)).
  - intros e sc g0 _ Hsc. destruct e; simpl; try exact Hsc.
    + rewrite update_shootingStars. apply survivors_streakBounded.
      destruct (maybeSpawn_cases sc g0) as [->|(_ & _ & ->)]; [exact Hsc|].
      apply Forall_app. split; [exact Hsc|]. constructor; [|constructor].
      unfold spawnShootingStar, bind, random, ret; simpl.
      split; [reflexivity | simpl; lia].
    + unfold onResize. rewrite initStars_shootingStars. exact Hsc.
  - intros; exact I.
  - exact I.
  - rewrite boot_shootingStars. constructor.
Qed.

Unset Implicit Arguments.

(* ================================================================== *)
(** * More magnitudes, in exact arithmetic *)
(* ================================================================== *)

Module Pointer.
Local Open Scope R_scope.

(** The quantities of the mouse block, for a pointer at [(mx, my)]. *)
Definition radius_x (mx : R) (s : @Star R) : R := s_x s - mx.
Definition radius_y (my : R) (s : @Star R) : R := s_y s - my.
Definition distance (mx my : R) (s : @Star R) : R :=
  R_sqrt.sqrt (radius_x mx s * radius_x mx s + radius_y my s * radius_y my s).
Definition falloff (mx my : R) (s : @Star R) : R :=
  (1 - distance mx my s / 280) * 0.45.

Definition at_ (mx my : R) : @Mouse R := mkMouse (Some mx) (Some my).

Lemma mouseForce_unfold (mx my : R) (s : @Star R) :
  mouseForce (at_ mx my) s =
  if Exact.ltb (distance mx my s) 280 && Exact.ltb 1 (distance mx my s) then
    set_vel s
      (s_vx s + - radius_y my s / distance mx my s * falloff mx my s)
      (s_vy s + radius_x mx s / distance mx my s * falloff mx my s)
  else s.
Proof.
  unfold mouseForce, falloff, distance, radius_x, radius_y. simpl.
  rewrite Geometry.lit_1.
  replace (Q2R 280) with 280 by (unfold Q2R; simpl; lra).
  replace (Q2R 0.45) with 0.45 by (unfold Q2R; simpl; lra).
  reflexivity.
Qed.

End Pointer.

(** X7.  The pointer turns the stars one way only, and gently: wherever
    the pointer and the star are, the velocity the mouse block adds has a
    length of at most 0.45, and its moment about the pointer,
    [dx * ay - dy * ax] for the radius vector [(dx, dy)] and the added
    velocity [(ax, ay)], is never negative (a turn from the x axis
    towards the y axis); the block leaves the position alone.  (Exact
    arithmetic; the bounds are not tight, the factor being at most
    [0.45 * (1 - 1 / 280)].) *)
Theorem pointer_force (mx my : R) (s : @Star R) :
  let dx := Pointer.radius_x mx s in
  let dy := Pointer.radius_y my s in
  let s' := mouseForce (Pointer.at_ mx my) s in
  let ax := (s_vx s' - s_vx s)%R in
  let ay := (s_vy s' - s_vy s)%R in
  (ax * ax + ay * ay <= 0.45 * 0.45)%R /\
  (0 <= dx * ay - dy * ax)%R /\
  s_x s' = s_x s /\ s_y s' = s_y s.
Proof.
  intros dx dy s' ax ay. unfold ax, ay, s'. clear ax ay s'.
  rewrite Pointer.mouseForce_unfold.
  destruct (Exact.ltb (Pointer.distance mx my s) 280) eqn:Er;
    [|cbn [andb]; repeat split; try reflexivity; nra].
  destruct (Exact.ltb 1 (Pointer.distance mx my s)) eqn:E1;
    [|cbn [andb]; repeat split; try reflexivity; nra].
  apply Exact.ltb_true in Er, E1. cbn [andb s_vx s_vy s_x s_y set_vel].
  fold dx dy.
  assert (Hsq : (Pointer.distance mx my s * Pointer.distance mx my s
                 = dx * dx + dy * dy)%R).
  { unfold Pointer.distance. apply sqrt_sqrt. fold dx dy. nra. }
  unfold Pointer.falloff.
  set (d := Pointer.distance mx my s) in *.
  assert (Hd : (0 < d)%R) by lra.
  assert (Hux : (dx / d * d = dx)%R) by (field; lra).
  assert (Huy : (dy / d * d = dy)%R) by (field; lra).
  replace (- dy / d)%R with (- (dy / d))%R by (field; lra).
  assert (Hq : (d / 280 * 280 = d)%R) by (field; lra).
  set (ux := (dx / d)%R) in *. set (uy := (dy / d)%R) in *.
  set (q := (d / 280)%R) in *.
  clearbody ux uy q.
  assert (Hunit : (ux * ux + uy * uy = 1)%R).
  { assert (Hprod : ((ux * ux + uy * uy) * (d * d) = d * d)%R).
    { replace ((ux * ux + uy * uy) * (d * d))%R
        with (ux * d * (ux * d) + uy * d * (uy * d))%R by ring.
      rewrite Hux, Huy. symmetry. exact Hsq. }
    apply Rmult_eq_reg_r with (d * d)%R; [lra | nra]. }
  assert (Hm : (dx * ux + dy * uy = d)%R).
  { transitivity (ux * d * ux + uy * d * uy)%R; [rewrite Hux, Huy; reflexivity|].
    replace (ux * d * ux + uy * d * uy)%R with ((ux * ux + uy * uy) * d)%R by ring.
    rewrite Hunit. ring. }
  assert (Hf : (0 <= (1 - q) * 0.45 <= 0.45)%R) by nra.
  set (f := ((1 - q) * 0.45)%R) in *.
  split; [|split; [|split; reflexivity]].
  - replace (s_vx s + - uy * f - s_vx s)%R with (- uy * f)%R by ring.
    replace (s_vy s + ux * f - s_vy s)%R with (ux * f)%R by ring.
    replace (- uy * f * (- uy * f) + ux * f * (ux * f))%R
      with ((ux * ux + uy * uy) * (f * f))%R by ring.
    rewrite Hunit. clearbody f. nra.
  - replace (dx * (s_vy s + ux * f - s_vy s) - dy * (s_vx s + - uy * f - s_vx s))%R
      with ((dx * ux + dy * uy) * f)%R by ring.
    rewrite Hm. clearbody f. nra.
Qed.



(** X9.  The five vortex centres [resize] lays out on a surface [w] by [h]
    with [w, h > 0] lie strictly inside the surface, with a radius between
    [0.12 * w] and [0.18 * w] and a strength of magnitude between 0.35 and
    0.7.  (Exact arithmetic.) *)
Theorem layout_inside (w h : R) (sc : @Scene R) :
  (0 < w)%R -> (0 < h)%R ->
  length (vortexCenters (resize w h sc)) = 5%nat /\
  Forall (fun vt => (0 < vt_x vt < w)%R /\ (0 < vt_y vt < h)%R /\
                    (0.12 * w <= vt_r vt <= 0.18 * w)%R /\
                    (0.35 <= Rabs (vt_str vt) <= 0.7)%R)
         (vortexCenters (resize w h sc)).
Proof.
  intros Hw Hh. split; [reflexivity|].
  simpl. unfold Q2R; simpl.
  repeat (apply Forall_cons || apply Forall_nil); simpl; repeat split;
    try (unfold Rabs; destruct (Rcase_abs _); lra); nra.
Qed.

Lemma layout_inside_witness :
  (0 < 1000)%R /\ (0 < 800)%R /\
  length (vortexCenters (resize 1000%R 800%R scene0)) = 5%nat.
Proof.
  assert (Hw : (0 < 1000)%R) by lra. assert (Hh : (0 < 800)%R) by lra.
  split; [exact Hw|]. split; [exact Hh|].
  exact (proj1 (layout_inside 1000%R 800%R scene0 Hw Hh)).
Defined.

Unset Implicit Arguments.

Module Factory.
Local Open Scope R_scope.

Lemma Int_part_below (r : R) (n : Z) : r < IZR n -> (Int_part r < n)%Z.
Proof.
  intros Hr. destruct (base_Int_part r) as [Hle _].
  apply lt_IZR. lra.
Qed.

Lemma unitDraws_kept {A} (c : M R A) (g : Rng R) :
  keepsDraws c -> ExactFacts.unitDraws g -> ExactFacts.unitDraws (snd (c g)).
Proof. intros Hk Hg i. rewrite Hk. apply Hg. Qed.

(** One band of [makeStar]: its colour, the range of its size and the
    scale of its velocity. *)
Definition inBand (c : Color) (lo hi spd : R) (s : @Star R) : Prop :=
  s_color s = c /\ lo <= s_baseSize s <= hi /\
  Rabs (s_vx s) <= spd / 2 /\ Rabs (s_vy s) <= spd / 2.

(** A shooting star as [spawnShootingStar] makes it. *)
Definition spawned (ss : @ShootingStar R) : Prop :=
  ss_life ss = 1 /\ 0.014 <= ss_decay ss < 0.026.

(** The shooting-star loop of one tick. *)
Definition tickShooting (a : list (@ShootingStar R)) : list (@ShootingStar R) :=
  shootingLoop (length a) a.

Definition meteor : @ShootingStar R :=
  mkShootingStar 0 0 10 10 1 0.02 [] 28 2.

Lemma tickShooting_survivors (a : list (@ShootingStar R)) :
  tickShooting a = survivors a.
Proof. apply shootingLoop_survivors. Qed.

Lemma advance_iter (n : nat) (ss : @ShootingStar R) :
  ss_life (Nat.iter n advance ss) = ss_life ss - IZR (Z.of_nat n) * ss_decay ss /\
  ss_decay (Nat.iter n advance ss) = ss_decay ss.
Proof.
  induction n as [|n [IHl IHd]].
  - simpl. split; [lra | reflexivity].
  - change (Nat.iter (S n) advance ss) with (advance (Nat.iter n advance ss)).
    unfold advance at 1 3. cbn [ss_life ss_decay].
    rewrite Nat2Z.inj_succ, succ_IZR.
    split; [|exact IHd].
    change (ss_life (Nat.iter n advance ss) - ss_decay (Nat.iter n advance ss)
            = ss_life ss - (IZR (Z.of_nat n) + 1) * ss_decay ss).
    rewrite IHl, IHd. ring.
Qed.

Lemma alive_iff (ss : @ShootingStar R) : alive ss = true <-> 0 < ss_life ss.
Proof.
  unfold alive. change (ss_life ss <=? lit 0)%js with (Exact.leb (ss_life ss) (Q2R 0)).
  replace (Q2R 0) with 0 by (unfold Q2R; simpl; lra).
  destruct (Exact.leb (ss_life ss) 0) eqn:E; simpl.
  - apply Exact.leb_true in E. split; [discriminate | lra].
  - apply Exact.leb_false in E. split; [intros _; exact E | reflexivity].
Qed.

Lemma tick_iter_from (n : nat) (a : list (@ShootingStar R)) (ss' : @ShootingStar R) :
  In ss' (Nat.iter n tickShooting a) ->
  exists ss, In ss a /\ ss' = Nat.iter n advance ss /\ ((0 < n)%nat -> 0 < ss_life ss').
Proof.
  revert ss'. induction n as [|n IH]; intros ss' Hin.
  - exists ss'. simpl in *. split; [exact Hin|]. split; [reflexivity | lia].
  - change (Nat.iter (S n) tickShooting a)
      with (tickShooting (Nat.iter n tickShooting a)) in Hin.
    rewrite tickShooting_survivors in Hin.
    apply filter_In in Hin. destruct Hin as [Hin Hal].
    apply in_map_iff in Hin. destruct Hin as (mid & <- & Hin).
    destruct (IH mid Hin) as (ss & Hss & -> & _).
    exists ss. split; [exact Hss|]. split; [reflexivity|].
    intros _. apply alive_iff, Hal.
Qed.

(** The greatest draw below 1, and a source that draws the white band and
    then the greatest draw throughout. *)
Definition greatest : float := 0x1.fffffffffffffp-1%float.

Definition whiteTop : Rng float :=
  mkRng (fun i => match i with O => 0%float | S _ => greatest end) 0.

(** In binary64 the greatest draw yields the upper end of the size range,
    which the rounded sum [2.2 + r * 2.8] reaches. *)
Lemma greatest_draw_F64 :
  PrimFloat.ltb greatest 1%float = true /\
  s_baseSize (fst (makeStar (F64.lit 1000) (F64.lit 800) whiteTop)) = F64.lit 5.
Proof. split; vm_compute; reflexivity. Qed.

End Factory.

(** X10.  With every draw in [0, 1) and a surface [w, h >= 0], [makeStar]
    takes nine draws and returns a star on the surface whose displayed
    size is its base size, whose trail is empty, whose capacity is between
    12 and 29, whose twinkle speed is between 0.018 and 0.053 and phase
    between 0 and 2 pi, and which lies in the band its first draw selects:
    below 0.04 white, below 0.14 pale blue, below 0.32 bright gold, gold
    otherwise, each with its own size range and velocity scale.  (Exact
    arithmetic.  The upper ends are included: in binary64 the greatest
    draw reaches them, see [Factory.greatest_draw_F64].) *)
Theorem make_star_ranges (w h : R) (g : Rng R) :
  ExactFacts.unitDraws g -> (0 <= w)%R -> (0 <= h)%R ->
  let s := fst (makeStar w h g) in
  let rnd := draws g (next g) in
  next (snd (makeStar w h g)) = (next g + 9)%nat /\
  (0 <= s_x s <= w)%R /\ (0 <= s_y s <= h)%R /\
  s_size s = s_baseSize s /\ s_trail s = [] /\
  (12 <= s_maxTrail s <= 29)%Z /\
  (0.018 <= s_twinkleK s <= 0.053)%R /\
  (0 <= s_twinkleP s <= 2 * PI)%R /\
  (((rnd < 0.04)%R /\ Factory.inBand PAL.white 2.2 5 0.25 s) \/
   ((0.04 <= rnd < 0.14)%R /\ Factory.inBand PAL.paleBlue 1 2.8 0.40 s) \/
   ((0.14 <= rnd < 0.32)%R /\ Factory.inBand PAL.brightGold 1 3.2 0.35 s) \/
   ((0.32 <= rnd)%R /\ Factory.inBand PAL.gold 0.4 2 0.50 s)).
Proof.
  intros Hg Hw Hh s rnd.
  pose proof (Hg (next g)) as H0.
  pose proof (Hg (S (next g))) as H1.
  pose proof (Hg (S (S (next g)))) as H2.
  pose proof (Hg (S (S (S (next g))))) as H3.
  pose proof (Hg (S (S (S (S (next g)))))) as H4.
  pose proof (Hg (S (S (S (S (S (next g))))))) as H5.
  pose proof (Hg (S (S (S (S (S (S (next g)))))))) as H6.
  pose proof (Hg (S (S (S (S (S (S (S (next g))))))))) as H7.
  pose proof (Hg (S (S (S (S (S (S (S (S (next g)))))))))) as H8.
  pose proof PI_RGT_0 as Hpi.
  assert (Hcap : (0 <= Int_part (draws g (S (S (S (S (S (S (S (S (next g))))))))) * 18) < 18)%Z).
  { split; [apply ExactFacts.Int_part_nonneg; lra | apply Factory.Int_part_below; lra]. }
  assert (Hq18 : Q2R 18 = 18%R) by (unfold Q2R; simpl; lra).
  unfold s, Factory.inBand, makeStar, bind, random, ret.
  cbn -[Z.add Int_part]. fold rnd. fold rnd in H0. clearbody rnd.
  destruct (Exact.ltb rnd (Q2R 0.04)) eqn:E1;
    [apply Exact.ltb_true in E1
    |apply Exact.ltb_false in E1;
     destruct (Exact.ltb rnd (Q2R 0.14)) eqn:E2;
       [apply Exact.ltb_true in E2
       |apply Exact.ltb_false in E2;
        destruct (Exact.ltb rnd (Q2R 0.32)) eqn:E3;
          [apply Exact.ltb_true in E3 | apply Exact.ltb_false in E3]]];
    cbn -[Z.add Int_part]; rewrite ?Hq18;
    (split; [lia|]); (split; [nra|]); (split; [nra|]);
    (split; [reflexivity|]); (split; [reflexivity|]);
    (split; [lia|]); clear Hcap;
    unfold Q2R in *; simpl in *;
    (split; [lra|]); (split; [nra|]).
  - left. repeat split; try lra; apply Rabs_le; lra.
  - right; left. repeat split; try lra; apply Rabs_le; lra.
  - right; right; left. repeat split; try lra; apply Rabs_le; lra.
  - right; right; right. repeat split; try lra; apply Rabs_le; lra.
Qed.

Lemma make_star_ranges_witness :
  ExactFacts.unitDraws ExactFacts.halves /\ (0 <= 1000)%R /\ (0 <= 800)%R /\
  s_trail (fst (makeStar 1000%R 800%R ExactFacts.halves)) = [].
Proof.
  assert (Hw : (0 <= 1000)%R) by lra. assert (Hh : (0 <= 800)%R) by lra.
  split; [exact ExactFacts.halves_unit|]. split; [exact Hw|]. split; [exact Hh|].
  exact (proj1 (proj2 (proj2 (proj2 (proj2
    (make_star_ranges 1000%R 800%R ExactFacts.halves
       ExactFacts.halves_unit Hw Hh)))))).
Defined.

(** X11.  With every draw in [0, 1) and a surface [w, h >= 0],
    [spawnShootingStar] takes six draws and returns a shooting star in the
    upper left part of the surface ([x <= 0.8 w], [y <= 0.35 h]) that
    moves right and down, by more than 0 and at most 20 a tick in each
    direction and by at least 10 in the two together; it has life 1, a
    decay between 0.014 and 0.026, an empty trail of capacity 28 and a
    size between 1.4 and 2.6.  (Exact arithmetic; the upper ends are
    included, and the bounds on the velocity hold with room to spare.) *)
Theorem spawn_ranges (w h : R) (g : Rng R) :
  ExactFacts.unitDraws g -> (0 <= w)%R -> (0 <= h)%R ->
  let ss := fst (spawnShootingStar w h g) in
  next (snd (spawnShootingStar w h g)) = (next g + 6)%nat /\
  (0 <= ss_x ss <= 0.8 * w)%R /\ (0 <= ss_y ss <= 0.35 * h)%R /\
  (0 < ss_vx ss <= 20)%R /\ (0 < ss_vy ss <= 20)%R /\
  (10 <= ss_vx ss + ss_vy ss)%R /\
  ss_life ss = 1%R /\ (0.014 <= ss_decay ss <= 0.026)%R /\
  ss_trail ss = [] /\ ss_maxTrail ss = 28%Z /\
  (1.4 <= ss_size ss <= 2.6)%R.
Proof.
  intros Hg Hw Hh ss.
  pose proof (Hg (next g)) as H0.
  pose proof (Hg (S (next g))) as H1.
  pose proof (Hg (S (S (next g)))) as H2.
  pose proof (Hg (S (S (S (next g))))) as H3.
  pose proof (Hg (S (S (S (S (next g)))))) as H4.
  pose proof (Hg (S (S (S (S (S (next g))))))) as H5.
  pose proof PI2_3_2 as Hpi.
  unfold ss, spawnShootingStar, bind, random, ret. cbn -[Z.add].
  set (angle := (Rtrigo1.PI / Q2R 4 + (draws g (next g) - Q2R 0.5) * Q2R 0.6)%R).
  set (speed := (Q2R 10 + draws g (S (next g)) * Q2R 10)%R).
  assert (Hangle : (0 < angle < Rtrigo1.PI / 2)%R).
  { unfold angle, Q2R; simpl. lra. }
  assert (Hspeed : (10 <= speed < 20)%R).
  { unfold speed, Q2R; simpl. lra. }
  assert (Hcos : (0 < Rtrigo_def.cos angle)%R) by (apply cos_gt_0; lra).
  assert (Hsin : (0 < Rtrigo_def.sin angle)%R) by (apply sin_gt_0; lra).
  pose proof (sin2_cos2 angle) as Hone. unfold Rsqr in Hone.
  pose proof (COS_bound angle) as [_ Hc1]. pose proof (SIN_bound angle) as [_ Hs1].
  assert (Hsum : (1 <= Rtrigo_def.cos angle + Rtrigo_def.sin angle)%R) by nra.
  clearbody angle speed.
  split; [lia|].
  split; [unfold Q2R; simpl; nra|]. split; [unfold Q2R; simpl; nra|].
  split; [nra|]. split; [nra|].
  split; [nra|].
  split; [unfold Q2R; simpl; lra|]. split; [unfold Q2R; simpl; lra|].
  split; [reflexivity|]. split; [reflexivity|].
  unfold Q2R; simpl; lra.
Qed.

Lemma spawn_ranges_witness :
  ExactFacts.unitDraws ExactFacts.halves /\ (0 <= 1000)%R /\ (0 <= 800)%R /\
  ss_life (fst (spawnShootingStar 1000%R 800%R ExactFacts.halves)) = 1%R.
Proof.
  assert (Hw : (0 <= 1000)%R) by lra. assert (Hh : (0 <= 800)%R) by lra.
  split; [exact ExactFacts.halves_unit|]. split; [exact Hw|]. split; [exact Hh|].
  exact (proj1 (proj2 (proj2 (proj2 (proj2 (proj2 (proj2
    (spawn_ranges 1000%R 800%R ExactFacts.halves
       ExactFacts.halves_unit Hw Hh)))))))).
Defined.

(** X12.  A shooting star as it is spawned (life 1, decay in [0.014, 0.026))
    is still in the array, advanced once a tick, after each of the first
    38 runs of the shooting-star loop and is gone from the array after
    the 72nd, whatever else the array holds of the same kind.  (Exact
    arithmetic.) *)
Theorem shooting_star_lifetime (a : list (@ShootingStar R)) :
  Forall Factory.spawned a ->
  (forall n, (n <= 38)%nat ->
     Nat.iter n Factory.tickShooting a = map (Nat.iter n advance) a) /\
  (forall n, (72 <= n)%nat -> Nat.iter n Factory.tickShooting a = []).
Proof.
  intros Ha. split.
  - induction n as [|n IH]; intros Hn.
    + simpl. symmetry. apply map_id.
    + change (Nat.iter (S n) Factory.tickShooting a)
        with (Factory.tickShooting (Nat.iter n Factory.tickShooting a)).
      rewrite IH by lia. rewrite Factory.tickShooting_survivors.
      unfold survivors. rewrite map_map.
      change (fun x => advance (Nat.iter n advance x))
        with (fun x : @ShootingStar R => Nat.iter (S n) advance x).
      apply forallb_filter_id. apply forallb_forall.
      intros ss' Hin. apply in_map_iff in Hin. destruct Hin as (ss & <- & Hin).
      apply Factory.alive_iff.
      destruct (Factory.advance_iter (S n) ss) as [-> _].
      rewrite Forall_forall in Ha. destruct (Ha ss Hin) as [-> Hd].
      assert (Hk : (IZR (Z.of_nat (S n)) <= 38)%R) by (apply IZR_le; lia).
      assert (H0 : (0 <= IZR (Z.of_nat (S n)))%R) by (apply IZR_le; lia).
      nra.
  - intros n Hn.
    destruct (Nat.iter n Factory.tickShooting a) as [|ss' rest] eqn:E;
      [reflexivity | exfalso].
    assert (Hin : In ss' (Nat.iter n Factory.tickShooting a))
      by (rewrite E; left; reflexivity).
    apply Factory.tick_iter_from in Hin.
    destruct Hin as (ss & Hss & -> & Hpos).
    specialize (Hpos ltac:(lia)).
    destruct (Factory.advance_iter n ss) as [Hl _]. rewrite Hl in Hpos.
    rewrite Forall_forall in Ha. destruct (Ha ss Hss) as [H1 Hd].
    rewrite H1 in Hpos.
    assert (Hk : (72 <= IZR (Z.of_nat n))%R) by (apply IZR_le; lia).
    nra.
Qed.

Lemma shooting_star_lifetime_witness :
  Forall Factory.spawned [Factory.meteor] /\
  Nat.iter 72 Factory.tickShooting [Factory.meteor] = [].
Proof.
  assert (H : Forall Factory.spawned [Factory.meteor]).
  { constructor; [|constructor]. unfold Factory.spawned; simpl. lra. }
  split; [exact H|].
  exact (proj2 (shooting_star_lifetime [Factory.meteor] H) 72%nat (le_n 72)).
Defined.

Unset Implicit Arguments.

Module Kinematics.
Local Open Scope R_scope.

(** The sum of the magnitudes of the strengths of the centres. *)
Definition strength (vcs : list (@Vortex R)) : R :=
  Geometry.total (fun vt => Rabs (vt_str vt)) vcs.

(** The most one tick can add to a component of the velocity: 0.27 for
    each unit of strength (a tangential part of at most 0.25 and a
    centripetal part of 0.08 of it), and 0.45 from the pointer. *)
Definition thrust (vcs : list (@Vortex R)) : R := 0.27 * strength vcs + 0.45.

(** The component speed at which the damping takes off what a tick adds. *)
Definition topSpeed (vcs : list (@Vortex R)) : R := 39 * thrust vcs.

Definition within (b : R) (s : @Star R) : Prop :=
  Rabs (s_vx s) <= b /\ Rabs (s_vy s) <= b.

Definition inMargins (w h : R) (s : @Star R) : Prop :=
  -20 <= s_x s <= w + 20 /\ -20 <= s_y s <= h + 20.

Lemma strength_nonneg (vcs : list (@Vortex R)) : 0 <= strength vcs.
Proof.
  induction vcs as [|vt vcs IH]; unfold strength in *; simpl; [lra|].
  pose proof (Rabs_pos (vt_str vt)). lra.
Qed.

Lemma strength_layout (w h : R) : strength (layout w h) = 2.65.
Proof.
  unfold strength, layout; simpl.
  rewrite !Rabs_Ropp.
  rewrite !Rabs_pos_eq by (unfold Q2R; simpl; lra).
  unfold Q2R; simpl. lra.
Qed.

Lemma Rabs_le_inv (x a : R) : Rabs x <= a -> - a <= x <= a.
Proof. unfold Rabs. destruct (Rcase_abs x); lra. Qed.

Lemma unit_component (dx dy d : R) :
  0 < d -> d * d = dx * dx + dy * dy -> -1 <= dx / d <= 1.
Proof.
  intros Hd Hsq.
  assert (Hu : dx / d * d = dx) by (field; lra).
  set (u := dx / d) in *. clearbody u.
  split.
  - destruct (Rle_dec (-1) u) as [H|H]; [exact H | exfalso].
    assert (u * d < - d) by nra. nra.
  - destruct (Rle_dec u 1) as [H|H]; [exact H | exfalso].
    assert (d < u * d) by nra. nra.
Qed.

Lemma sqrt_square_sum (dx dy : R) :
  R_sqrt.sqrt (dx * dx + dy * dy) * R_sqrt.sqrt (dx * dx + dy * dy)
  = dx * dx + dy * dy.
Proof. apply sqrt_sqrt. nra. Qed.

Lemma push_bound (vt : @Vortex R) (s : @Star R) :
  Rabs (Geometry.push_x vt s) <= 0.27 * Rabs (vt_str vt) /\
  Rabs (Geometry.push_y vt s) <= 0.27 * Rabs (vt_str vt).
Proof.
  unfold Geometry.push_x, Geometry.push_y. rewrite Geometry.vortexForce_unfold.
  pose proof (Rabs_pos (vt_str vt)) as Hs.
  destruct (Exact.ltb (Geometry.distance vt s) (vt_r vt)) eqn:Er;
    [|simpl; rewrite !Rminus_diag, Rabs_R0; lra].
  destruct (Exact.ltb 1 (Geometry.distance vt s)) eqn:E1;
    [|simpl; rewrite !Rminus_diag, Rabs_R0; lra].
  apply Exact.ltb_true in Er, E1. simpl.
  unfold Geometry.falloff.
  pose proof (sqrt_square_sum (Geometry.radius_x vt s) (Geometry.radius_y vt s)) as Hsq.
  fold (Geometry.distance vt s) in Hsq.
  set (d := Geometry.distance vt s) in *.
  assert (Hd : 0 < d) by lra.
  pose proof (unit_component _ _ _ Hd Hsq) as Hux.
  assert (Hsq' : d * d = Geometry.radius_y vt s * Geometry.radius_y vt s +
                         Geometry.radius_x vt s * Geometry.radius_x vt s) by lra.
  pose proof (unit_component _ _ _ Hd Hsq') as Huy.
  set (ux := Geometry.radius_x vt s / d) in *.
  set (uy := Geometry.radius_y vt s / d) in *.
  assert (Hk : 0 < 1 - d / vt_r vt < 1).
  { assert (Hr : 0 < vt_r vt) by lra.
    assert (Hq : d / vt_r vt * vt_r vt = d) by (field; lra).
    set (q := d / vt_r vt) in *. clearbody q. split; nra. }
  set (k := 1 - d / vt_r vt) in *.
  replace (- Geometry.radius_y vt s / d) with (- uy)
    by (unfold uy; field; lra).
  clearbody k ux uy d.
  split.
  - replace (s_vx s + - uy * (k * vt_str vt * 0.25)
             - ux * (k * vt_str vt * 0.25) * 0.08 - s_vx s)
      with (k * 0.25 * (- uy - 0.08 * ux) * vt_str vt) by ring.
    rewrite Rabs_mult. apply Rmult_le_compat_r; [exact Hs|].
    apply Rabs_le. split; nra.
  - replace (s_vy s + ux * (k * vt_str vt * 0.25)
             - uy * (k * vt_str vt * 0.25) * 0.08 - s_vy s)
      with (k * 0.25 * (ux - 0.08 * uy) * vt_str vt) by ring.
    rewrite Rabs_mult. apply Rmult_le_compat_r; [exact Hs|].
    apply Rabs_le. split; nra.
Qed.

Lemma total_push_bound (f : @Vortex R -> R) (vcs : list (@Vortex R)) :
  (forall vt, Rabs (f vt) <= 0.27 * Rabs (vt_str vt)) ->
  Rabs (Geometry.total f vcs) <= 0.27 * strength vcs.
Proof.
  intros Hf. induction vcs as [|vt vcs IH]; unfold strength in *; simpl.
  - rewrite Rabs_R0. lra.
  - eapply Rle_trans; [apply Rabs_triang|]. specialize (Hf vt). lra.
Qed.

Lemma pointer_bound (m : @Mouse R) (s : @Star R) :
  Rabs (s_vx (mouseForce m s) - s_vx s) <= 0.45 /\
  Rabs (s_vy (mouseForce m s) - s_vy s) <= 0.45.
Proof.
  destruct m as [[mx|] my];
    [|unfold mouseForce; simpl; rewrite !Rminus_diag, Rabs_R0; lra].
  unfold mouseForce. cbn [m_x m_y].
  set (dx := (s_x s - mx)%js). set (dy := (s_y s - toNumber my)%js).
  change (sqrt (dx * dx + dy * dy))%js with (R_sqrt.sqrt (dx * dx + dy * dy)).
  pose proof (sqrt_square_sum dx dy) as Hsq.
  set (d := R_sqrt.sqrt (dx * dx + dy * dy)) in *.
  change ((d <? lit 280) && (d >? lit 1))%js
    with (Exact.ltb d (Q2R 280) && Exact.ltb (Q2R 1) d).
  destruct (Exact.ltb d (Q2R 280)) eqn:Er;
    [|simpl; rewrite !Rminus_diag, Rabs_R0; lra].
  destruct (Exact.ltb (Q2R 1) d) eqn:E1;
    [|simpl; rewrite !Rminus_diag, Rabs_R0; lra].
  apply Exact.ltb_true in Er, E1. simpl.
  unfold Q2R in *; simpl in *.
  assert (Hd : 0 < d) by lra.
  pose proof (unit_component _ _ _ Hd Hsq) as Hux.
  assert (Hsq' : d * d = dy * dy + dx * dx) by lra.
  pose proof (unit_component _ _ _ Hd Hsq') as Huy.
  replace (- dy / d) with (- (dy / d)) by (field; lra).
  set (ux := dx / d) in *. set (uy := dy / d) in *.
  assert (Hq : d * / 280 = d / 280) by reflexivity.
  clearbody ux uy d.
  split; apply Rabs_le; split; nra.
Qed.

Section WithTime.
Variables (t : R) (vcs : list (@Vortex R)) (m : @Mouse R) (w h : R).

(** The velocity a tick leaves is the velocity after the damping. *)
Lemma updateStar_velocity (s : @Star R) :
  s_vx (updateStar t vcs m w h s) = s_vx (moved t vcs m s) /\
  s_vy (updateStar t vcs m w h s) = s_vy (moved t vcs m s).
Proof.
  unfold updateStar, beforeSample, moved, sampleTrail.
  set (s1 := move _). cbn [s_vx s_vy set_trail].
  unfold wrapEdges.
  repeat match goal with |- context [if ?c then _ else _] => destruct c end;
    split; reflexivity.
Qed.

Lemma moved_velocity (s : @Star R) :
  s_vx (moved t vcs m s) =
    (s_vx s + Geometry.total (fun vt => Geometry.push_x vt (twinkle t s)) vcs +
     (s_vx (mouseForce m (vortexForces vcs (twinkle t s)))
      - s_vx (vortexForces vcs (twinkle t s)))) * 0.975 /\
  s_vy (moved t vcs m s) =
    (s_vy s + Geometry.total (fun vt => Geometry.push_y vt (twinkle t s)) vcs +
     (s_vy (mouseForce m (vortexForces vcs (twinkle t s)))
      - s_vy (vortexForces vcs (twinkle t s)))) * 0.975.
Proof.
  unfold moved, move, damp. cbn [s_vx s_vy set_pos set_vel].
  destruct (Geometry.vortexForces_total vcs (twinkle t s)) as [Hx Hy].
  change (s_vx (twinkle t s)) with (s_vx s) in Hx.
  change (s_vy (twinkle t s)) with (s_vy s) in Hy.
  change (lit 0.975) with (Q2R 0.975).
  replace (Q2R 0.975) with 0.975 by (unfold Q2R; simpl; lra).
  change (?a * ?b)%js with (a * b).
  split; [rewrite <- Hx | rewrite <- Hy]; ring.
Qed.

Lemma tick_velocity (b : R) (s : @Star R) :
  within b s ->
  within ((b + thrust vcs) * 0.975) (updateStar t vcs m w h s).
Proof.
  intros [Hx Hy]. unfold within.
  destruct (updateStar_velocity s) as [-> ->].
  destruct (moved_velocity s) as [-> ->].
  pose proof (total_push_bound (fun vt => Geometry.push_x vt (twinkle t s)) vcs
                (fun vt => proj1 (push_bound vt (twinkle t s)))) as Hpx.
  pose proof (total_push_bound (fun vt => Geometry.push_y vt (twinkle t s)) vcs
                (fun vt => proj2 (push_bound vt (twinkle t s)))) as Hpy.
  destruct (pointer_bound m (vortexForces vcs (twinkle t s))) as [Hmx Hmy].
  unfold thrust.
  apply Rabs_le_inv in Hx, Hy, Hpx, Hpy, Hmx, Hmy.
  split; apply Rabs_le; lra.
Qed.

(** Where a tick leaves the star: one velocity further, wrapped. *)
Lemma tick_position (s : @Star R) :
  Rabs (s_vx (moved t vcs m s)) <= w + 40 ->
  Rabs (s_vy (moved t vcs m s)) <= h + 40 ->
  inMargins w h s -> inMargins w h (updateStar t vcs m w h s).
Proof.
  intros Hvx Hvy [Hx Hy]. unfold inMargins.
  assert (Hmx : s_x (moved t vcs m s) = s_x s + s_vx (moved t vcs m s)).
  { unfold moved, move. cbn [s_x s_vx set_pos].
    unfold damp at 1. cbn [s_x set_vel].
    assert (Hk : forall s0 : @Star R, s_x (mouseForce m s0) = s_x s0).
    { intros s0. unfold mouseForce.
      destruct (m_x m); [destruct (_ && _)|]; reflexivity. }
    rewrite Hk. destruct (vortexForces_keeps vcs (twinkle t s)) as (-> & _).
    reflexivity. }
  assert (Hmy : s_y (moved t vcs m s) = s_y s + s_vy (moved t vcs m s)).
  { unfold moved, move. cbn [s_y s_vy set_pos].
    unfold damp at 1. cbn [s_y set_vel].
    assert (Hk : forall s0 : @Star R, s_y (mouseForce m s0) = s_y s0).
    { intros s0. unfold mouseForce.
      destruct (m_x m); [destruct (_ && _)|]; reflexivity. }
    rewrite Hk. destruct (vortexForces_keeps vcs (twinkle t s)) as (_ & -> & _).
    reflexivity. }
  apply Rabs_le_inv in Hvx, Hvy.
  unfold updateStar, beforeSample, sampleTrail. fold (moved t vcs m s).
  set (s1 := moved t vcs m s) in *. clearbody s1.
  unfold wrapEdges.
  change (lit 20) with (Q2R 20). change (lit 40) with (Q2R 40).
  replace (Q2R 20) with 20 by (unfold Q2R; simpl; lra).
  replace (Q2R 40) with 40 by (unfold Q2R; simpl; lra).
  change (?a <? ?b)%js with (Exact.ltb a b).
  change (- ?a)%js with (- a). change (?a + ?b)%js with (a + b).
  change (?a - ?b)%js with (a - b).
  repeat match goal with
         | |- context [Exact.ltb ?a ?b] =>
             let E := fresh "E" in
             destruct (Exact.ltb a b) eqn:E;
             [apply Exact.ltb_true in E | apply Exact.ltb_false in E]
         end;
    cbn [clearIfWrapped set_trail set_pos s_x s_y fst snd add Exact_num] in *;
    lra.
Qed.

End WithTime.

(** ** Sessions *)

Lemma makeStar_start (w h : R) (g : Rng R) :
  ExactFacts.unitDraws g -> 0 <= w -> 0 <= h ->
  within 0.25 (fst (makeStar w h g)) /\
  0 <= s_x (fst (makeStar w h g)) <= w /\
  0 <= s_y (fst (makeStar w h g)) <= h.
Proof.
  intros Hg Hw Hh.
  pose proof (Hg (S (S (next g)))) as H2.
  pose proof (Hg (S (S (S (next g))))) as H3.
  pose proof (Hg (S (S (S (S (next g)))))) as H4.
  pose proof (Hg (S (S (S (S (S (next g))))))) as H5.
  unfold within, makeStar, bind, random, ret. cbn -[Z.add Int_part].
  repeat match goal with |- context [if ?c then _ else _] => destruct c end;
    cbn -[Z.add Int_part]; unfold Q2R; simpl;
    (split; [split; apply Rabs_le; lra | split; nra]).
Qed.

Lemma makeStar_velocity (w h : R) (g : Rng R) :
  ExactFacts.unitDraws g -> within 0.25 (fst (makeStar w h g)).
Proof.
  intros Hg.
  pose proof (Hg (S (S (S (S (next g)))))) as H4.
  pose proof (Hg (S (S (S (S (S (next g))))))) as H5.
  unfold within, makeStar, bind, random, ret. cbn -[Z.add Int_part].
  repeat match goal with |- context [if ?c then _ else _] => destruct c end;
    cbn -[Z.add Int_part]; unfold Q2R; simpl;
    (split; apply Rabs_le; lra).
Qed.

Lemma initStars_Forall (P : @Star R -> Prop) (sc : @Scene R) (g : Rng R) :
  (forall g0, ExactFacts.unitDraws g0 -> P (fst (makeStar (W sc) (H sc) g0))) ->
  ExactFacts.unitDraws g -> Forall P (stars (fst (initStars sc g))).
Proof.
  intros HP Hg. unfold initStars, bind, ret.
  destruct (pushEach _ _ _ g) as [sts g'] eqn:E. simpl.
  change sts with (fst (sts, g')). rewrite <- E.
  apply pushEach_Forall with (Q := ExactFacts.unitDraws); [|exact Hg|constructor].
  intros g0 Hg0. split; [apply HP, Hg0|].
  apply Factory.unitDraws_kept; [apply keeps_makeStar | exact Hg0].
Qed.

Lemma initStars_frame (sc : @Scene R) (g : Rng R) :
  W (fst (initStars sc g)) = W sc /\ H (fst (initStars sc g)) = H sc /\
  vortexCenters (fst (initStars sc g)) = vortexCenters sc /\
  time (fst (initStars sc g)) = time sc.
Proof.
  unfold initStars, bind, ret. destruct (pushEach _ _ _ g); simpl.
  repeat split; reflexivity.
Qed.

Lemma update_frame (sc : @Scene R) (g : Rng R) :
  W (fst (update sc g)) = W sc /\ H (fst (update sc g)) = H sc /\
  vortexCenters (fst (update sc g)) = vortexCenters sc /\
  mouse (fst (update sc g)) = mouse sc /\
  time (fst (update sc g)) = time sc + 0.016.
Proof.
  unfold update, bind, ret. destruct (maybeSpawn sc g); simpl.
  repeat split; reflexivity.
Qed.

(** An invariant of the scenes of a run whose events meet [E]. *)
Lemma run_guarded (P : @Scene R -> Prop) (E : @Event R -> Prop) :
  (forall e sc g, E e -> ExactFacts.unitDraws g -> P sc -> P (fst (handle e sc g))) ->
  forall es sc g, Forall E es -> ExactFacts.unitDraws g -> P sc ->
    P (fst (run es sc g)).
Proof.
  intros HP. induction es as [|e es IH]; intros sc g Hes Hg Hsc; simpl.
  - exact Hsc.
  - inversion Hes as [|? ? He Hes']; subst.
    unfold bind. specialize (HP e sc g He Hg Hsc).
    pose proof (Factory.unitDraws_kept (handle e sc) g (keeps_handle e sc) Hg) as Hg'.
    destruct (handle e sc g) as [sc' g']. simpl in *. apply IH; assumption.
Qed.

(** The component speed limit under the five centres of [resize]. *)
Definition limit : R := 45.4545.

Definition calm (sc : @Scene R) : Prop :=
  strength (vortexCenters sc) <= 2.65 /\ Forall (within limit) (stars sc).

(** A surface of at least 6 by 6, so that the period of the wrap,
    [w + 40], is more than [limit]. *)
Definition roomy (e : @Event R) : Prop :=
  match e with
  | ResizeTo w h => 6 <= w /\ 6 <= h
  | _ => True
  end.

Definition contained (sc : @Scene R) : Prop :=
  calm sc /\ 6 <= W sc /\ 6 <= H sc /\
  Forall (inMargins (W sc) (H sc)) (stars sc).

Lemma within_weaken (a b : R) (s : @Star R) : a <= b -> within a s -> within b s.
Proof. unfold within. intros Hab [Hx Hy]. split; lra. Qed.

Lemma tick_calm (t : R) (vcs : list (@Vortex R)) (m : @Mouse R) (w h : R)
    (s : @Star R) :
  strength vcs <= 2.65 -> within limit s ->
  within limit (updateStar t vcs m w h s).
Proof.
  intros Hs Hb.
  apply within_weaken with ((limit + thrust vcs) * 0.975).
  - unfold limit, thrust. lra.
  - apply tick_velocity, Hb.
Qed.

Lemma handle_calm (e : @Event R) (sc : @Scene R) (g : Rng R) :
  ExactFacts.unitDraws g -> calm sc -> calm (fst (handle e sc g)).
Proof.
  intros Hg [Hs Hv]. destruct e as [|w h|x y| |y vh]; simpl.
  - unfold calm. rewrite update_stars.
    destruct (update_frame sc g) as (_ & _ & -> & _).
    split; [exact Hs|].
    apply Forall_forall. intros s' Hin.
    apply in_map_iff in Hin. destruct Hin as (s & <- & Hin).
    rewrite Forall_forall in Hv. apply tick_calm; [exact Hs | apply Hv, Hin].
  - unfold calm, onResize.
    destruct (initStars_frame (resize w h sc) g) as (_ & _ & -> & _).
    change (vortexCenters (resize w h sc)) with (layout w h).
    split; [rewrite strength_layout; lra|].
    apply initStars_Forall; [|exact Hg].
    intros g0 Hg0. apply within_weaken with 0.25; [unfold limit; lra|].
    apply makeStar_velocity, Hg0.
  - split; assumption.
  - split; assumption.
  - split; assumption.
Qed.

Lemma boot_calm (w h : R) (g : Rng R) :
  ExactFacts.unitDraws g -> calm (fst (boot w h g)).
Proof.
  intros Hg. apply (handle_calm (ResizeTo w h) scene0 g Hg).
  split; [unfold strength; simpl; lra | constructor].
Qed.

Lemma resize_contained (w h : R) (sc : @Scene R) (g : Rng R) :
  ExactFacts.unitDraws g -> 6 <= w -> 6 <= h ->
  contained (fst (onResize w h sc g)).
Proof.
  intros Hg Hw Hh. unfold contained, calm, onResize.
  destruct (initStars_frame (resize w h sc) g) as (-> & -> & -> & _).
  change (W (resize w h sc)) with w. change (H (resize w h sc)) with h.
  change (vortexCenters (resize w h sc)) with (layout w h).
  rewrite strength_layout.
  split; [split; [lra|]|split; [exact Hw|split; [exact Hh|]]].
  - apply initStars_Forall; [|exact Hg].
    intros g0 Hg0. apply within_weaken with 0.25; [unfold limit; lra|].
    apply makeStar_velocity, Hg0.
  - apply initStars_Forall; [|exact Hg].
    intros g0 Hg0. simpl.
    destruct (makeStar_start w h g0 Hg0) as (_ & Hx & Hy); [lra | lra |].
    unfold inMargins. lra.
Qed.

Lemma handle_contained (e : @Event R) (sc : @Scene R) (g : Rng R) :
  roomy e -> ExactFacts.unitDraws g -> contained sc ->
  contained (fst (handle e sc g)).
Proof.
  intros He Hg (Hc & Hw & Hh & Hin).
  destruct e as [|w h|x y| |y vh];
    [|destruct He; apply resize_contained; assumption| | |];
    (split; [apply handle_calm; assumption|]);
    destruct Hc as [Hs Hv]; simpl.
  - rewrite update_stars.
    destruct (update_frame sc g) as (-> & -> & _).
    split; [exact Hw|]. split; [exact Hh|].
    apply Forall_forall. intros s' Hs'.
    apply in_map_iff in Hs'. destruct Hs' as (s & <- & Hs').
    rewrite Forall_forall in Hv, Hin.
    pose proof (tick_calm (time sc + lit 0.016)%js (vortexCenters sc) (mouse sc)
                  (W sc) (H sc) s Hs (Hv s Hs')) as [Hx Hy].
    destruct (updateStar_velocity (time sc + lit 0.016)%js (vortexCenters sc)
                (mouse sc) (W sc) (H sc) s) as [Ex Ey].
    rewrite Ex in Hx. rewrite Ey in Hy. unfold limit in Hx, Hy.
    apply tick_position; [lra | lra | apply Hin, Hs'].
  - auto.
  - auto.
  - auto.
Qed.

End Kinematics.

(** X13.  Under centres of total strength [S] (the sum of the magnitudes of
    their strengths), a tick keeps each component of a star's velocity
    within any bound that is at least [39 * (0.27 * S + 0.45)], wherever
    the star, the centres and the pointer are.  (Exact arithmetic.) *)
Theorem speed_limit (t : R) (vcs : list (@Vortex R)) (m : @Mouse R) (w h b : R)
    (s : @Star R) :
  (Kinematics.topSpeed vcs <= b)%R ->
  Kinematics.within b s ->
  Kinematics.within b (updateStar t vcs m w h s).
Proof.
  intros Hb Hs.
  apply Kinematics.within_weaken with ((b + Kinematics.thrust vcs) * 0.975)%R.
  - unfold Kinematics.topSpeed in Hb. lra.
  - apply Kinematics.tick_velocity, Hs.
Qed.

Lemma speed_limit_witness :
  Kinematics.within 50 (updateStar 0%R [VortexWitness.centre]
                          (Pointer.at_ 0 0) 1000%R 800%R VortexWitness.near).
Proof.
  apply speed_limit.
  - unfold Kinematics.topSpeed, Kinematics.thrust, Kinematics.strength.
    simpl. rewrite Rabs_pos_eq by lra. lra.
  - unfold Kinematics.within; simpl. rewrite Rabs_R0. lra.
Defined.

(** X14.  In a session whose draws are in [0, 1), the components of the
    velocity of every star stay within 45.4545 in magnitude, whatever the
    frames, resizes, pointer positions and scroll offsets.  (Exact
    arithmetic.) *)
Theorem session_speed_limit (w h : R) (es : list (@Event R)) (g : Rng R) :
  ExactFacts.unitDraws g ->
  Forall (fun s => (Rabs (s_vx s) <= 45.4545)%R /\ (Rabs (s_vy s) <= 45.4545)%R)
         (stars (fst (session w h es g))).
Proof.
  intros Hg. rewrite session_run.
  assert (Hc : Kinematics.calm (fst (run es (fst (boot w h g)) (snd (boot w h g))))).
  { apply (Kinematics.run_guarded Kinematics.calm (fun _ => True)).
    - intros e sc g0 _. apply Kinematics.handle_calm.
    - apply Forall_forall. intros; exact I.
    - apply Factory.unitDraws_kept; [|exact Hg].
      unfold boot. apply keeps_handle with (e := ResizeTo w h).
    - apply Kinematics.boot_calm, Hg. }
  exact (proj2 Hc).
Qed.

Lemma session_speed_limit_witness :
  Forall (fun s => (Rabs (s_vx s) <= 45.4545)%R /\ (Rabs (s_vy s) <= 45.4545)%R)
         (stars (fst (session 1000%R 800%R [Frame; MouseMove 10%R 10%R; Frame]
                        ExactFacts.halves))).
Proof. apply session_speed_limit. exact ExactFacts.halves_unit. Defined.

(** X15.  In a session whose draws are in [0, 1) and whose surface is at
    least 6 by 6 at boot and at every resize, every star is, after every
    frame and event, within the margins of the current surface:
    [-20 <= x <= W + 20] and [-20 <= y <= H + 20].  (Exact arithmetic.) *)
Theorem stars_stay_in_margins (w h : R) (es : list (@Event R)) (g : Rng R) :
  ExactFacts.unitDraws g -> (6 <= w)%R -> (6 <= h)%R ->
  Forall Kinematics.roomy es ->
  let sc := fst (session w h es g) in
  Forall (fun s => (-20 <= s_x s <= W sc + 20)%R /\ (-20 <= s_y s <= H sc + 20)%R)
         (stars sc).
Proof.
  intros Hg Hw Hh Hes sc. unfold sc. rewrite session_run.
  assert (Hc : Kinematics.contained
                 (fst (run es (fst (boot w h g)) (snd (boot w h g))))).
  { apply (Kinematics.run_guarded Kinematics.contained Kinematics.roomy).
    - apply Kinematics.handle_contained.
    - exact Hes.
    - apply Factory.unitDraws_kept; [|exact Hg].
      unfold boot. apply keeps_handle with (e := ResizeTo w h).
    - apply Kinematics.resize_contained; assumption. }
  exact (proj2 (proj2 (proj2 Hc))).
Qed.

Lemma stars_stay_in_margins_witness :
  ExactFacts.unitDraws ExactFacts.halves /\ (6 <= 1000)%R /\ (6 <= 800)%R /\
  Forall Kinematics.roomy [Frame; ResizeTo 640%R 480%R; Frame] /\
  let sc := fst (session 1000%R 800%R [Frame; ResizeTo 640%R 480%R; Frame]
                   ExactFacts.halves) in
  Forall (fun s => (-20 <= s_x s <= W sc + 20)%R /\ (-20 <= s_y s <= H sc + 20)%R)
         (stars sc).
Proof.
  assert (Hw : (6 <= 1000)%R) by lra. assert (Hh : (6 <= 800)%R) by lra.
  assert (Hes : Forall Kinematics.roomy [Frame; ResizeTo 640%R 480%R; Frame]).
  { repeat constructor; simpl; lra. }
  split; [exact ExactFacts.halves_unit|]. split; [exact Hw|]. split; [exact Hh|].
  split; [exact Hes|].
  exact (stars_stay_in_margins 1000%R 800%R [Frame; ResizeTo 640%R 480%R; Frame]
           ExactFacts.halves ExactFacts.halves_unit Hw Hh Hes).
Defined.

Set Implicit Arguments.

(* ================================================================== *)
(** * Drawing *)
(* ================================================================== *)

(** [Math.min], which only [drawMoon] uses. *)
Class JsMin (num : Type) : Type := { min : num -> num -> num }.

Module F64Min.

(** [Math.min]: NaN if either argument is, and -0 below +0. *)
Definition min (a b : float) : float :=
  if PrimFloat.is_nan a then a
  else if PrimFloat.is_nan b then b
  else if PrimFloat.ltb a b then a
  else if PrimFloat.ltb b a then b
  else if PrimFloat.get_sign a then a else b.

End F64Min.

#[export] Instance F64_min : JsMin float := {| min := F64Min.min |}.
#[export] Instance Exact_min : JsMin R := {| min := Rmin |}.

Section Canvas.
Context {num : Type} {NUM : JsNum num}.
Local Open Scope js_scope.

(** The colour [rgba(r,g,b,a)]. *)
Record Rgba : Type := mkRgba { c_rgb : Color; c_alpha : num }.

(** A radial gradient, with the colour stops in the order they are added. *)
Record Gradient : Type := mkGradient {
  g_x0 : num; g_y0 : num; g_r0 : num;
  g_x1 : num; g_y1 : num; g_r1 : num;
  g_stops : list (num * Rgba);
}.

Inductive Paint : Type :=
| Solid (c : Rgba)
| Radial (g : Gradient).

(** The calls on the 2D context [ctx] that change the canvas or the
    context's state, in the order [draw] makes them. *)
Inductive Call : Type :=
| ClearRect (x y w h : num)
| BeginPath
| MoveTo (x y : num)
| LineTo (x y : num)
| Arc (x y r a0 a1 : num)
| StrokeStyle (p : Paint)
| LineWidth (w : num)
| LineCapRound
| Stroke
| FillStyle (p : Paint)
| Fill.

(** An array index or length, as a number. *)
Definition ofNat (n : nat) : num := lit (inject_Z (Z.of_nat n)).

(** [drawMoon()] *)
Definition drawMoon {MIN : JsMin num} (sc : @Scene num) : list Call :=
  let mx := W sc * lit 0.84 in
  let my := H sc * lit 0.13 in
  let mr := min (W sc) (H sc) * lit 0.055 in
  let dim := scrollDim sc in
  (* outer glow layers *)
  let g1 := mkGradient mx my (mr * lit 0.4) mx my (mr * lit 5)
              [ (lit 0,    mkRgba (253, 230, 138)%Z (lit 0.12 * dim));
                (lit 0.35, mkRgba (253, 230, 138)%Z (lit 0.04 * dim));
                (lit 1,    mkRgba (253, 230, 138)%Z (lit 0)) ] in
  (* moon body *)
  let g2 := mkGradient (mx - mr * lit 0.25) (my - mr * lit 0.25) (lit 0) mx my mr
              [ (lit 0,   mkRgba (255, 252, 228)%Z (lit 0.92 * dim));
                (lit 0.6, mkRgba (253, 230, 138)%Z (lit 0.88 * dim));
                (lit 1,   mkRgba (235, 200, 100)%Z (lit 0.75 * dim)) ] in
  [ BeginPath; Arc mx my (mr * lit 5) (lit 0) (PI * lit 2);
    FillStyle (Radial g1); Fill;
    BeginPath; Arc mx my mr (lit 0) (PI * lit 2);
    FillStyle (Radial g2); Fill;
    (* crescent shadow *)
    BeginPath;
    Arc (mx + mr * lit 0.38) (my - mr * lit 0.08) (mr * lit 0.82) (lit 0) (PI * lit 2);
    FillStyle (Solid (mkRgba (10, 22, 40)%Z (lit 0.88 * dim))); Fill ].

(** The body of the loop over a star's trail, for the index [j]; the loop
    keeps [j] within the trail. *)
Definition drawSegment (dim : num) (s : @Star num) (len j : nat) : list Call :=
  match nth_error (s_trail s) (j - 1), nth_error (s_trail s) j with
  | Some a, Some b =>
      let segDx := p_x b - p_x a in
      let segDy := p_y b - p_y a in
      if segDx * segDx + segDy * segDy >? lit 10000 then []
      else
        let progress := ofNat j / ofNat len in
        let alpha := progress * lit 0.35 * dim in
        let lw := s_size s * progress * lit 1.6 in
        [ BeginPath; MoveTo (p_x a) (p_y a); LineTo (p_x b) (p_y b);
          StrokeStyle (Solid (mkRgba (s_color s) alpha));
          LineWidth lw; LineCapRound; Stroke ]
  | _, _ => []
  end.

(** The body of the loop over [stars]. *)
Definition drawStar (dim : num) (s : @Star num) : list Call :=
  let len := length (s_trail s) in
  if (len <? 2)%nat then []
  else
    flat_map (drawSegment dim s len) (seq 1 (len - 1)) ++
    (* star body *)
    [ BeginPath; Arc (s_x s) (s_y s) (s_size s) (lit 0) (PI * lit 2);
      FillStyle (Solid (mkRgba (s_color s) (lit 0.9 * dim))); Fill ] ++
    (* glow for larger stars *)
    (if s_baseSize s >? lit 2 then
       let gr := mkGradient (s_x s) (s_y s) (lit 0) (s_x s) (s_y s) (s_size s * lit 5)
                   [ (lit 0, mkRgba (s_color s) (lit 0.25 * dim));
                     (lit 1, mkRgba (s_color s) (lit 0)) ] in
       [ BeginPath; Arc (s_x s) (s_y s) (s_size s * lit 5) (lit 0) (PI * lit 2);
         FillStyle (Radial gr); Fill ]
     else []).

(** The body of the loop over a shooting star's trail. *)
Definition drawStreak (dim : num) (ss : @ShootingStar num) (len j : nat) : list Call :=
  match nth_error (ss_trail ss) (j - 1), nth_error (ss_trail ss) j with
  | Some a, Some b =>
      let alpha := (ofNat j / ofNat len) * k_a b * lit 0.85 * dim in
      let lw := ss_size ss * (ofNat j / ofNat len) in
      [ BeginPath; MoveTo (k_x a) (k_y a); LineTo (k_x b) (k_y b);
        StrokeStyle (Solid (mkRgba (255, 255, 240)%Z alpha));
        LineWidth lw; LineCapRound; Stroke ]
  | _, _ => []
  end.

Definition drawShootingStar (dim : num) (ss : @ShootingStar num) : list Call :=
  let len := length (ss_trail ss) in
  flat_map (drawStreak dim ss len) (seq 1 (len - 1)).

(** [draw()] *)
Definition draw {MIN : JsMin num} (sc : @Scene num) : list Call :=
  let dim := scrollDim sc in
  ClearRect (lit 0) (lit 0) (W sc) (H sc) ::
  drawMoon sc ++
  flat_map (drawStar dim) (stars sc) ++
  flat_map (drawShootingStar dim) (shootingStars sc).

(** [loop()], up to the request for the next frame: the scene after the
    tick and what is drawn of it. *)
Definition loop {TRIG : JsTrig num} {MIN : JsMin num} (sc : @Scene num)
  : M num (@Scene num * list Call) :=
  sc' <- update sc ;;
  ret (sc', draw sc').

(** Whether a sequence of calls, started with or without a current path
    under construction, builds each path after a [beginPath], paints it
    once, and leaves none unpainted. *)
Fixpoint painted (open : bool) (cs : list Call) : bool :=
  match cs with
  | [] => negb open
  | BeginPath :: cs' => negb open && painted true cs'
  | (MoveTo _ _ | LineTo _ _ | Arc _ _ _ _ _) :: cs' => open && painted true cs'
  | (Stroke | Fill) :: cs' => open && painted false cs'
  | ClearRect _ _ _ _ :: cs' => negb open && painted false cs'
  | (StrokeStyle _ | LineWidth _ | LineCapRound | FillStyle _) :: cs' =>
      painted open cs'
  end.

End Canvas.

Unset Implicit Arguments.

Section CanvasFacts.
Context {num : Type} {NUM : JsNum num}.
Local Open Scope js_scope.

Lemma painted_app (cs ds : list (@Call num)) :
  painted false cs = true -> painted false ds = true ->
  painted false (cs ++ ds) = true.
Proof.
  intros Hcs Hds.
  enough (H : forall o, painted o cs = true -> painted o (cs ++ ds) = true)
    by (apply H, Hcs).
  clear Hcs. induction cs as [|c cs IH]; intros o Ho.
  - destruct o; [discriminate | exact Hds].
  - destruct c; simpl in *;
      try (apply andb_true_iff in Ho; destruct Ho as [-> Ho]; simpl);
      apply IH; assumption.
Qed.

Lemma painted_flat_map {A} (f : A -> list (@Call num)) (l : list A) :
  (forall a, painted false (f a) = true) ->
  painted false (flat_map f l) = true.
Proof.
  intros Hf. induction l as [|a l IH]; simpl; [reflexivity|].
  apply painted_app; [apply Hf | exact IH].
Qed.

Lemma drawSegment_painted dim (s : @Star num) len j :
  painted false (drawSegment dim s len j) = true.
Proof.
  unfold drawSegment.
  destruct (nth_error _ (j - 1)); [|reflexivity].
  destruct (nth_error _ j); [|reflexivity].
  destruct (_ >? _); reflexivity.
Qed.

Lemma drawStar_painted dim (s : @Star num) :
  painted false (drawStar dim s) = true.
Proof.
  unfold drawStar. destruct (_ <? 2)%nat; [reflexivity|].
  apply painted_app; [apply painted_flat_map, drawSegment_painted|].
  destruct (_ >? _); reflexivity.
Qed.

Lemma drawStreak_painted dim (ss : @ShootingStar num) len j :
  painted false (drawStreak dim ss len j) = true.
Proof.
  unfold drawStreak.
  destruct (nth_error _ (j - 1)); [|reflexivity].
  destruct (nth_error _ j); reflexivity.
Qed.

Lemma drawStar_short dim (s : @Star num) :
  (length (s_trail s) < 2)%nat -> drawStar dim s = [].
Proof.
  intros Hlen. unfold drawStar.
  destruct (Nat.ltb_spec (length (s_trail s)) 2); [reflexivity | lia].
Qed.

Lemma draw_painted {MIN : JsMin num} (sc : @Scene num) :
  painted false (draw sc) = true.
Proof.
  unfold draw. cbn [painted negb andb].
  apply (painted_app (drawMoon sc)); [reflexivity|].
  apply painted_app.
  - apply painted_flat_map, drawStar_painted.
  - apply painted_flat_map. intros ss. unfold drawShootingStar.
    apply painted_flat_map, drawStreak_painted.
Qed.

End CanvasFacts.

(** X16.  The calls of one [draw] start by clearing the surface and then
    build every path after a [beginPath], paint it with exactly one
    [fill] or [stroke], and leave no path unpainted, whatever the scene;
    so do the calls of every turn of [loop]. *)
Theorem draw_paints_every_path {num : Type} {NUM : JsNum num} {TRIG : JsTrig num}
    {MIN : JsMin num} (sc : @Scene num) (g : Rng num) :
  hd_error (draw sc) = Some (ClearRect (lit 0) (lit 0) (W sc) (H sc)) /\
  painted false (draw sc) = true /\
  painted false (snd (fst (loop sc g))) = true.
Proof.
  split; [reflexivity|].
  split; [apply draw_painted|].
  unfold loop, bind, ret. destruct (update sc g) as [sc' g']. apply draw_painted.
Qed.

(** X17.  A star is drawn only once its trail holds two samples: in the frame
    of the tick in which it wraps around an edge, and in the first frame
    of a star as [makeStar] makes it, [draw] makes no call for it, neither
    for the trail nor for the body. *)
Theorem wrapped_star_not_drawn {num : Type} {NUM : JsNum num} {TRIG : JsTrig num}
    (dim t : num) (vcs : list Vortex) (m : Mouse) (w h : num) (s : @Star num) :
  wrappedNow t vcs m w h s = true \/ s_trail s = [] ->
  drawStar dim (updateStar t vcs m w h s) = [].
Proof.
  intros Hs. apply drawStar_short.
  pose proof (updateStar_trail t vcs m w h s) as Ht. cbv zeta in Ht.
  rewrite Ht.
  assert (Hk : (if wrappedNow t vcs m w h s then [] else s_trail s) = []).
  { destruct Hs as [-> | ->]; [reflexivity|].
    destruct (wrappedNow t vcs m w h s); reflexivity. }
  rewrite Hk. cbn [app].
  match goal with |- context [if ?c then _ else _] => destruct c end;
    cbn [tl length]; lia.
Qed.

Unset Implicit Arguments.

Module Opacity.
Local Open Scope R_scope.

(** The opacities a call asks for: that of a solid colour, those of the
    stops of a gradient. *)
Definition paintOpacities (p : @Paint R) : list R :=
  match p with
  | Solid c => [c_alpha c]
  | Radial g => map (fun stop => c_alpha (snd stop)) (g_stops g)
  end.

Definition opacities (c : @Call R) : list R :=
  match c with
  | StrokeStyle p | FillStyle p => paintOpacities p
  | _ => []
  end.

(** A shooting star in flight: its life is in (0, 1], it decays, and the
    opacity of each sample of its trail is the life it had then. *)
Definition glowing (ss : @ShootingStar R) : Prop :=
  0 < ss_life ss <= 1 /\ 0 <= ss_decay ss /\
  Forall (fun k => ss_life ss <= k_a k <= 1) (ss_trail ss).

Definition lit_ (sc : @Scene R) : Prop :=
  0.35 <= scrollDim sc /\ Forall glowing (shootingStars sc).

Lemma ofNat_IZR (n : nat) : ofNat n = IZR (Z.of_nat n).
Proof. unfold ofNat. apply ExactFacts.lit_IZR. Qed.

(** The fraction [j / len] of the loops over a trail. *)
Lemma progress_range (len j : nat) :
  In j (seq 1 (len - 1)) -> 0 < ofNat j / ofNat len < 1.
Proof.
  intros Hin. apply in_seq in Hin.
  rewrite !ofNat_IZR.
  assert (Hj : 1 <= IZR (Z.of_nat j)) by (apply IZR_le; lia).
  assert (Hl : IZR (Z.of_nat j) + 1 <= IZR (Z.of_nat len)).
  { rewrite <- plus_IZR. apply IZR_le. lia. }
  set (a := IZR (Z.of_nat j)) in *. set (b := IZR (Z.of_nat len)) in *.
  assert (Hq : a / b * b = a) by (field; lra).
  set (q := a / b) in *. clearbody q a b.
  split; nra.
Qed.

Lemma Forall_flat_map_in {A B} (P : B -> Prop) (f : A -> list B) (l : list A) :
  (forall a, In a l -> Forall P (f a)) -> Forall P (flat_map f l).
Proof.
  intros Hf. induction l as [|a l IH]; simpl; [constructor|].
  apply Forall_app. split; [apply Hf; left; reflexivity|].
  apply IH. intros b Hb. apply Hf. right. exact Hb.
Qed.

Lemma flat_map_flat_map {A B C} (f : B -> list C) (g : A -> list B) (l : list A) :
  flat_map f (flat_map g l) = flat_map (fun a => flat_map f (g a)) l.
Proof.
  induction l as [|a l IH]; simpl; [reflexivity|].
  rewrite flat_map_app, IH. reflexivity.
Qed.

Lemma drawMoon_opacities (sc : @Scene R) :
  0 <= scrollDim sc ->
  Forall (fun a => 0 <= a <= 0.92 * scrollDim sc)
         (flat_map opacities (drawMoon sc)).
Proof.
  intros Hd. unfold drawMoon. cbn [flat_map opacities paintOpacities app map g_stops snd c_alpha].
  unfold Q2R; simpl.
  repeat (apply Forall_cons || apply Forall_nil); lra.
Qed.

Lemma drawStar_opacities (dim : R) (s : @Star R) :
  0 <= dim ->
  Forall (fun a => 0 <= a <= 0.92 * dim) (flat_map opacities (drawStar dim s)).
Proof.
  intros Hd. unfold drawStar.
  destruct (_ <? 2)%nat; [constructor|].
  rewrite !flat_map_app. apply Forall_app. split; [|apply Forall_app; split].
  - rewrite flat_map_flat_map.
    apply Forall_flat_map_in. intros j Hj.
    pose proof (progress_range _ _ Hj) as Hp.
    unfold drawSegment.
    destruct (nth_error _ (j - 1)); [|constructor].
    destruct (nth_error _ j); [|constructor].
    destruct (_ >? _)%js; [constructor|].
    cbn [flat_map opacities paintOpacities app c_alpha map].
    change (ofNat j / ofNat (length (s_trail s)))%js
      with (ofNat j / ofNat (length (s_trail s))).
    set (q := ofNat j / ofNat (length (s_trail s))) in *.
    change (q * lit 0.35 * dim)%js with (q * Q2R 0.35 * dim).
    unfold Q2R; simpl. clearbody q.
    repeat (apply Forall_cons || apply Forall_nil); nra.
  - cbn [flat_map opacities paintOpacities app c_alpha].
    change (lit 0.9 * dim)%js with (Q2R 0.9 * dim). unfold Q2R; simpl.
    repeat (apply Forall_cons || apply Forall_nil); lra.
  - destruct (_ >? _)%js; [|constructor].
    cbn [flat_map opacities paintOpacities app map g_stops snd c_alpha].
    change (lit 0.25 * dim)%js with (Q2R 0.25 * dim).
    change (@lit R Exact_num 0) with (Q2R 0).
    unfold Q2R; simpl.
    repeat (apply Forall_cons || apply Forall_nil); lra.
Qed.

Lemma drawShootingStar_opacities (dim : R) (ss : @ShootingStar R) :
  0 <= dim -> glowing ss ->
  Forall (fun a => 0 <= a <= 0.92 * dim)
         (flat_map opacities (drawShootingStar dim ss)).
Proof.
  intros Hd (Hlife & _ & Htrail). unfold drawShootingStar.
  rewrite flat_map_flat_map.
  apply Forall_flat_map_in. intros j Hj.
  pose proof (progress_range _ _ Hj) as Hp.
  unfold drawStreak.
  destruct (nth_error _ (j - 1)); [|constructor].
  destruct (nth_error (ss_trail ss) j) as [b|] eqn:Eb; [|constructor].
  apply nth_error_In in Eb. rewrite Forall_forall in Htrail.
  specialize (Htrail b Eb).
  cbn [flat_map opacities paintOpacities app c_alpha map].
  change (ofNat j / ofNat (length (ss_trail ss)))%js
    with (ofNat j / ofNat (length (ss_trail ss))).
  set (q := ofNat j / ofNat (length (ss_trail ss))) in *.
  change (q * k_a b * lit 0.85 * dim)%js with (q * k_a b * Q2R 0.85 * dim).
  unfold Q2R; simpl. clearbody q.
  assert (0 <= q * k_a b <= 1) by nra.
  repeat (apply Forall_cons || apply Forall_nil); nra.
Qed.

Lemma draw_opacities (sc : @Scene R) :
  lit_ sc ->
  Forall (fun a => 0 <= a <= 0.92 * scrollDim sc) (flat_map opacities (draw sc)).
Proof.
  intros [Hd Hss]. unfold draw.
  cbn [flat_map opacities app]. rewrite !flat_map_app.
  apply Forall_app. split; [apply drawMoon_opacities; lra|].
  apply Forall_app. split.
  - rewrite flat_map_flat_map.
    apply Forall_flat_map_in. intros s _. apply drawStar_opacities. lra.
  - rewrite flat_map_flat_map.
    apply Forall_flat_map_in. intros ss Hin.
    rewrite Forall_forall in Hss.
    apply drawShootingStar_opacities; [lra | apply Hss, Hin].
Qed.

(** ** The invariant *)

Lemma spawn_glowing (w h : R) (g : Rng R) :
  ExactFacts.unitDraws g -> glowing (fst (spawnShootingStar w h g)).
Proof.
  intros Hg. pose proof (Hg (S (S (S (S (next g)))))) as H4.
  unfold glowing, spawnShootingStar, bind, random, ret. cbn -[Z.add].
  unfold Q2R; simpl.
  split; [lra|]. split; [lra | constructor].
Qed.

Lemma advance_glowing (ss : @ShootingStar R) :
  glowing ss -> alive (advance ss) = true -> glowing (advance ss).
Proof.
  intros (Hlife & Hdecay & Htrail) Hal.
  apply Factory.alive_iff in Hal.
  unfold glowing, advance in *. cbn [ss_life ss_decay ss_trail] in *.
  change (ss_life ss - ss_decay ss)%js with (ss_life ss - ss_decay ss) in *.
  split; [lra|]. split; [exact Hdecay|].
  assert (Hall : Forall (fun k => ss_life ss - ss_decay ss <= k_a k <= 1)
                   (ss_trail ss ++
                    [mkStreak (ss_x ss + ss_vx ss)%js (ss_y ss + ss_vy ss)%js
                              (ss_life ss - ss_decay ss)])).
  { apply Forall_app. split.
    - eapply Forall_impl; [|exact Htrail]. simpl. intros k Hk. lra.
    - constructor; [simpl; lra | constructor]. }
  destruct (_ >? _)%Z; [|exact Hall].
  destruct (ss_trail ss ++ _) as [|k rest]; [constructor|].
  inversion Hall; assumption.
Qed.

Lemma survivors_glowing (a : list (@ShootingStar R)) :
  Forall glowing a -> Forall glowing (survivors a).
Proof.
  intros Ha. apply Forall_forall. intros ss' Hin.
  apply filter_In in Hin. destruct Hin as [Hin Hal].
  apply in_map_iff in Hin. destruct Hin as (ss & <- & Hin).
  rewrite Forall_forall in Ha. apply advance_glowing; [apply Ha, Hin | exact Hal].
Qed.

Lemma update_scrollDim (sc : @Scene R) (g : Rng R) :
  scrollDim (fst (update sc g)) = scrollDim sc.
Proof. unfold update, bind, ret. destruct (maybeSpawn sc g); reflexivity. Qed.

Lemma initStars_scrollDim (sc : @Scene R) (g : Rng R) :
  scrollDim (fst (initStars sc g)) = scrollDim sc.
Proof. unfold initStars, bind, ret. destruct (pushEach _ _ _ g); reflexivity. Qed.

(** A scroll event of a window of positive height ([innerHeight] 0 would
    make the quotient of the listener 0 / 0). *)
Definition tall (e : @Event R) : Prop :=
  match e with
  | ScrollTo _ vh => 0 < vh
  | _ => True
  end.

Lemma handle_lit (e : @Event R) (sc : @Scene R) (g : Rng R) :
  tall e -> ExactFacts.unitDraws g -> lit_ sc -> lit_ (fst (handle e sc g)).
Proof.
  intros _ Hg [Hd Hss]. destruct e as [|w h|x y| |y vh]; simpl.
  - unfold lit_. rewrite update_scrollDim, update_shootingStars.
    split; [exact Hd|]. apply survivors_glowing.
    destruct (maybeSpawn_cases sc g) as [-> | (_ & _ & ->)]; [exact Hss|].
    apply Forall_app. split; [exact Hss|].
    constructor; [|constructor]. apply spawn_glowing.
    intros i. apply Hg.
  - unfold lit_, onResize.
    rewrite initStars_scrollDim, initStars_shootingStars.
    split; assumption.
  - split; assumption.
  - split; assumption.
  - split; [|exact Hss].
    change (scrollDim (onScroll y vh sc)) with (dimFactor y vh).
    rewrite dimFactor_unfold. apply Rmax_l.
Qed.

End Opacity.

(** X18.  In a session whose draws are in [0, 1) and whose scroll events
    come from a window of positive height, the dim factor is at least
    0.35; every shooting star has a life above 0 and at most 1, and the
    opacity of each sample of its trail lies between that life and 1; and
    every opacity [draw] asks for, in a solid colour or in a stop of a
    gradient, lies between 0 and 0.92 times the dim factor.  (Exact
    arithmetic.) *)
Theorem draw_opacities_in_range (w h : R) (es : list (@Event R)) (g : Rng R) :
  ExactFacts.unitDraws g -> Forall Opacity.tall es ->
  let sc := fst (session w h es g) in
  (0.35 <= scrollDim sc)%R /\
  Forall (fun ss => (0 < ss_life ss <= 1)%R /\
                    Forall (fun k => (ss_life ss <= k_a k <= 1)%R) (ss_trail ss))
         (shootingStars sc) /\
  Forall (fun a => (0 <= a <= 0.92 * scrollDim sc)%R)
         (flat_map Opacity.opacities (draw sc)).
Proof.
  intros Hg Hes sc.
  assert (Hl : Opacity.lit_ sc).
  { unfold sc. rewrite session_run.
    apply (Kinematics.run_guarded Opacity.lit_ Opacity.tall).
    - apply Opacity.handle_lit.
    - exact Hes.
    - apply Factory.unitDraws_kept; [|exact Hg].
      unfold boot. apply keeps_handle with (e := ResizeTo w h).
    - apply (Opacity.handle_lit (ResizeTo w h) scene0 g I Hg).
      split; [simpl; unfold Q2R; simpl; lra | constructor]. }
  split; [exact (proj1 Hl)|]. split; [|apply Opacity.draw_opacities, Hl].
  eapply Forall_impl; [|exact (proj2 Hl)].
  intros ss (Hlife & _ & Htrail). split; assumption.
Qed.

Lemma draw_opacities_in_range_witness :
  ExactFacts.unitDraws ExactFacts.halves /\
  Forall Opacity.tall [Frame; ScrollTo 300%R 800%R; Frame] /\
  let sc := fst (session 1000%R 800%R [Frame; ScrollTo 300%R 800%R; Frame]
                   ExactFacts.halves) in
  Forall (fun a => (0 <= a <= 0.92 * scrollDim sc)%R)
         (flat_map Opacity.opacities (draw sc)).
Proof.
  assert (Hes : Forall Opacity.tall [Frame; ScrollTo 300%R 800%R; Frame]).
  { repeat (apply Forall_cons || apply Forall_nil); simpl; try exact I; lra. }
  split; [exact ExactFacts.halves_unit|]. split; [exact Hes|].
  exact (proj2 (proj2 (draw_opacities_in_range 1000%R 800%R
                         [Frame; ScrollTo 300%R 800%R; Frame]
                         ExactFacts.halves ExactFacts.halves_unit Hes))).
Defined.

Lemma wrapped_star_not_drawn_witness :
  s_trail VortexWitness.near = [] /\
  drawStar 1%R (updateStar 0%R [VortexWitness.centre] (Pointer.at_ 0 0)
                  1000%R 800%R VortexWitness.near) = [].
Proof.
  split; [reflexivity|].
  apply wrapped_star_not_drawn. right. reflexivity.
Defined.

Unset Implicit Arguments.

Module SessionWitness.

(** A scene with one star, and events that are not resizes. *)
Definition field : @Scene R :=
  mkScene 1000%R 800%R (mkMouse None None) [VortexWitness.near] []
          [VortexWitness.centre] 0%R 1%R.

Definition quiet : list (@Event R) :=
  [Frame; MouseMove 10%R 10%R; Frame; ScrollTo 300%R 800%R; MouseOut].

End SessionWitness.

Lemma stars_keep_identity_witness :
  forallb keepsStars SessionWitness.quiet = true /\
  length (stars (fst (run SessionWitness.quiet SessionWitness.field
                        ExactFacts.halves))) = 1%nat.
Proof.
  split; [reflexivity|].
  exact (proj2 (stars_keep_identity SessionWitness.quiet SessionWitness.field
                  ExactFacts.halves eq_refl)).
Defined.

Lemma trail_ends_at_star_witness :
  (1 <= s_maxTrail VortexWitness.near)%Z /\
  s_trail (updateStar 0%R [VortexWitness.centre] (Pointer.at_ 0 0)
             1000%R 800%R VortexWitness.near) <> [].
Proof.
  assert (H : (1 <= s_maxTrail VortexWitness.near)%Z) by (simpl; lia).
  split; [exact H|].
  exact (proj1 (trail_ends_at_star 0%R [VortexWitness.centre] (Pointer.at_ 0 0)
                  1000%R 800%R VortexWitness.near (mkPoint 0%R 0%R) H)).
Defined.

(** The number of frames among the events. *)
Definition frames {num : Type} (es : list (@Event num)) : nat :=
  length (filter (fun e => match e with Frame => true | _ => false end) es).

(** One tick of the clock. *)
Definition tick {num : Type} {NUM : JsNum num} (t : num) : num := (t + lit 0.016)%js.

(** X19.  The clock [time] of a session is 0, advanced by [time += 0.016]
    once for every frame so far: no event other than a frame moves it,
    and nothing else of the session, be it the size of the window, the
    draws or the pointer, has a part in it.  (Every reading of the
    arithmetic; in binary64 each addition is rounded, see
    [ten_ticks_F64].) *)
Theorem time_counts_frames {num : Type} {NUM : JsNum num} {TRIG : JsTrig num}
    (w h : num) (es : list (@Event num)) (g : Rng num) :
  time (fst (session w h es g)) = Nat.iter (frames es) tick (lit 0).
Proof.
  rewrite session_run.
  assert (Hrun : forall es sc g0,
             time (fst (run es sc g0)) = Nat.iter (frames es) tick (time sc)).
  { clear. induction es as [|e es IH]; intros sc g0.
    - reflexivity.
    - simpl run. unfold bind.
      assert (Hstep : time (fst (handle e sc g0))
                      = if match e with Frame => true | _ => false end
                        then tick (time sc) else time sc).
      { destruct e; simpl handle; try reflexivity.
        - unfold update, bind, ret. destruct (maybeSpawn sc g0); reflexivity.
        - unfold onResize, initStars, bind, ret.
          destruct (pushEach _ _ _ g0); reflexivity. }
      destruct (handle e sc g0) as [sc' g']. simpl fst in *. simpl snd.
      rewrite IH, Hstep. unfold frames. simpl filter.
      destruct e; simpl length; try reflexivity.
      symmetry. apply Nat.iter_succ_r. }
  rewrite Hrun. unfold boot, onResize, initStars, bind, ret.
  destruct (pushEach _ _ _ g); reflexivity.
Qed.

(** In binary64 ten ticks leave the clock at 0.16000000000000003, just
    above 0.16. *)
Lemma ten_ticks_F64 :
  Nat.iter 10 (tick (num := float)) (lit 0) = 0x1.47ae147ae147cp-3%float /\
  PrimFloat.ltb (lit 0.16) (Nat.iter 10 (tick (num := float)) (lit 0)) = true.
Proof. split; vm_compute; reflexivity. Qed.

(** X20.  A resize throws every star away and makes the population anew, as
    at boot, from the new size and the draws alone: untwinkled, each with
    an empty trail; it lays the centres out for the new size and leaves
    the shooting stars, the pointer, the clock and the dim factor as they
    were. *)
Theorem resize_restarts_stars {num : Type} {NUM : JsNum num}
    (w h : num) (sc : @Scene num) (g : Rng num) :
  let sc' := fst (onResize w h sc g) in
  stars sc' = stars (fst (boot w h g)) /\
  Forall (fun s => s_trail s = [] /\ s_size s = s_baseSize s) (stars sc') /\
  length (stars sc') = Z.to_nat (starCount w h) /\
  W sc' = w /\ H sc' = h /\ vortexCenters sc' = layout w h /\
  shootingStars sc' = shootingStars sc /\ mouse sc' = mouse sc /\
  time sc' = time sc /\ scrollDim sc' = scrollDim sc.
Proof.
  intros sc'. unfold sc', boot, onResize.
  split; [|split; [|split]].
  - unfold initStars, bind, ret. cbn [W H resize].
    destruct (pushEach _ _ _ g); reflexivity.
  - unfold initStars, bind, ret. cbn [W H resize].
    destruct (pushEach _ _ _ g) as [sts g'] eqn:E. cbn [fst stars].
    change sts with (fst (sts, g')). rewrite <- E.
    apply pushEach_Forall with (Q := fun _ => True); [|exact I|constructor].
    intros g0 _. split; [|exact I].
    destruct (makeStar_fresh w h g0) as (Ht & Hs & _). split; assumption.
  - rewrite initStars_length. reflexivity.
  - unfold initStars, bind, ret. destruct (pushEach _ _ _ g).
    repeat split; reflexivity.
Qed.

(** The pointer as the listeners leave it: both coordinates, or none. *)
Definition pointerWhole {num : Type} (m : @Mouse num) : Prop :=
  (m_x m = None /\ m_y m = None) \/ (exists x y, m = mkMouse (Some x) (Some y)).

(** X21.  In a session the two coordinates of the pointer are always both
    [null] or both numbers, so that the mouse block, which tests
    [mouse.x] only, never reads a [null] [mouse.y]. *)
Theorem pointer_coordinates_together {num : Type} {NUM : JsNum num}
    {TRIG : JsTrig num} (w h : num) (es : list Event) (g : Rng num) :
  pointerWhole (mouse (fst (session w h es g))).
Proof.
  rewrite session_run.
  apply (@run_invariant num NUM TRIG
           (fun sc => pointerWhole (mouse sc)) (fun _ => True)).
  - intros e sc g0 _ Hsc. destruct e; simpl.
    + unfold update, bind, ret. destruct (maybeSpawn sc g0); exact Hsc.
    + unfold onResize, initStars, bind, ret.
      destruct (pushEach _ _ _ g0); exact Hsc.
    + right. eexists; eexists; reflexivity.
    + left. split; reflexivity.
    + exact Hsc.
  - intros; exact I.
  - exact I.
  - unfold boot, onResize, initStars, bind, ret.
    destruct (pushEach _ _ _ g). left. split; reflexivity.
Qed.

Unset Implicit Arguments.

Module Radii.
Local Open Scope R_scope.

(** The radii a call passes to the context: that of an arc, those of the
    two circles of a radial gradient.  The context raises an exception
    on a negative one. *)
Definition paintRadii (p : @Paint R) : list R :=
  match p with
  | Solid _ => []
  | Radial g => [g_r0 g; g_r1 g]
  end.

Definition radii (c : @Call R) : list R :=
  match c with
  | Arc _ _ r _ _ => [r]
  | StrokeStyle p | FillStyle p => paintRadii p
  | _ => []
  end.

Definition visible (s : @Star R) : Prop := 0.4 <= s_baseSize s /\ 0 < s_size s.

(** A window of a size that is not negative. *)
Definition sized (e : @Event R) : Prop :=
  match e with
  | ResizeTo w h => 0 <= w /\ 0 <= h
  | _ => True
  end.

Definition drawable (sc : @Scene R) : Prop :=
  0 <= W sc /\ 0 <= H sc /\ Forall visible (stars sc).

Lemma makeStar_visible (w h : R) (g : Rng R) :
  ExactFacts.unitDraws g -> visible (fst (makeStar w h g)).
Proof.
  intros Hg. pose proof (Hg (S (next g))) as H1.
  unfold visible, makeStar, bind, random, ret. cbn -[Z.add Int_part].
  repeat match goal with |- context [if ?c then _ else _] => destruct c end;
    cbn -[Z.add Int_part]; unfold Q2R; simpl; lra.
Qed.

Lemma updateStar_visible (t : R) (vcs : list (@Vortex R)) (m : @Mouse R) (w h : R)
    (s : @Star R) :
  visible s -> visible (updateStar t vcs m w h s).
Proof.
  intros [Hb _]. unfold visible.
  assert (Hbase : s_baseSize (updateStar t vcs m w h s) = s_baseSize s).
  { unfold updateStar, sampleTrail. cbn [s_baseSize set_trail].
    apply beforeSample_baseSize. }
  assert (Hsize : s_size (updateStar t vcs m w h s) = s_size (twinkle t s)).
  { unfold updateStar, sampleTrail. cbn [s_size set_trail].
    apply beforeSample_size. }
  rewrite Hbase, Hsize. split; [exact Hb|].
  unfold twinkle. cbn [s_size set_size].
  change (s_baseSize s * (lit 0.65 + lit 0.35 * sin (t * s_twinkleK s * lit 60 + s_twinkleP s)))%js
    with (s_baseSize s *
          (Q2R 0.65 + Q2R 0.35 * Rtrigo_def.sin (t * s_twinkleK s * Q2R 60 + s_twinkleP s))).
  pose proof (SIN_bound (t * s_twinkleK s * Q2R 60 + s_twinkleP s)) as [Hlo Hhi].
  unfold Q2R in *; simpl in *. nra.
Qed.

Lemma handle_drawable (e : @Event R) (sc : @Scene R) (g : Rng R) :
  sized e -> ExactFacts.unitDraws g -> drawable sc ->
  drawable (fst (handle e sc g)).
Proof.
  intros He Hg (Hw & Hh & Hs). destruct e as [|w h|x y| |y vh]; simpl.
  - unfold drawable. rewrite update_stars.
    destruct (Kinematics.update_frame sc g) as (-> & -> & _).
    split; [exact Hw|]. split; [exact Hh|].
    apply Forall_forall. intros s' Hin.
    apply in_map_iff in Hin. destruct Hin as (s & <- & Hin).
    rewrite Forall_forall in Hs. apply updateStar_visible, Hs, Hin.
  - unfold drawable, onResize. destruct He as [Hw' Hh'].
    destruct (Kinematics.initStars_frame (resize w h sc) g) as (-> & -> & _).
    split; [exact Hw'|]. split; [exact Hh'|].
    apply Kinematics.initStars_Forall; [|exact Hg].
    intros g0 Hg0. apply makeStar_visible, Hg0.
  - repeat split; assumption.
  - repeat split; assumption.
  - repeat split; assumption.
Qed.

Lemma drawStar_radii (dim : R) (s : @Star R) :
  visible s -> Forall (fun r => 0 <= r) (flat_map radii (drawStar dim s)).
Proof.
  intros [_ Hs]. unfold drawStar.
  destruct (_ <? 2)%nat; [constructor|].
  rewrite !flat_map_app. apply Forall_app. split; [|apply Forall_app; split].
  - rewrite Opacity.flat_map_flat_map.
    apply Opacity.Forall_flat_map_in. intros j _.
    unfold drawSegment.
    destruct (nth_error _ (j - 1)); [|constructor].
    destruct (nth_error _ j); [|constructor].
    destruct (_ >? _)%js; constructor.
  - cbn [flat_map radii paintRadii app].
    repeat (apply Forall_cons || apply Forall_nil). lra.
  - destruct (_ >? _)%js; [|constructor].
    cbn [flat_map radii paintRadii app g_r0 g_r1].
    change (s_size s * lit 5)%js with (s_size s * Q2R 5).
    change (@lit R Exact_num 0) with (Q2R 0).
    unfold Q2R; simpl.
    repeat (apply Forall_cons || apply Forall_nil); lra.
Qed.

Lemma drawShootingStar_radii (dim : R) (ss : @ShootingStar R) :
  flat_map radii (drawShootingStar dim ss) = [].
Proof.
  unfold drawShootingStar. rewrite Opacity.flat_map_flat_map.
  induction (seq 1 _) as [|j l IH]; [reflexivity|].
  simpl. rewrite IH, app_nil_r.
  unfold drawStreak.
  destruct (nth_error _ (j - 1)); [|reflexivity].
  destruct (nth_error _ j); reflexivity.
Qed.

Lemma drawMoon_radii (sc : @Scene R) :
  0 <= W sc -> 0 <= H sc ->
  Forall (fun r => 0 <= r) (flat_map radii (drawMoon sc)).
Proof.
  intros Hw Hh. unfold drawMoon.
  cbn [flat_map radii paintRadii app g_r0 g_r1].
  change (@min R Exact_min (W sc) (H sc)) with (Rmin (W sc) (H sc)).
  assert (Hm : 0 <= Rmin (W sc) (H sc)) by (apply Rmin_glb; assumption).
  set (mn := Rmin (W sc) (H sc)) in *. clearbody mn.
  change (@lit R Exact_num) with Q2R.
  change (@mul R Exact_num) with Rmult.
  unfold Q2R; simpl.
  repeat (apply Forall_cons || apply Forall_nil); lra.
Qed.

Lemma draw_radii (sc : @Scene R) :
  drawable sc -> Forall (fun r => 0 <= r) (flat_map radii (draw sc)).
Proof.
  intros (Hw & Hh & Hs). unfold draw.
  cbn [flat_map radii app]. rewrite !flat_map_app.
  apply Forall_app. split; [apply drawMoon_radii; assumption|].
  apply Forall_app. split.
  - rewrite Opacity.flat_map_flat_map.
    apply Opacity.Forall_flat_map_in. intros s Hin.
    rewrite Forall_forall in Hs. apply drawStar_radii, Hs, Hin.
  - rewrite Opacity.flat_map_flat_map.
    apply Opacity.Forall_flat_map_in. intros ss _.
    rewrite drawShootingStar_radii. constructor.
Qed.

End Radii.

(** X22.  In a session whose draws are in [0, 1) and whose window never has
    a negative size, no radius [draw] passes to [arc] or to
    [createRadialGradient] is negative (either call would raise an
    exception on one and end the animation): every star keeps a base
    size of at least 0.4 and a displayed size above 0.  (Exact
    arithmetic.) *)
Theorem draw_radii_not_negative (w h : R) (es : list (@Event R)) (g : Rng R) :
  ExactFacts.unitDraws g -> (0 <= w)%R -> (0 <= h)%R ->
  Forall Radii.sized es ->
  let sc := fst (session w h es g) in
  Forall (fun s => (0.4 <= s_baseSize s)%R /\ (0 < s_size s)%R) (stars sc) /\
  Forall (fun r => (0 <= r)%R) (flat_map Radii.radii (draw sc)).
Proof.
  intros Hg Hw Hh Hes sc.
  assert (Hd : Radii.drawable sc).
  { unfold sc. rewrite session_run.
    apply (Kinematics.run_guarded Radii.drawable Radii.sized).
    - apply Radii.handle_drawable.
    - exact Hes.
    - apply Factory.unitDraws_kept; [|exact Hg].
      unfold boot. apply keeps_handle with (e := ResizeTo w h).
    - apply (Radii.handle_drawable (ResizeTo w h) scene0 g).
      + split; assumption.
      + exact Hg.
      + split; [|split; [|constructor]]; simpl; unfold Q2R; simpl; lra. }
  split; [exact (proj2 (proj2 Hd)) | apply Radii.draw_radii, Hd].
Qed.

Lemma draw_radii_not_negative_witness :
  ExactFacts.unitDraws ExactFacts.halves /\ (0 <= 1000)%R /\ (0 <= 800)%R /\
  Forall Radii.sized [Frame; ResizeTo 640%R 480%R; Frame] /\
  Forall (fun r => (0 <= r)%R)
    (flat_map Radii.radii
       (draw (fst (session 1000%R 800%R [Frame; ResizeTo 640%R 480%R; Frame]
                     ExactFacts.halves)))).
Proof.
  assert (Hw : (0 <= 1000)%R) by lra. assert (Hh : (0 <= 800)%R) by lra.
  assert (Hes : Forall Radii.sized [Frame; ResizeTo 640%R 480%R; Frame]).
  { repeat (apply Forall_cons || apply Forall_nil); simpl; try exact I; lra. }
  split; [exact ExactFacts.halves_unit|]. split; [exact Hw|]. split; [exact Hh|].
  split; [exact Hes|].
  exact (proj2 (draw_radii_not_negative 1000%R 800%R
                  [Frame; ResizeTo 640%R 480%R; Frame]
                  ExactFacts.halves ExactFacts.halves_unit Hw Hh Hes)).
Defined.

Module Strokes.
Local Open Scope R_scope.

(** Two samples at most one tick's travel apart in each coordinate. *)
Definition near (a b : @Point R) : Prop :=
  Rabs (p_x b - p_x a) <= Kinematics.limit /\
  Rabs (p_y b - p_y a) <= Kinematics.limit.

(** A trail each of whose samples is near the next. *)
Fixpoint linked (t : list (@Point R)) : Prop :=
  match t with
  | [] => True
  | a :: t' => match t' with [] => True | b :: _ => near a b end /\ linked t'
  end.

Definition here (s : @Star R) : @Point R := mkPoint (s_x s) (s_y s).

(** The trail is linked and, unless empty, ends where the star is. *)
Definition tidy (s : @Star R) : Prop :=
  linked (s_trail s) /\ last (s_trail s) (here s) = here s.

(** The number of [stroke] calls. *)
Definition strokes (cs : list (@Call R)) : nat :=
  length (filter (fun c => match c with Stroke => true | _ => false end) cs).

Lemma linked_tl (t : list (@Point R)) : linked t -> linked (tl t).
Proof. destruct t as [|a t]; simpl; [trivial | intros [_ Ht]; exact Ht]. Qed.

Lemma linked_snoc (t : list (@Point R)) (p : @Point R) :
  linked t -> near (last t p) p \/ t = [] -> linked (t ++ [p]).
Proof.
  induction t as [|a t IH]; intros Ht Hlast.
  - simpl. split; exact I.
  - destruct Hlast as [Hlast|Hnil]; [|discriminate].
    destruct Ht as [Ha Ht]. destruct t as [|b t].
    + simpl in *. split; [exact Hlast | split; exact I].
    + change ((a :: b :: t) ++ [p]) with (a :: ((b :: t) ++ [p])).
      split; [exact Ha|]. apply IH; [exact Ht|]. left. exact Hlast.
Qed.

Lemma linked_nth (t : list (@Point R)) (j : nat) (a b : @Point R) :
  linked t -> nth_error t j = Some a -> nth_error t (S j) = Some b -> near a b.
Proof.
  revert j. induction t as [|c t IH]; intros j Ht Ha Hb.
  - destruct j; discriminate.
  - destruct Ht as [Hc Ht]. destruct j as [|j].
    + simpl in Ha. injection Ha as ->.
      destruct t as [|d t]; [discriminate|].
      simpl in Hb. injection Hb as ->. exact Hc.
    + apply (IH j); assumption.
Qed.

Lemma last_tl (t : list (@Point R)) (p : @Point R) :
  last t p = p -> last (tl t) p = p.
Proof.
  destruct t as [|a [|b t]]; simpl; intros Hl; try reflexivity. exact Hl.
Qed.

Section WithTime.
Variables (t : R) (vcs : list (@Vortex R)) (m : @Mouse R) (w h : R).

Lemma moved_position (s : @Star R) :
  s_x (moved t vcs m s) = s_x s + s_vx (moved t vcs m s) /\
  s_y (moved t vcs m s) = s_y s + s_vy (moved t vcs m s).
Proof.
  assert (Hk : forall s0 : @Star R,
             s_x (mouseForce m s0) = s_x s0 /\ s_y (mouseForce m s0) = s_y s0).
  { intros s0. unfold mouseForce.
    destruct (m_x m); [destruct (_ && _)|]; split; reflexivity. }
  destruct (Hk (vortexForces vcs (twinkle t s))) as [Hx Hy].
  destruct (vortexForces_keeps vcs (twinkle t s)) as (Hx' & Hy' & _).
  split.
  - unfold moved, move. cbn [s_x s_vx set_pos].
    unfold damp at 1. cbn [s_x set_vel]. rewrite Hx, Hx'. reflexivity.
  - unfold moved, move. cbn [s_y s_vy set_pos].
    unfold damp at 1. cbn [s_y set_vel]. rewrite Hy, Hy'. reflexivity.
Qed.

(** Without a wrap, the tick moves the star by its new velocity. *)
Lemma tick_unwrapped (s : @Star R) :
  wrappedNow t vcs m w h s = false ->
  s_x (updateStar t vcs m w h s) = s_x s + s_vx (updateStar t vcs m w h s) /\
  s_y (updateStar t vcs m w h s) = s_y s + s_vy (updateStar t vcs m w h s).
Proof.
  intros Hw. rewrite wrappedNow_outOfBounds in Hw.
  unfold updateStar, beforeSample. fold (moved t vcs m s).
  rewrite (wrapEdges_inside w h _ Hw).
  cbn [clearIfWrapped]. unfold sampleTrail. cbn [s_x s_y s_vx s_vy set_trail].
  apply moved_position.
Qed.

Lemma tick_tidy (s : @Star R) :
  tidy s -> Kinematics.within Kinematics.limit (updateStar t vcs m w h s) ->
  tidy (updateStar t vcs m w h s).
Proof.
  intros [Hl Hlast] [Hvx Hvy]. unfold tidy.
  pose proof (updateStar_trail t vcs m w h s) as Ht. cbv zeta in Ht.
  rewrite Ht. fold (here (updateStar t vcs m w h s)).
  set (p := here (updateStar t vcs m w h s)).
  assert (Hgrown : linked ((if wrappedNow t vcs m w h s then [] else s_trail s) ++ [p])
                   /\ last ((if wrappedNow t vcs m w h s then [] else s_trail s) ++ [p]) p = p).
  { split; [|apply last_last].
    destruct (wrappedNow t vcs m w h s) eqn:Ew; [simpl; split; exact I|].
    apply linked_snoc; [exact Hl|].
    destruct (s_trail s) as [|a tr] eqn:Etr; [right; reflexivity | left].
    rewrite <- Etr in *.
    assert (Hlast' : last (s_trail s) p = here s).
    { rewrite Etr in *. clear - Hlast.
      revert a Hlast. induction tr as [|b tr IH]; intros a Hlast; [exact Hlast|].
      apply (IH b). exact Hlast. }
    rewrite Hlast'. unfold near, p, here. cbn [p_x p_y].
    destruct (tick_unwrapped s Ew) as [-> ->].
    split.
    - replace (s_x s + s_vx (updateStar t vcs m w h s) - s_x s)
        with (s_vx (updateStar t vcs m w h s)) by ring. exact Hvx.
    - replace (s_y s + s_vy (updateStar t vcs m w h s) - s_y s)
        with (s_vy (updateStar t vcs m w h s)) by ring. exact Hvy. }
  destruct Hgrown as [Hg1 Hg2].
  destruct (_ >? _)%Z.
  - split; [apply linked_tl, Hg1 | apply last_tl, Hg2].
  - split; assumption.
Qed.

End WithTime.

Lemma makeStar_tidy (w h : R) (g : Rng R) : tidy (fst (makeStar w h g)).
Proof.
  destruct (makeStar_fresh w h g) as (Ht & _). unfold tidy. rewrite Ht.
  split; [exact I | reflexivity].
Qed.

Definition orderly (sc : @Scene R) : Prop :=
  Kinematics.calm sc /\ Forall tidy (stars sc).

Lemma handle_orderly (e : @Event R) (sc : @Scene R) (g : Rng R) :
  ExactFacts.unitDraws g -> orderly sc -> orderly (fst (handle e sc g)).
Proof.
  intros Hg [Hc Ht].
  split; [apply Kinematics.handle_calm; assumption|].
  destruct Hc as [Hs Hv].
  destruct e as [|w h|x y| |y vh]; simpl; try exact Ht.
  - rewrite update_stars.
    apply Forall_forall. intros s' Hin.
    apply in_map_iff in Hin. destruct Hin as (s & <- & Hin).
    rewrite Forall_forall in Ht, Hv.
    apply tick_tidy; [apply Ht, Hin|].
    apply Kinematics.tick_calm; [exact Hs | apply Hv, Hin].
  - unfold onResize. apply Kinematics.initStars_Forall; [|exact Hg].
    intros g0 _. apply makeStar_tidy.
Qed.

(** ** What [draw] makes of a linked trail *)

Lemma near_short (a b : @Point R) :
  near a b ->
  Exact.ltb 10000
    ((p_x b - p_x a) * (p_x b - p_x a) + (p_y b - p_y a) * (p_y b - p_y a))
  = false.
Proof.
  intros [Hx Hy]. apply Exact.ltb_false.
  apply Kinematics.Rabs_le_inv in Hx, Hy. unfold Kinematics.limit in *. nra.
Qed.

Lemma drawSegment_strokes (dim : R) (s : @Star R) (j : nat) :
  linked (s_trail s) -> In j (seq 1 (length (s_trail s) - 1)) ->
  strokes (drawSegment dim s (length (s_trail s)) j) = 1%nat.
Proof.
  intros Hl Hj. apply in_seq in Hj. unfold drawSegment.
  destruct (nth_error (s_trail s) (j - 1)) as [a|] eqn:Ea;
    [|apply nth_error_None in Ea; lia].
  destruct (nth_error (s_trail s) j) as [b|] eqn:Eb;
    [|apply nth_error_None in Eb; lia].
  assert (Hn : near a b).
  { apply (linked_nth (s_trail s) (j - 1) a b Hl Ea).
    replace (S (j - 1)) with j by lia. exact Eb. }
  change (lit 10000 <? (p_x b - p_x a) * (p_x b - p_x a)
                       + (p_y b - p_y a) * (p_y b - p_y a))%js
    with (Exact.ltb (Q2R 10000)
            ((p_x b - p_x a) * (p_x b - p_x a) + (p_y b - p_y a) * (p_y b - p_y a))).
  replace (Q2R 10000) with 10000 by (unfold Q2R; simpl; lra).
  rewrite (near_short a b Hn). reflexivity.
Qed.

Lemma strokes_app (cs ds : list (@Call R)) :
  strokes (cs ++ ds) = (strokes cs + strokes ds)%nat.
Proof. unfold strokes. rewrite filter_app, length_app. reflexivity. Qed.

Lemma strokes_flat_map (f : nat -> list (@Call R)) (l : list nat) :
  (forall j, In j l -> strokes (f j) = 1%nat) ->
  strokes (flat_map f l) = length l.
Proof.
  intros Hf. induction l as [|j l IH]; [reflexivity|].
  simpl. rewrite strokes_app, Hf, IH; [reflexivity| |left; reflexivity].
  intros k Hk. apply Hf. right. exact Hk.
Qed.

Lemma drawStar_strokes (dim : R) (s : @Star R) :
  linked (s_trail s) ->
  strokes (drawStar dim s) = (length (s_trail s) - 1)%nat.
Proof.
  intros Hl. unfold drawStar.
  destruct (Nat.ltb_spec (length (s_trail s)) 2) as [Hlt|Hge].
  - change (strokes []) with 0%nat. lia.
  - rewrite !strokes_app.
    rewrite strokes_flat_map by (intros j Hj; apply drawSegment_strokes; assumption).
    rewrite length_seq.
    destruct (_ >? _)%js; unfold strokes; cbn [filter length]; lia.
Qed.

End Strokes.

(** X23.  In a session whose draws are in [0, 1), consecutive samples of
    a star's trail are never more than 45.4545 apart in either coordinate
    (a wrap empties the trail, and without one the star moves by its
    velocity), so the test that skips a segment of squared length above
    10000 never fires: [draw] strokes every segment of every trail it
    draws, one [stroke] for each sample after the first.  (Exact
    arithmetic.) *)
Theorem trail_segments_all_drawn (w h : R) (es : list (@Event R)) (g : Rng R) :
  ExactFacts.unitDraws g ->
  let sc := fst (session w h es g) in
  Forall (fun s => Strokes.linked (s_trail s) /\
                   forall dim, Strokes.strokes (drawStar dim s)
                               = (length (s_trail s) - 1)%nat)
         (stars sc).
Proof.
  intros Hg sc.
  assert (Ho : Strokes.orderly sc).
  { unfold sc. rewrite session_run.
    apply (Kinematics.run_guarded Strokes.orderly (fun _ => True)).
    - intros e sc0 g0 _. apply Strokes.handle_orderly.
    - apply Forall_forall. intros; exact I.
    - apply Factory.unitDraws_kept; [|exact Hg].
      unfold boot. apply keeps_handle with (e := ResizeTo w h).
    - apply (Strokes.handle_orderly (ResizeTo w h) scene0 g Hg).
      split; [|constructor].
      split; [unfold Kinematics.strength; simpl; lra | constructor]. }
  destruct Ho as [_ Ht]. eapply Forall_impl; [|exact Ht].
  intros s [Hl _]. split; [exact Hl|].
  intros dim. apply Strokes.drawStar_strokes, Hl.
Qed.

Lemma trail_segments_all_drawn_witness :
  let sc := fst (session 1000%R 800%R [Frame; Frame; MouseMove 10%R 10%R; Frame]
                   ExactFacts.halves) in
  Forall (fun s => Strokes.linked (s_trail s) /\
                   forall dim, Strokes.strokes (drawStar dim s)
                               = (length (s_trail s) - 1)%nat)
         (stars sc).
Proof. apply trail_segments_all_drawn. exact ExactFacts.halves_unit. Defined.
